(** * Velocidex/ordereddict: the ordered dictionary of ordereddict.go

    A shallow embedding of [Dict] (an insertion-ordered map with
    soft deletes), of its JSON decoder and of its JSON encoder, followed
    by the properties of the specification that were checked against it.

    Conventions of the model:
    - a Go [string] is a sequence of bytes: [string] of the Standard
      Library, [len(s)] is [String.length s] and [s[i]] is [String.get i s];
    - [map[string]int] is [gmap string nat]; [len(m)] is [size m];
    - [[]Item] is [list Item]; an index expression that is out of range
      panics in Go, which the model renders as [None];
    - every method holds the mutex of its receiver for the whole call, so a
      method is one atomic step on the receiver: the model is sequential and
      passes the [Dict] explicitly;
    - a [*Dict] stored as a value is an address [loc] into a [heap]. *)

From Stdlib Require Import ZArith String Ascii.
From Stdlib.Floats Require Import SpecFloat.
From stdpp Require Import base option list gmap strings pretty.

#[local] Abbreviation length := Datatypes.length.

Local Open Scope string_scope.
Local Open Scope list_scope.
Local Open Scope nat_scope.

(** ** Values *)

(** Addresses of heap-allocated dictionaries ([*Dict]). *)
Abbreviation loc := nat.

(** [float64]: an IEEE 754 binary64 datum. *)
Definition float64 := spec_float.

(** [time.Time]: an instant (seconds and nanoseconds since the Unix epoch)
    and the offset of its zone, in seconds east of UTC. *)
Record Time := { unix_sec : Z; unix_nsec : Z; zone_offset : Z }.

(** The dynamic values ([interface{}]) that the dictionary stores: the
    kinds the decoder produces, the signed integer kinds of callers, and
    [PtrDeleted], the address [&Deleted] of the package variable that marks
    a deleted item. *)
#[warnings="-register-all"]
Inductive value : Type :=
  | VNil
  | PtrDeleted
  | VBool (b : bool)
  | VInt (n : Z)
  | VInt64 (n : Z)
  | VUint64 (n : Z)
  | VFloat64 (f : float64)
  | VString (s : string)
  | VTime (t : Time)
  | VSlice (l : list value)
  | VDict (p : loc).

Record Item := { Key : string; Value : value }.

(** [func (self Item) IsDeleted() bool { return self.Value == &Deleted }] *)
Definition IsDeleted (self : Item) : bool :=
  match Value self with
  | PtrDeleted => true
  | _ => false
  end.

(** ** The Go library functions the package calls

    They are not part of the repository: the model takes them as an
    interface, and the properties below hold for every implementation. *)
Class GoLib := {
  (** [strings.ToLower] *)
  strings_ToLower : string → string;
  (** [strconv.ParseFloat(s, 64)]; [None] is a non-nil error. *)
  strconv_ParseFloat : string → option float64;
  (** [time.Parse(time.RFC3339, s)]; [None] is a non-nil error. *)
  time_Parse_RFC3339 : string → option Time;
  (** [json.Marshal] on a value that holds no dictionary and no slice;
      [None] is a non-nil error. *)
  json_Marshal_scalar : value → option string;
  (** What [json.Marshal] makes of the bytes a [MarshalJSON] method
      returned (it checks and compacts them); [None] is a non-nil error. *)
  json_Marshaler_bytes : string → option string
}.

(** ** The dictionary

    The [store] of a [Dict] of the model is an allocated map, as
    [NewDict], [SetCaseInsensitive] and [Copy] make it; a [Dict] whose map
    is [nil] (the zero value of the struct, on which [Set] panics and for
    which [parseobject] allocates the map) is not modelled. *)

Record Dict := {
  items : list Item;
  (** Map key -> item index *)
  store : gmap string nat;
  case_insensitive : bool;
  (** Used in Get() when we fail to match *)
  default_value : value
}.

Definition NewDict : Dict :=
  {| items := []; store := ∅; case_insensitive := false; default_value := VNil |}.

Definition with_items (d : Dict) (l : list Item) : Dict :=
  {| items := l; store := store d;
     case_insensitive := case_insensitive d; default_value := default_value d |}.

Definition with_store (d : Dict) (m : gmap string nat) : Dict :=
  {| items := items d; store := m;
     case_insensitive := case_insensitive d; default_value := default_value d |}.

(** [self.items[idx].Value = v]; [None] when [idx] is out of range. *)
Definition set_item_value (idx : nat) (v : value) (l : list Item) : option (list Item) :=
  match l !! idx with
  | Some it => Some (<[idx := {| Key := Key it; Value := v |}]> l)
  | None => None
  end.

Section Store.
Context {lib : GoLib}.

Definition getKey (self : Dict) (key : string) : string :=
  if case_insensitive self then strings_ToLower key else key.

Definition IsCaseInsensitive (self : Dict) : bool := case_insensitive self.

Definition SetDefault (self : Dict) (v : value) : Dict :=
  {| items := items self; store := store self;
     case_insensitive := case_insensitive self; default_value := v |}.

Definition GetDefault (self : Dict) : value := default_value self.

(** One round of the loop of [maybeCompact]: [acc] is
    [(new_store, new_items)]. *)
Definition compact_step (self : Dict) (acc : gmap string nat * list Item) (item : Item)
    : gmap string nat * list Item :=
  if IsDeleted item then acc
  else
    let norm_key := getKey self (Key item) in
    (<[norm_key := length acc.2]> acc.1,
     acc.2 ++ [{| Key := Key item; Value := Value item |}]).

Definition maybeCompact (self : Dict) : Dict :=
  if (Z.of_nat (length (items self)) - Z.of_nat (size (store self)) <? 10)%Z
  then self
  else
    let acc := foldl (compact_step self) (∅, []) (items self) in
    with_items (with_store self acc.1) acc.2.

(** Set always updates key order to the end. *)
Definition set (self : Dict) (key : string) (v : value) : option Dict :=
  let norm_key := getKey self key in
  its ← match store self !! norm_key with
        | Some idx => set_item_value idx PtrDeleted (items self)
        | None => Some (items self)
        end;
  Some (maybeCompact
          (with_items (with_store self (<[norm_key := length its]> (store self)))
                      (its ++ [{| Key := key; Value := v |}]))).

(** [Set]: [set] under the lock. *)
Definition Set_ (self : Dict) (key : string) (v : value) : option Dict :=
  set self key v.

(** Like Set() but does not effect the order. *)
Definition Update (self : Dict) (key : string) (v : value) : option Dict :=
  let norm_key := getKey self key in
  match store self !! norm_key with
  | Some idx =>
      its ← set_item_value idx v (items self);
      Some (with_items self its)
  | None =>
      Some (maybeCompact
              (with_items
                 (with_store self (<[norm_key := length (items self)]> (store self)))
                 (items self ++ [{| Key := key; Value := v |}])))
  end.

(** Mark the item as deleted.  The lookup uses the normalised key; the
    [delete] uses [key] as it was passed. *)
Definition Delete (self : Dict) (key : string) : option Dict :=
  match store self !! getKey self key with
  | Some idx =>
      its ← set_item_value idx PtrDeleted (items self);
      Some (with_items (with_store self (delete key (store self))) its)
  | None => Some self
  end.

Definition Len (self : Dict) : nat := size (store self).

(** [Get] returns the value and the presence flag. *)
Definition Get (self : Dict) (key : string) : option (value * bool) :=
  match store self !! getKey self key with
  | None => Some (default_value self, false)
  | Some idx =>
      it ← items self !! idx;
      Some (Value it, true)
  end.

Definition Items (self : Dict) : list Item :=
  filter (λ i, IsDeleted i = false) (items self).

Definition Keys (self : Dict) : list string := Key <$> Items self.

Definition Values (self : Dict) : list value := Value <$> Items self.

Definition set_all (self : Dict) (l : list Item) : option Dict :=
  foldl (λ acc item, d ← acc; Set_ d (Key item) (Value item)) (Some self) l.

Definition MergeFrom (self other : Dict) : option Dict :=
  set_all self (Items other).

Definition SetCaseInsensitive (self : Dict) : option Dict :=
  set_all {| items := []; store := ∅; case_insensitive := true; default_value := VNil |}
          (filter (λ i, IsDeleted i = false) (Items self)).

Definition Copy (self : Dict) : Dict :=
  {| items := [] ++ items self;
     store := store self;
     case_insensitive := case_insensitive self;
     default_value := default_value self |}.

End Store.

(** ** Outcomes of a call

    A call returns, panics (an index out of range, a nil dereference) or,
    in the model only, exhausts the fuel that bounds its recursion. *)
Inductive outcome (A : Type) : Type :=
  | Returns (a : A)
  | Panics
  | OutOfFuel.
Arguments Returns {A} a.
Arguments Panics {A}.
Arguments OutOfFuel {A}.

(** The dictionaries that live behind a pointer: [VDict p] is the address
    [p] of [h !! p].  [NewDict()] allocates at the end. *)
Abbreviation heap := (list Dict).

Definition alloc (h : heap) (d : Dict) : loc * heap := (length h, h ++ [d]).

(** ** The decoder *)

(** [json.Token], as the decoder yields it after [UseNumber]. *)
Inductive Token : Type :=
  | TDelim (c : ascii)
  | TBool (b : bool)
  | TNumber (s : string)
  | TString (s : string)
  | TNull.

(** The [error] values of the package, one constructor for each
    [fmt.Errorf] site, and those of the tokenizer. *)
Inductive error : Type :=
  | io_EOF
  | SyntaxError (msg : string)
  | ErrObjectOpen
  | ErrTrailingData
  | ErrKeyNotString (t : Token)
  | ErrObjectClose
  | ErrArrayClose
  | ErrUnexpectedDelim (c : ascii)
  | ErrUnexpectedToken (t : Token).

(** A [*json.Decoder] over a document is the sequence of results that the
    successive calls of [dec.Token()] give; past its end [Token] gives
    [io.EOF]. *)
Abbreviation Decoder := (list (Token + error)).

(** [dec.More()]: there is another element in the current array or object. *)
Definition dec_More (dec : Decoder) : bool :=
  match dec with
  | [] => false
  | inl (TDelim c) :: _ => negb (Ascii.eqb c "}" || Ascii.eqb c "]")
  | _ => true
  end.

(** [dec.Token()] *)
Definition dec_Token (dec : Decoder) : (Token + error) * Decoder :=
  match dec with
  | [] => (inr io_EOF, [])
  | r :: rest => (r, rest)
  end.

(** [strconv.ParseUint(s, 10, 64)] and [strconv.ParseInt(s, 10, 64)] *)
Definition digit_of (c : ascii) : option Z :=
  let n := nat_of_ascii c in
  if (48 <=? n) && (n <=? 57) then Some (Z.of_nat (n - 48)) else None.

Fixpoint parse_digits (s : string) (acc : Z) : option Z :=
  match s with
  | EmptyString => Some acc
  | String c s' =>
      match digit_of c with
      | Some d => parse_digits s' (10 * acc + d)%Z
      | None => None
      end
  end.

Definition strconv_ParseUint (s : string) : option Z :=
  match s with
  | EmptyString => None
  | _ =>
      match parse_digits s 0%Z with
      | Some n => if (n <=? 2 ^ 64 - 1)%Z then Some n else None
      | None => None
      end
  end.

Definition strconv_ParseInt (s : string) : option Z :=
  match s with
  | EmptyString => None
  | String c s' =>
      let neg := Ascii.eqb c "-" in
      let digits := if Ascii.eqb c "+" || neg then s' else s in
      match digits with
      | EmptyString => None
      | _ =>
          match parse_digits digits 0%Z with
          | Some un =>
              if negb neg && (2 ^ 63 <=? un)%Z then None
              else if neg && (2 ^ 63 <? un)%Z then None
              else Some (if neg then - un else un)%Z
          | None => None
          end
      end
  end.

(** The state of a decoding run, and the monad of its functions: a
    function returns, with the state it leaves, an [error] or a result. *)
Abbreviation dstate := (heap * Decoder)%type.

Definition M (A : Type) : Type := dstate → outcome (dstate * (error + A)).

Definition ret {A} (a : A) : M A := λ st, Returns (st, inr a).
Definition throw {A} (e : error) : M A := λ st, Returns (st, inl e).
Definition raise {A} (o : outcome (dstate * (error + A))) : M A := λ _, o.

Definition bind {A B} (m : M A) (k : A → M B) : M B :=
  λ st,
    match m st with
    | Returns (st', inr a) => k a st'
    | Returns (st', inl e) => Returns (st', inl e)
    | Panics => Panics
    | OutOfFuel => OutOfFuel
    end.

Notation "x ←! m ; k" := (bind m (λ x, k))
  (at level 20, m at level 100, k at level 200, right associativity, only parsing).
Notation "m ;! k" := (bind m (λ _, k))
  (at level 100, k at level 200, right associativity, only parsing).

(** [dec.More()] and [dec.Token()] on the decoder of the state. *)
Definition More : M bool := λ st, Returns (st, inr (dec_More st.2)).

Definition Token_ : M (Token + error) :=
  λ st, let (r, dec) := dec_Token st.2 in Returns ((st.1, dec), inr r).

(** [t, err = dec.Token(); if err != nil { return err }] *)
Definition Token_or_return : M Token :=
  r ←! Token_;
  match r with
  | inl t => ret t
  | inr e => throw e
  end.

(** [NewDict()] *)
Definition new_dict : M loc :=
  λ st, let (p, h) := alloc st.1 NewDict in Returns ((h, st.2), inr p).

Section Decode.
Context {lib : GoLib}.

(** [self.set(key, value)] on the dictionary at address [self] *)
Definition set_at (self : loc) (key : string) (v : value) : M unit :=
  λ st,
    match st.1 !! self with
    | Some d =>
        match set d key v with
        | Some d' => Returns ((<[self := d']> st.1, st.2), inr ())
        | None => Panics
        end
    | None => Panics
    end.

(** The closing token of an object and of an array. *)
Definition expect_close (c : ascii) (e : error) : M unit :=
  t ←! Token_or_return;
  match t with
  | TDelim c' => if Ascii.eqb c' c then ret () else throw e
  | _ => throw e
  end.

(** The scalar cases of [handledelim]. *)
Definition looks_like_timestamp (t : string) : bool :=
  (20 <=? String.length t) && bool_decide (String.get 10 t = Some "T"%char).

Definition handle_string (t : string) : value :=
  if looks_like_timestamp t then
    match time_Parse_RFC3339 t with
    | Some parsed => VTime parsed
    | None => VString t
    end
  else VString t.

Definition handle_number (token : Token) (value_str : string) : error + value :=
  match strconv_ParseUint value_str with
  | Some value_uint => inr (VUint64 value_uint)
  | None =>
      match strconv_ParseInt value_str with
      | Some value_int => inr (VInt64 value_int)
      | None =>
          match strconv_ParseFloat value_str with
          | Some float => inr (VFloat64 float)
          | None => inl (ErrUnexpectedToken token)
          end
      end
  end.

(** The bodies of [parseobject], [parsearray] and [handledelim]; the
    arguments [handledelim'], [parseobject'] and [parsearray'] stand for
    their recursive calls. *)
Definition parseobject_body (handledelim' : Token → M value)
    (parseobject' : loc → M unit) (self : loc) : M unit :=
  more ←! More;
  if more : bool then
    t ←! Token_or_return;
    match t with
    | TString key =>
        r ←! Token_;
        match r with
        | inr io_EOF => expect_close "}" ErrObjectClose
        | inr e => throw e
        | inl t =>
            v ←! handledelim' t;
            set_at self key v;!
            parseobject' self
        end
    | _ => throw (ErrKeyNotString t)
    end
  else expect_close "}" ErrObjectClose.

Definition parsearray_body (handledelim' : Token → M value)
    (parsearray' : list value → M (list value)) (arr : list value)
    : M (list value) :=
  more ←! More;
  if more : bool then
    t ←! Token_or_return;
    v ←! handledelim' t;
    parsearray' (arr ++ [v])
  else
    expect_close "]" ErrArrayClose;!
    ret arr.

Definition handledelim_body (parseobject' : loc → M unit)
    (parsearray' : list value → M (list value)) (token : Token) : M value :=
  match token with
  | TDelim c =>
      if Ascii.eqb c "{" then
        dict2 ←! new_dict;
        parseobject' dict2;!
        ret (VDict dict2)
      else if Ascii.eqb c "[" then
        v ←! parsearray' [];
        ret (VSlice v)
      else throw (ErrUnexpectedDelim c)
  | TString t => ret (handle_string t)
  | TNumber s =>
      match handle_number token s with
      | inr v => ret v
      | inl e => throw e
      end
  | TBool b => ret (VBool b)
  | TNull => ret VNil
  end.

(** The three functions call one another; [fuel] bounds the depth of
    their calls. *)
Fixpoint parseobject (fuel : nat) (self : loc) {struct fuel} : M unit :=
  match fuel with
  | O => raise OutOfFuel
  | S fuel' => parseobject_body (handledelim fuel') (parseobject fuel') self
  end

with parsearray (fuel : nat) (arr : list value) {struct fuel} : M (list value) :=
  match fuel with
  | O => raise OutOfFuel
  | S fuel' => parsearray_body (handledelim fuel') (parsearray fuel') arr
  end

with handledelim (fuel : nat) (token : Token) {struct fuel} : M value :=
  match fuel with
  | O => raise OutOfFuel
  | S fuel' => handledelim_body (parseobject fuel') (parsearray fuel') token
  end.

(** [UnmarshalJSON] with the recursion bounded by [fuel]. *)
Definition UnmarshalJSON_fuel (fuel : nat) (self : loc) : M unit :=
  t ←! Token_or_return;
  match t with
  | TDelim c =>
      if Ascii.eqb c "{" then
        parseobject fuel self;!
        r ←! Token_;
        match r with
        | inr io_EOF => ret ()
        | _ => throw ErrTrailingData
        end
      else throw ErrObjectOpen
  | _ => throw ErrObjectOpen
  end.

(** [UnmarshalJSON]: every call of the recursion reads a token first, so
    twice the length of the document and one more call do. *)
Definition UnmarshalJSON (self : loc) (h : heap) (data : Decoder)
    : outcome (dstate * (error + unit)) :=
  UnmarshalJSON_fuel (2 * length data + 1) self (h, data).

End Decode.

(** ** The encoder *)

(** [buf.Truncate(buf.Len() - 1)] *)
Definition truncate_last (buf : string) : string :=
  String.substring 0 (String.length buf - 1) buf.

(** How [json.Marshal] joins the encodings of the elements of a slice. *)
Fixpoint marshal_elements (marshal : value → outcome (option string))
    (l : list value) (first : bool) (buf : string) : outcome (option string) :=
  match l with
  | [] => Returns (Some (buf +:+ "]"))
  | v :: rest =>
      match marshal v with
      | Returns (Some b) =>
          marshal_elements marshal rest false
            (buf +:+ (if first then EmptyString else ",") +:+ b)
      | Returns None => Returns None
      | Panics => Panics
      | OutOfFuel => OutOfFuel
      end
  end.

(** The value is a pointer to a [Dict] ([ok]) and [subdict == self]. *)
Definition back_reference (self : loc) (item : Item) : bool :=
  match Value item with
  | VDict subdict => bool_decide (subdict = self)
  | _ => false
  end.

Section Encode.
Context {lib : GoLib}.

(** The loop of [MarshalJSON] over [self.Items()]; [marshal] is
    [json.Marshal] on a value. *)
Fixpoint marshal_items (marshal : value → outcome (option string))
    (self : loc) (l : list Item) (buf : string) : outcome string :=
  match l with
  | [] => Returns buf
  | item :: rest =>
      match json_Marshal_scalar (VString (Key item)) with
      | None => marshal_items marshal self rest buf
      | Some kEscaped =>
          (* Check for back references and skip them - this is not perfect. *)
          if back_reference self item then marshal_items marshal self rest buf
          else
            match marshal (Value item) with
            | Returns (Some vBytes) =>
                marshal_items marshal self rest
                  (buf +:+ kEscaped +:+ ":" +:+ vBytes +:+ ",")
            | Returns None =>
                marshal_items marshal self rest (buf +:+ kEscaped +:+ ":" +:+ "null,")
            | Panics => Panics
            | OutOfFuel => OutOfFuel
            end
      end
  end.

(** [MarshalJSON] of the dictionary at [self], and [json.Marshal] on a
    value: a dictionary is encoded by its [MarshalJSON], a slice element
    by element, anything else by the library. *)
Fixpoint MarshalJSON (fuel : nat) (h : heap) (self : loc) {struct fuel}
    : outcome (string * option error) :=
  match fuel with
  | O => OutOfFuel
  | S fuel' =>
      match h !! self with
      | None => Panics
      | Some d =>
          match marshal_items (json_Marshal fuel' h) self (Items d) "{" with
          | Returns buf =>
              let buf := if 0 <? length (items d) then truncate_last buf else buf in
              Returns (buf +:+ "}", None)
          | Panics => Panics
          | OutOfFuel => OutOfFuel
          end
      end
  end

with json_Marshal (fuel : nat) (h : heap) (v : value) {struct fuel}
    : outcome (option string) :=
  match v with
  | VDict p =>
      match fuel with
      | O => OutOfFuel
      | S fuel' =>
          match MarshalJSON fuel' h p with
          | Returns (b, None) => Returns (json_Marshaler_bytes b)
          | Returns (_, Some _) => Returns None
          | Panics => Panics
          | OutOfFuel => OutOfFuel
          end
      end
  | VSlice l =>
      match fuel with
      | O => OutOfFuel
      | S fuel' => marshal_elements (json_Marshal fuel' h) l true "["
      end
  | _ => Returns (json_Marshal_scalar v)
  end.

(** [String()]: the encoding, or the text of the error. *)
Definition String_ (fuel : nat) (h : heap) (self : loc) : outcome string :=
  match MarshalJSON fuel h self with
  | Returns (serialized, None) => Returns serialized
  | Returns (_, Some _) => Returns "Error: "
  | Panics => Panics
  | OutOfFuel => OutOfFuel
  end.

End Encode.

(** ** Methods on a dictionary behind a pointer *)

Section Pointers.
Context {lib : GoLib}.

(** [store.Set(key, v)] for the store at address [p] *)
Definition Set_at (h : heap) (p : loc) (key : string) (v : value) : outcome heap :=
  match h !! p with
  | Some d =>
      match Set_ d key v with
      | Some d' => Returns (<[p := d']> h)
      | None => Panics
      end
  | None => Panics
  end.

End Pointers.

(** ** The typed getters *)

(** The conversion [int64(t)] of a [float64], which the language leaves to
    the implementation where the truncated value does not fit. *)
Class GoRuntime := {
  int64_of_float64 : float64 → Z
}.

(** The conversion [int64(t)] of a [uint64]: the same 64 bits, read as a
    signed integer. *)
Definition int64_of_uint64 (t : Z) : Z :=
  ((t + 9223372036854775808) mod 18446744073709551616 - 9223372036854775808)%Z.

(** [to_string] on the values of the model.  The source also accepts a
    [*string], which it dereferences, and a [[]byte]; [value] has neither
    kind, so the model says nothing of a store that holds one. *)
Definition to_string (x : value) : string * bool :=
  match x with
  | VString t => (t, true)
  | _ => (EmptyString, false)
  end.

Section Getters.
Context {lib : GoLib} {rt : GoRuntime}.

Definition GetString (self : Dict) (key : string) : option (string * bool) :=
  r ← Get self key;
  let '(v, pres) := r in
  if pres : bool then
    let '(v_str, ok) := to_string v in
    if ok : bool then Some (v_str, true) else Some (EmptyString, false)
  else Some (EmptyString, false).

Definition GetBool (self : Dict) (key : string) : option (bool * bool) :=
  r ← Get self key;
  let '(v, pres) := r in
  if pres : bool then
    match v with
    | VBool v_bool => Some (v_bool, true)
    | _ => Some (false, false)
    end
  else Some (false, false).

(** [GetStrings]: of the values of the model, those of kind
    [reflect.Slice] are the [VSlice]; the result [nil] is the empty
    list. *)
Definition GetStrings (self : Dict) (key : string) : option (list string * bool) :=
  r ← Get self key;
  let '(v, pres) := r in
  if pres : bool then
    match v with
    | VSlice slice =>
        Some (foldl (λ result value,
                       let '(item, ok) := to_string value in
                       if ok : bool then result ++ [item] else result)
                    [] slice,
              true)
    | _ => Some ([], false)
    end
  else Some ([], false).

(** [GetInt64]; of the numeric types of its switch, [value] has [int],
    [int64], [uint64] and [float64]. *)
Definition GetInt64 (self : Dict) (key : string) : option (Z * bool) :=
  r ← Get self key;
  let '(value, pres) := r in
  if pres : bool then
    match value with
    | VInt t => Some (t, true)
    | VInt64 t => Some (t, true)
    | VUint64 t => Some (int64_of_uint64 t, true)
    | VFloat64 t => Some (int64_of_float64 t, true)
    | _ => Some (0%Z, false)
    end
  else Some (0%Z, false).

(** Convert to Golang native map type (unordered) *)
Definition ToMap (self : Dict) : gmap string value :=
  foldl (λ result item, <[Key item := Value item]> result) ∅ (Items self).

(** [GoString] *)
Definition GoString (fuel : nat) (h : heap) (self : loc) : outcome string :=
  String_ fuel h self.

End Getters.

(** ** YAML *)

(** [yaml.MapItem] and [yaml.MapSlice] *)
Module yaml.

Record MapItem := { Key : value; Value : value }.

Definition MapSlice := list MapItem.

End yaml.

Section Yaml.
Context {lib : GoLib}.

(** One round of the loop of [UnmarshalYAML]. *)
Definition UnmarshalYAML_step (acc : option Dict) (item : yaml.MapItem) : option Dict :=
  self ← acc;
  match yaml.Key item with
  | VString key => Set_ self key (yaml.Value item)
  | _ => Some self
  end.

(** [UnmarshalYAML]; [unmarshal] is what the call [unmarshal(&m)] gives:
    an error, or the map slice it stored in [m]. *)
Definition UnmarshalYAML {E : Type} (self : Dict) (unmarshal : E + yaml.MapSlice)
    : option (Dict * option E) :=
  match unmarshal with
  | inl err => Some (self, Some err)
  | inr m =>
      self' ← foldl UnmarshalYAML_step (Some self) m;
      Some (self', None)
  end.

Definition MarshalYAML {E : Type} (self : Dict) : yaml.MapSlice * option E :=
  ((λ item, {| yaml.Key := VString (Key item); yaml.Value := Value item |}) <$> Items self,
   None).

End Yaml.

(** ** A reference implementation of the library interface

    The closed examples below run the model with this implementation.  It
    agrees with Go on the inputs the examples use: ASCII text for
    [strings.ToLower]; decimals [-ddd.ddd] of at most fifteen digits for
    [strconv.ParseFloat] (one correctly rounded division of two exact
    operands); the form [YYYY-MM-DDTHH:MM:SSZ] for [time.Parse]; [nil],
    booleans, integers and plain ASCII strings for [json.Marshal]. *)
Module Sample.

Definition lower_byte (c : ascii) : ascii :=
  let n := nat_of_ascii c in
  if (65 <=? n) && (n <=? 90) then ascii_of_nat (n + 32) else c.

Fixpoint ToLower (s : string) : string :=
  match s with
  | EmptyString => EmptyString
  | String c s' => String (lower_byte c) (ToLower s')
  end.

Fixpoint before_dot (s : string) : string :=
  match s with
  | EmptyString => EmptyString
  | String c s' => if Ascii.eqb c "." then EmptyString else String c (before_dot s')
  end.

Fixpoint after_dot (s : string) : option string :=
  match s with
  | EmptyString => None
  | String c s' => if Ascii.eqb c "." then Some s' else after_dot s'
  end.

Definition ParseFloat (s : string) : option float64 :=
  let neg := match s with String c _ => Ascii.eqb c "-" | _ => false end in
  let body := match s with String c s' => if Ascii.eqb c "-" then s' else s | _ => s end in
  let int_part := before_dot body in
  let frac_part := default EmptyString (after_dot body) in
  if bool_decide (int_part = EmptyString)
     || bool_decide (after_dot body = Some EmptyString)
     || (15 <? String.length int_part + String.length frac_part)
  then None
  else
    match parse_digits (int_part +:+ frac_part) 0%Z with
    | Some (Zpos m) =>
        Some (SFdiv 53 1024 (S754_finite neg m 0)
                (S754_finite false (Z.to_pos (10 ^ Z.of_nat (String.length frac_part))) 0))
    | Some _ => Some (S754_zero neg)
    | None => None
    end.

(** Days from 1970-01-01 to the civil date [y-m-d]. *)
Definition days_from_civil (y m d : Z) : Z :=
  let y' := (if m <=? 2 then y - 1 else y)%Z in
  let era := (y' / 400)%Z in
  let yoe := (y' - era * 400)%Z in
  let doy := ((153 * (if 2 <? m then m - 3 else m + 9) + 2) / 5 + d - 1)%Z in
  let doe := (yoe * 365 + yoe / 4 - yoe / 100 + doy)%Z in
  (era * 146097 + doe - 719468)%Z.

Definition days_in_month (y m : Z) : Z :=
  if (m =? 2)%Z then
    if ((y mod 4 =? 0) && (negb (y mod 100 =? 0) || (y mod 400 =? 0)))%Z then 29%Z
    else 28%Z
  else if ((m =? 4) || (m =? 6) || (m =? 9) || (m =? 11))%Z then 30%Z
  else 31%Z.

Definition field (s : string) (start len : nat) : option Z :=
  parse_digits (String.substring start len s) 0%Z.

Definition ParseRFC3339 (s : string) : option Time :=
  if negb (String.length s =? 20) then None
  else if negb (bool_decide
                  (String.substring 4 1 s +:+ String.substring 7 1 s
                   +:+ String.substring 10 1 s +:+ String.substring 13 1 s
                   +:+ String.substring 16 1 s +:+ String.substring 19 1 s
                   = "--T::Z"))
  then None
  else
    y ← field s 0 4; m ← field s 5 2; d ← field s 8 2;
    hh ← field s 11 2; mm ← field s 14 2; ss ← field s 17 2;
    if ((1 <=? m) && (m <=? 12) && (1 <=? d) && (d <=? days_in_month y m)
        && (hh <=? 23) && (mm <=? 59) && (ss <=? 59))%Z
    then Some {| unix_sec := (days_from_civil y m d * 86400 + hh * 3600 + mm * 60 + ss)%Z;
                 unix_nsec := 0; zone_offset := 0 |}
    else None.

(** The double quote, and a text between double quotes. *)
Definition dquote : ascii := "034"%char.

Definition quoted (s : string) : string :=
  String dquote s +:+ String dquote EmptyString.

Definition plain_byte (c : ascii) : bool :=
  let n := nat_of_ascii c in
  (32 <=? n) && (n <? 127)
  && negb (Ascii.eqb c dquote || Ascii.eqb c "\" || Ascii.eqb c "<"
           || Ascii.eqb c ">" || Ascii.eqb c "&").

Definition Marshal_scalar (v : value) : option string :=
  match v with
  | VNil => Some "null"
  | PtrDeleted => Some "1"
  | VBool b => Some (if b then "true" else "false")
  | VInt n | VInt64 n | VUint64 n => Some (pretty n)
  | VString s =>
      if forallb plain_byte (list_ascii_of_string s)
      then Some (quoted s)
      else None
  | _ => None
  end.

(** [json.Marshal] rejects the bytes of a [MarshalJSON] that are not a
    document; the reference looks at the first byte only. *)
Definition Marshaler_bytes (b : string) : option string :=
  match b with
  | String c _ => if Ascii.eqb c "{" then Some b else None
  | EmptyString => None
  end.

#[export] Instance lib : GoLib := {|
  strings_ToLower := ToLower;
  strconv_ParseFloat := ParseFloat;
  time_Parse_RFC3339 := ParseRFC3339;
  json_Marshal_scalar := Marshal_scalar;
  json_Marshaler_bytes := Marshaler_bytes
|}.

End Sample.


(** The conversion of a [float64] to [int64] on amd64: the value
    truncated toward zero, and the least [int64] where that does not
    fit or the datum is no number. *)
Module Amd64.

Definition truncate (f : float64) : option Z :=
  match f with
  | S754_zero _ => Some 0%Z
  | S754_finite s m e =>
      let a := (if 0 <=? e then Z.pos m * 2 ^ e else Z.pos m / 2 ^ (- e))%Z in
      Some (if s then - a else a)%Z
  | _ => None
  end.

Definition int64_of_float (f : float64) : Z :=
  match truncate f with
  | Some z =>
      if ((-9223372036854775808 <=? z) && (z <=? 9223372036854775807))%Z then z
      else (-9223372036854775808)%Z
  | None => (-9223372036854775808)%Z
  end.

#[export] Instance rt : GoRuntime := {| int64_of_float64 := int64_of_float |}.

End Amd64.
(** * Properties *)

(** ** What the specification talks about *)

Section Notions.
Context {lib : GoLib}.

(** The tombstone count that [maybeCompact] tests:
    [len(self.items) - len(self.store)]. *)
Definition tombstones (d : Dict) : Z :=
  (Z.of_nat (length (items d)) - Z.of_nat (size (store d)))%Z.

(** The tombstone count [set] leaves for [maybeCompact]: the entry that
    held the key, if there is one, has become a tombstone. *)
Definition tombstones_after_set (d : Dict) (key : string) : Z :=
  (tombstones d + match store d !! getKey d key with Some _ => 1 | None => 0 end)%Z.

(** The number of entries that count as deleted: those [Keys], [Items]
    and [Values] pass over. *)
Definition deleted_entries (d : Dict) : nat :=
  length (filter (λ it, IsDeleted it = true) (items d)).

(** Every index mapping points at a live entry whose key normalises to
    the key of the mapping. *)
Definition index_sound (d : Dict) : Prop :=
  ∀ nk i, store d !! nk = Some i →
    ∃ it, items d !! i = Some it ∧ getKey d (Key it) = nk ∧ IsDeleted it = false.

(** The invariant of the data model: sound index mappings, and as many
    live entries as index mappings. *)
Definition index_invariant (d : Dict) : Prop :=
  index_sound d ∧ length (Items d) = size (store d).

(** Every index mapping points at an entry, live or not, whose key
    normalises to the key of the mapping. *)
Definition index_fair (d : Dict) : Prop :=
  ∀ nk i, store d !! nk = Some i →
    ∃ it, items d !! i = Some it ∧ getKey d (Key it) = nk.

(** Every live entry is the one its normalised key is mapped to. *)
Definition index_complete (d : Dict) : Prop :=
  ∀ i it, items d !! i = Some it → IsDeleted it = false →
    store d !! getKey d (Key it) = Some i.

(** What every store satisfies, whatever was stored and deleted: no
    mapping is out of range or under a wrong key, and no live entry is
    unmapped or mapped elsewhere.  The invariant of the data model asks in
    addition that the mapped entries be live. *)
Definition well_formed (d : Dict) : Prop := index_fair d ∧ index_complete d.

(** Lowering a lowered string changes nothing. *)
Definition lower_idempotent : Prop :=
  ∀ s, strings_ToLower (strings_ToLower s) = strings_ToLower s.

(** The normalised keys of the live entries, in order. *)
Definition live_keys (d : Dict) : list string :=
  (λ it, getKey d (Key it)) <$> Items d.

(** An entry once it is deleted. *)
Definition tombstone (it : Item) : Item := {| Key := Key it; Value := PtrDeleted |}.

(** The dictionary [set] hands to [maybeCompact]: [its] is the sequence
    after the earlier entry of the key, if any, was tombstoned. *)
Definition appended (d : Dict) (its : list Item) (key : string) (v : value) : Dict :=
  with_items (with_store d (<[getKey d key := length its]> (store d)))
             (its ++ [{| Key := key; Value := v |}]).

(** The live entries of the keys that do not normalise to [nk]. *)
Definition others (d : Dict) (nk : string) : list Item :=
  filter (λ it, getKey d (Key it) ≠ nk) (Items d).

(** [Delete] for each key in turn. *)
Definition Delete_all (d : Dict) (keys : list string) : option Dict :=
  foldl (λ acc key, d ← acc; Delete d key) (Some d) keys.

(** [Set(key, 1); Delete(key)] for each key in turn. *)
Definition Set_Delete_all (d : Dict) (keys : list string) : option Dict :=
  foldl (λ acc key, d ← acc; d1 ← Set_ d key (VInt 1); Delete d1 key) (Some d) keys.

(** Every dictionary of the heap satisfies [I]. *)
Definition heap_invariant (I : Dict → Prop) (h : heap) : Prop := Forall I h.

(** A run from [st] to [st'] keeps [I], allocates only, and only consumes
    tokens. *)
Definition grows (I : Dict → Prop) (st st' : dstate) : Prop :=
  heap_invariant I st'.1 ∧ length st.1 ≤ length st'.1 ∧ length st'.2 ≤ length st.2.

(** [m] returns from [st], and [Q] holds of what it returns. *)
Definition safe {A} (m : M A) (st : dstate) (Q : dstate → error + A → Prop) : Prop :=
  ∃ st' r, m st = Returns (st', r) ∧ Q st' r.

(** What [handledelim] returns for a token that opens nothing. *)
Definition scalar_value (t : Token) : option value :=
  match t with
  | TString s => Some (handle_string s)
  | TNumber s =>
      match handle_number t s with
      | inr v => Some v
      | inl _ => None
      end
  | TBool b => Some (VBool b)
  | TNull => Some VNil
  | TDelim _ => None
  end.

(** The tokens of the member [key: t]. *)
Definition member_tokens (m : string * Token) : Decoder :=
  [inl (TString m.1); inl m.2].

(** The item a member decodes to. *)
Definition decodes_to (m : string * Token) (it : Item) : Prop :=
  Key it = m.1 ∧ scalar_value m.2 = Some (Value it).

(** A value that holds no dictionary and no slice. *)
Definition scalar (v : value) : bool :=
  match v with
  | VDict _ | VSlice _ => false
  | _ => true
  end.

End Notions.

(** ** The stores of the examples *)

(** An empty case-insensitive store, as [SetCaseInsensitive] builds it. *)
Definition folding_store : Dict :=
  {| items := []; store := ∅; case_insensitive := true; default_value := VNil |}.

(** Ten keys, the items that set them, and the store in which they were
    all set and deleted again. *)
Definition ten_keys : list string := ["a"; "b"; "c"; "d"; "e"; "f"; "g"; "h"; "i"; "j"].

Definition ten_items : list Item := (λ key, {| Key := key; Value := VInt 0 |}) <$> ten_keys.

Definition ten_tombstones : Dict :=
  {| items := tombstone <$> ten_items;
     store := ∅; case_insensitive := false; default_value := VNil |}.

(** Twelve keys that are not in lower case. *)
Definition twelve_keys : list string :=
  ["K1"; "K2"; "K3"; "K4"; "K5"; "K6"; "K7"; "K8"; "K9"; "K10"; "K11"; "K12"].

(** A store after [Set("a", 1); Set("b", 2); Delete("a")]. *)
Definition one_live_one_tombstone : Dict :=
  {| items := [{| Key := "a"; Value := PtrDeleted |}; {| Key := "b"; Value := VInt 2 |}];
     store := {["b" := 1]}; case_insensitive := false; default_value := VNil |}.

(** A store that holds itself under the key [self], between two scalars. *)
Definition holds_itself : Dict :=
  {| items := [{| Key := "a"; Value := VInt 1 |}; {| Key := "self"; Value := VDict 0 |};
               {| Key := "b"; Value := VString "x" |}];
     store := {["a" := 0; "self" := 1; "b" := 2]};
     case_insensitive := false; default_value := VNil |}.

(** Two stores that hold each other, at the addresses 0 and 1. *)
Definition first_of_two : Dict :=
  {| items := [{| Key := "second"; Value := VDict 1 |}]; store := {["second" := 0]};
     case_insensitive := false; default_value := VNil |}.

Definition second_of_two : Dict :=
  {| items := [{| Key := "first"; Value := VDict 0 |}]; store := {["first" := 0]};
     case_insensitive := false; default_value := VNil |}.


(** ** Sequences of calls *)

(** The calls that change a store or give a new one, and a sequence of
    them run from a store; [SetCaseInsensitive] and [Copy] go on with the
    store they return. *)
Inductive call : Type :=
  | CallSet (key : string) (v : value)
  | CallUpdate (key : string) (v : value)
  | CallDelete (key : string)
  | CallMergeFrom (other : Dict)
  | CallSetDefault (v : value)
  | CallSetCaseInsensitive
  | CallCopy.

Section Calls.
Context {lib : GoLib}.

Definition run_call (d : Dict) (c : call) : option Dict :=
  match c with
  | CallSet key v => Set_ d key v
  | CallUpdate key v => Update d key v
  | CallDelete key => Delete d key
  | CallMergeFrom other => MergeFrom d other
  | CallSetDefault v => Some (SetDefault d v)
  | CallSetCaseInsensitive => SetCaseInsensitive d
  | CallCopy => Some (Copy d)
  end.

Definition run_calls (d : Dict) (cs : list call) : option Dict :=
  foldl (λ acc c, d ← acc; run_call d c) (Some d) cs.

(** The normalised keys of a list of items, for the store [d]. *)
Definition norm_keys (d : Dict) (l : list Item) : list string :=
  (λ it, getKey d (Key it)) <$> l.

(** What [MarshalJSON] writes for a pair whose key encodes as [kEscaped]
    and whose value encodes as [vBytes], or does not encode. *)
Definition encoded_pair (kEscaped : string) (vBytes : option string) : string :=
  kEscaped +:+ ":" +:+ default "null" vBytes.

(** The pairs of a list of items whose values hold no dictionary and no
    slice, separated by commas. *)
Fixpoint joined_pairs (l : list Item) : string :=
  match l with
  | [] => EmptyString
  | it :: rest =>
      encoded_pair (default EmptyString (json_Marshal_scalar (VString (Key it))))
                   (json_Marshal_scalar (Value it))
      +:+ match rest with
          | [] => EmptyString
          | _ => "," +:+ joined_pairs rest
          end
  end.

End Calls.

(** The entries of a map slice whose key is a string, as items. *)
Definition string_items (m : yaml.MapSlice) : list Item :=
  omap (λ item, match yaml.Key item with
                | VString key => Some {| Key := key; Value := yaml.Value item |}
                | _ => None
                end) m.

(** The strings among the elements of a slice, in order. *)
Definition strings_among (l : list value) : list string :=
  omap (λ v, match v with VString s => Some s | _ => None end) l.

(** A store after [Set("b", 5); Set("c", 6)]. *)
Definition two_live : Dict :=
  {| items := [{| Key := "b"; Value := VInt 5 |}; {| Key := "c"; Value := VInt 6 |}];
     store := {["b" := 0; "c" := 1]}; case_insensitive := false; default_value := VNil |}.
(** ** Lists of items *)

Section ItemLists.
Implicit Types (l : list Item) (it : Item).

Lemma Item_eta it : {| Key := Key it; Value := Value it |} = it.
Proof. by destruct it. Qed.

Lemma IsDeleted_tombstone it : IsDeleted (tombstone it) = true.
Proof. done. Qed.

Lemma IsDeleted_false_iff it : IsDeleted it = false ↔ Value it ≠ PtrDeleted.
Proof. unfold IsDeleted. destruct (Value it); naive_solver. Qed.

Lemma set_item_value_Some idx v l it :
  l !! idx = Some it →
  set_item_value idx v l = Some (<[idx := {| Key := Key it; Value := v |}]> l).
Proof. intros H. unfold set_item_value. by rewrite H. Qed.

Lemma set_item_value_length idx v l l' :
  set_item_value idx v l = Some l' → length l' = length l.
Proof.
  unfold set_item_value. destruct (l !! idx); [|done].
  intros [= <-]. apply length_insert.
Qed.

Lemma filter_all {A} (Q : A → Prop) `{!∀ x, Decision (Q x)} (k : list A) :
  (∀ x, x ∈ k → Q x) → filter Q k = k.
Proof.
  induction k as [|x k IH]; intros HQ; [done|].
  rewrite filter_cons_True; [|apply HQ; left].
  f_equal. apply IH. intros y Hy. apply HQ. by right.
Qed.

Lemma filter_live_idemp l :
  filter (λ it, IsDeleted it = false) (filter (λ it, IsDeleted it = false) l)
  = filter (λ it, IsDeleted it = false) l.
Proof. apply filter_all. by intros x [? _]%list_elem_of_filter. Qed.

(** Tombstoning the entry at [idx] removes just that entry from the live
    view when no other live position satisfies [P]. *)
Lemma filter_live_tombstone (P : Item → Prop) `{!∀ it, Decision (P it)} l idx it0 :
  l !! idx = Some it0 → P it0 →
  (∀ j it, l !! j = Some it → IsDeleted it = false → P it → j = idx) →
  filter (λ it, IsDeleted it = false) (<[idx := tombstone it0]> l)
  = filter (λ it, ¬ P it) (filter (λ it, IsDeleted it = false) l).
Proof.
  revert idx. induction l as [|x l IH]; intros idx Hidx HP Huniq; [done|].
  destruct idx as [|idx]; simpl in *.
  - injection Hidx as ->.
    rewrite filter_cons_False; [|by rewrite IsDeleted_tombstone].
    assert (Hrest : filter (λ it, ¬ P it) (filter (λ it, IsDeleted it = false) l)
                    = filter (λ it, IsDeleted it = false) l).
    { apply filter_all. intros y [Hy [j Hj]%list_elem_of_lookup]%list_elem_of_filter HPy.
      by specialize (Huniq (S j) y Hj Hy HPy). }
    rewrite (filter_cons (λ it, IsDeleted it = false)).
    destruct (decide (IsDeleted it0 = false)).
    + rewrite filter_cons_False; [by rewrite Hrest|]. by intros HnP.
    + by rewrite Hrest.
  - rewrite !(filter_cons (λ it, IsDeleted it = false)).
    destruct (decide (IsDeleted x = false)) as [Hx|Hx].
    + rewrite filter_cons_True.
      * f_equal. apply IH; [done..|].
        intros j it Hj Hl HPj. by specialize (Huniq (S j) it Hj Hl HPj) as [= ->].
      * intros HPx. by specialize (Huniq 0 x eq_refl Hx HPx).
    + apply IH; [done..|].
      intros j it Hj Hl HPj. by specialize (Huniq (S j) it Hj Hl HPj) as [= ->].
Qed.

(** Tombstoning a live entry takes one entry from the live view. *)
Lemma length_live_tombstone l idx it0 :
  l !! idx = Some it0 → IsDeleted it0 = false →
  length (filter (λ it, IsDeleted it = false) (<[idx := tombstone it0]> l)) + 1
  = length (filter (λ it, IsDeleted it = false) l).
Proof.
  revert idx. induction l as [|x l IH]; intros idx Hidx Hlive; [done|].
  destruct idx as [|idx]; simpl in *.
  - injection Hidx as ->.
    rewrite (filter_cons_False _ (tombstone it0)) by done.
    rewrite (filter_cons_True _ it0) by done. simpl. lia.
  - rewrite !(filter_cons _ x). case_decide; simpl; rewrite <- (IH idx) by done; lia.
Qed.

(** Overwriting the value of a live entry with a value other than
    [&Deleted] keeps the keys of the live view. *)
Lemma keys_live_overwrite l idx it0 v :
  l !! idx = Some it0 → IsDeleted it0 = false → v ≠ PtrDeleted →
  Key <$> filter (λ it, IsDeleted it = false) (<[idx := {| Key := Key it0; Value := v |}]> l)
  = Key <$> filter (λ it, IsDeleted it = false) l.
Proof.
  intros Hidx Hlive Hv.
  assert (Hnew : IsDeleted {| Key := Key it0; Value := v |} = false)
    by by apply IsDeleted_false_iff.
  revert idx Hidx. induction l as [|x l IH]; intros idx Hidx; [done|].
  destruct idx as [|idx]; simpl in *.
  - injection Hidx as ->. by rewrite !filter_cons_True.
  - rewrite !(filter_cons _ x).
    destruct (decide (IsDeleted x = false)); simpl; rewrite IH; done.
Qed.

End ItemLists.

(** ** Compaction *)

Section Compaction.
Context {lib : GoLib}.
Implicit Types (d : Dict) (l : list Item) (it : Item).

Lemma compact_step_deleted d acc x :
  IsDeleted x = true → compact_step d acc x = acc.
Proof. unfold compact_step. by intros ->. Qed.

Lemma compact_step_live d acc x :
  IsDeleted x = false →
  compact_step d acc x = (<[getKey d (Key x) := length acc.2]> acc.1, acc.2 ++ [x]).
Proof. unfold compact_step. intros ->. by rewrite Item_eta. Qed.

Lemma compact_fold_items d acc l :
  (foldl (compact_step d) acc l).2 = acc.2 ++ filter (λ it, IsDeleted it = false) l.
Proof.
  revert acc. induction l as [|x l IH]; intros acc; simpl.
  - by rewrite app_nil_r.
  - rewrite IH. destruct (IsDeleted x) eqn:Hx.
    + rewrite compact_step_deleted by done.
      by rewrite filter_cons_False by congruence.
    + rewrite compact_step_live by done.
      rewrite filter_cons_True by done. simpl. by rewrite <- app_assoc.
Qed.

Lemma compact_fold_Items d :
  (foldl (compact_step d) (∅, []) (items d)).2 = Items d.
Proof. by rewrite compact_fold_items. Qed.

(** The rebuilt index is sound, whatever the list. *)
Lemma compact_fold_sound d l nk j :
  (foldl (compact_step d) (∅, []) l).1 !! nk = Some j →
  ∃ it, (foldl (compact_step d) (∅, []) l).2 !! j = Some it ∧ getKey d (Key it) = nk.
Proof.
  revert nk j. induction l as [|x l IH] using rev_ind; intros nk j; [done|].
  rewrite foldl_snoc.
  destruct (IsDeleted x) eqn:Hx.
  { rewrite compact_step_deleted by done. apply IH. }
  rewrite compact_step_live by done. simpl.
  rewrite lookup_insert. case_decide as Hnk.
  - intros [= <-]. exists x. split; [|done].
    by rewrite list_lookup_middle.
  - intros [it [Hit Hk]]%IH. exists it. split; [|done].
    rewrite lookup_app_l; [done|]. by eapply lookup_lt_Some.
Qed.

(** It is complete, and as large as the rebuilt sequence, when the live
    entries have distinct normalised keys. *)
Lemma compact_fold_complete d l :
  NoDup ((λ it, getKey d (Key it)) <$> filter (λ it, IsDeleted it = false) l) →
  (∀ j it, (foldl (compact_step d) (∅, []) l).2 !! j = Some it →
           (foldl (compact_step d) (∅, []) l).1 !! getKey d (Key it) = Some j)
  ∧ size (foldl (compact_step d) (∅, []) l).1
    = length (foldl (compact_step d) (∅, []) l).2.
Proof.
  induction l as [|x l IH] using rev_ind; [done|].
  rewrite filter_app, fmap_app. intros [Hnd [Hfresh _]]%NoDup_app.
  destruct (IH Hnd) as [Hc Hsize]. clear IH.
  rewrite foldl_snoc.
  destruct (IsDeleted x) eqn:Hx.
  { by rewrite compact_step_deleted by done. }
  rewrite compact_step_live by done. simpl.
  rewrite filter_cons_True in Hfresh by done.
  assert (Hnone : (foldl (compact_step d) (∅, []) l).1 !! getKey d (Key x) = None).
  { destruct (_ !! getKey d (Key x)) as [j|] eqn:Hj; [|done].
    apply compact_fold_sound in Hj as [it [Hit Hk]].
    rewrite compact_fold_items in Hit. simpl in Hit.
    apply list_elem_of_lookup_2 in Hit.
    exfalso. apply (Hfresh (getKey d (Key x))); [|left].
    rewrite <- Hk. by apply (list_elem_of_fmap_2 (λ it, getKey d (Key it))). }
  split.
  - intros j it Hj. apply lookup_snoc_Some in Hj as [[Hlt Hit]|[-> <-]].
    + rewrite lookup_insert_ne; [by apply Hc|].
      intros Heq. specialize (Hc _ _ Hit). rewrite <- Heq in Hc. congruence.
    + by rewrite lookup_insert_eq.
  - rewrite length_app, map_size_insert_None by done. simpl. lia.
Qed.

Lemma maybeCompact_below d :
  (tombstones d < 10)%Z → maybeCompact d = d.
Proof.
  unfold maybeCompact, tombstones. intros H.
  by rewrite (proj2 (Z.ltb_lt _ _) H).
Qed.

Lemma maybeCompact_above d :
  (10 ≤ tombstones d)%Z →
  maybeCompact d =
    with_items (with_store d (foldl (compact_step d) (∅, []) (items d)).1)
               (Items d).
Proof.
  unfold maybeCompact, tombstones. intros H.
  rewrite (proj2 (Z.ltb_ge _ _) H). simpl.
  by rewrite compact_fold_items.
Qed.

(** Compaction is invisible to [Items], [Keys], [Values]. *)
Lemma Items_maybeCompact d : Items (maybeCompact d) = Items d.
Proof.
  destruct (Z.lt_ge_cases (tombstones d) 10) as [H|H].
  - by rewrite maybeCompact_below.
  - rewrite maybeCompact_above by done. apply filter_live_idemp.
Qed.

Lemma maybeCompact_flags d :
  case_insensitive (maybeCompact d) = case_insensitive d
  ∧ default_value (maybeCompact d) = default_value d.
Proof. unfold maybeCompact. by case_match. Qed.

End Compaction.

(** ** Counting the live entries *)

Section Counting.
Implicit Types (l : list Item) (it : Item).

Lemma size_list_to_set_le (k : list string) :
  size (list_to_set k : gset string) ≤ length k.
Proof.
  induction k as [|x k IH]; [done|].
  rewrite list_to_set_cons, size_union_alt, size_singleton. simpl.
  assert (Hsub : list_to_set k ∖ {[x]} ⊆ (list_to_set k : gset string)).
  { intros y Hy. by apply elem_of_difference in Hy as [Hy _]. }
  apply subseteq_size in Hsub. lia.
Qed.

Lemma size_list_to_set_NoDup (k : list string) :
  size (list_to_set k : gset string) = length k → NoDup k.
Proof.
  induction k as [|x k IH]; intros Hsize; [constructor|].
  rewrite list_to_set_cons in Hsize. simpl in Hsize.
  pose proof (size_list_to_set_le k) as Hle.
  destruct (decide (x ∈ k)) as [Hin|Hnin].
  - assert (Heq : {[x]} ∪ list_to_set k = (list_to_set k : gset string)).
    { apply subseteq_union_1_L. intros y Hy. apply elem_of_singleton in Hy as ->.
      by apply elem_of_list_to_set. }
    rewrite Heq in Hsize. lia.
  - constructor; [done|]. apply IH.
    rewrite size_union, size_singleton in Hsize; [lia|].
    intros y Hy Hy'. apply elem_of_singleton in Hy as ->.
    by apply elem_of_list_to_set in Hy'.
Qed.

(** Positions of a list whose live entries have distinct [f]-images. *)
Lemma NoDup_live_positions (f : Item → string) l i j x y :
  NoDup (f <$> filter (λ it, IsDeleted it = false) l) →
  l !! i = Some x → l !! j = Some y →
  IsDeleted x = false → IsDeleted y = false → f x = f y → i = j.
Proof.
  revert i j. induction l as [|a l IH]; intros i j Hnd Hi Hj Hx Hy Hf; [done|].
  assert (Htail : NoDup (f <$> filter (λ it, IsDeleted it = false) l)).
  { rewrite filter_cons in Hnd. case_decide; [|done].
    by apply NoDup_cons in Hnd as [_ ?]. }
  assert (Hhead : ∀ n z, l !! n = Some z → IsDeleted a = false →
                         IsDeleted z = false → f a ≠ f z).
  { intros n z Hn Ha Hz Heq. rewrite filter_cons_True in Hnd by done.
    apply NoDup_cons in Hnd as [Hnin _]. apply Hnin. rewrite Heq.
    apply list_elem_of_fmap_2, list_elem_of_filter. split; [done|].
    by eapply list_elem_of_lookup_2. }
  destruct i as [|i], j as [|j]; simpl in *; simplify_eq; [done|..].
  - by destruct (Hhead j y Hj Hx Hy).
  - by destruct (Hhead i x Hi Hy Hx).
  - f_equal. by apply IH.
Qed.

(** An index that finds every live entry at its own position separates
    the live entries. *)
Lemma NoDup_live_keys (f : Item → string) (m : gmap string nat) l off :
  (∀ i it, l !! i = Some it → IsDeleted it = false → m !! f it = Some (off + i)) →
  NoDup (f <$> filter (λ it, IsDeleted it = false) l).
Proof.
  revert off. induction l as [|a l IH]; intros off Hm; [constructor|].
  assert (Htail : NoDup (f <$> filter (λ it, IsDeleted it = false) l)).
  { apply (IH (S off)). intros i it Hi Hlive.
    replace (S off + i) with (off + S i) by lia. by apply Hm. }
  rewrite filter_cons. case_decide as Ha; [|done].
  rewrite fmap_cons. constructor; [|done].
  intros (y & Hfy & [Hy [j Hj]%list_elem_of_lookup]%list_elem_of_filter)%list_elem_of_fmap.
  pose proof (Hm 0 a eq_refl Ha) as H0.
  pose proof (Hm (S j) y Hj Hy) as H1.
  rewrite Hfy in H0. rewrite H0 in H1. injection H1. lia.
Qed.

End Counting.
(** ** The index *)

Section Invariant.
Context {lib : GoLib}.
Implicit Types (d : Dict) (l : list Item) (it : Item).

Lemma getKey_same_flag d d' key :
  case_insensitive d' = case_insensitive d → getKey d' key = getKey d key.
Proof. unfold getKey. by intros ->. Qed.

Lemma getKey_idemp d key :
  lower_idempotent → getKey d (getKey d key) = getKey d key.
Proof. intros Hlow. unfold getKey. destruct (case_insensitive d); [apply Hlow|done]. Qed.

Lemma index_sound_fair d : index_sound d → index_fair d.
Proof. intros Hs nk i (it & ? & ? & _)%Hs. by exists it. Qed.

Lemma index_complete_NoDup d : index_complete d → NoDup (live_keys d).
Proof.
  intros Hc. apply (NoDup_live_keys _ (store d) _ 0). intros i it Hi Hl.
  by apply Hc.
Qed.

Lemma index_sound_dom d nk :
  index_sound d → is_Some (store d !! nk) → nk ∈ live_keys d.
Proof.
  intros Hs [i (it & Hit & <- & Hl)%Hs].
  apply (list_elem_of_fmap_2 (λ it, getKey d (Key it))), list_elem_of_filter.
  split; [done|]. by eapply list_elem_of_lookup_2.
Qed.

(** With sound mappings, counting and completeness say the same. *)
Lemma index_complete_size d :
  index_sound d → index_complete d → length (Items d) = size (store d).
Proof.
  intros Hs Hc.
  rewrite <- (size_dom (D := gset string)).
  replace (dom (store d)) with (list_to_set (live_keys d) : gset string).
  - rewrite size_list_to_set by by apply index_complete_NoDup.
    unfold live_keys. by rewrite length_fmap.
  - apply set_eq. intros nk. rewrite elem_of_list_to_set, elem_of_dom. split.
    + intros (it & -> & [Hl [i Hi]%list_elem_of_lookup]%list_elem_of_filter)%list_elem_of_fmap.
      exists i. by apply Hc.
    + by apply index_sound_dom.
Qed.

Lemma index_size_complete d :
  index_sound d → length (Items d) = size (store d) → index_complete d.
Proof.
  intros Hs Hsize.
  assert (Hsub : dom (store d) ⊆ (list_to_set (live_keys d) : gset string)).
  { intros nk Hnk%elem_of_dom. apply elem_of_list_to_set. by apply index_sound_dom. }
  pose proof (size_list_to_set_le (live_keys d)) as Hle.
  assert (Hlen : length (live_keys d) = size (dom (store d) : gset string)).
  { unfold live_keys. by rewrite length_fmap, size_dom. }
  assert (Heq : dom (store d) = (list_to_set (live_keys d) : gset string)).
  { apply set_subseteq_size_eq; [done|]. lia. }
  assert (Hnd : NoDup (live_keys d)).
  { apply size_list_to_set_NoDup. rewrite <- Heq. lia. }
  intros i it Hi Hl.
  assert (Hin : getKey d (Key it) ∈ dom (store d)).
  { rewrite Heq, elem_of_list_to_set.
    apply (list_elem_of_fmap_2 (λ it, getKey d (Key it))), list_elem_of_filter.
    split; [done|]. by eapply list_elem_of_lookup_2. }
  apply elem_of_dom in Hin as [i' Hi'].
  destruct (Hs _ _ Hi') as (it' & Hit' & Hk & Hl').
  rewrite Hi'. f_equal.
  by eapply (NoDup_live_positions (λ it, getKey d (Key it)) (items d)).
Qed.

Lemma index_invariant_complete d : index_invariant d → index_complete d.
Proof. intros [? ?]. by apply index_size_complete. Qed.

Lemma index_invariant_intro d :
  index_sound d → index_complete d → index_invariant d.
Proof. intros ? ?. split; [done|]. by apply index_complete_size. Qed.

(** The invariant of the data model is well-formedness and the liveness
    of the mapped entries. *)
Lemma index_invariant_well_formed d : index_invariant d → well_formed d.
Proof.
  intros Hinv. split; [apply index_sound_fair, Hinv|by apply index_invariant_complete].
Qed.

Lemma index_invariant_NewDict : index_invariant NewDict.
Proof. split; [intros nk i Hi; by simpl in Hi|done]. Qed.

Lemma index_invariant_folding_store : index_invariant folding_store.
Proof. split; [intros nk i Hi; by simpl in Hi|done]. Qed.

End Invariant.

(** ** The operations and the index *)

Section Operations.
Context {lib : GoLib}.
Implicit Types (d : Dict) (l : list Item) (it : Item).

(** *** [maybeCompact] *)

(** Where it compacts, the index it builds is sound. *)
Lemma maybeCompact_sound_above d :
  (10 ≤ tombstones d)%Z → index_sound (maybeCompact d).
Proof.
  intros H. rewrite maybeCompact_above by done. intros nk j Hj. simpl in *.
  apply compact_fold_sound in Hj as (it & Hit & Hk).
  rewrite compact_fold_Items in Hit.
  exists it. split_and!; [done..|].
  apply list_elem_of_lookup_2, list_elem_of_filter in Hit. tauto.
Qed.

Lemma maybeCompact_sound d : index_sound d → index_sound (maybeCompact d).
Proof.
  intros Hs. destruct (Z.lt_ge_cases (tombstones d) 10) as [H|H].
  - by rewrite maybeCompact_below.
  - by apply maybeCompact_sound_above.
Qed.

Lemma maybeCompact_fair d : index_fair d → index_fair (maybeCompact d).
Proof.
  intros Hf. destruct (Z.lt_ge_cases (tombstones d) 10) as [H|H].
  - by rewrite maybeCompact_below.
  - by apply index_sound_fair, maybeCompact_sound_above.
Qed.

Lemma maybeCompact_complete d : index_complete d → index_complete (maybeCompact d).
Proof.
  intros Hc. destruct (Z.lt_ge_cases (tombstones d) 10) as [H|H].
  { by rewrite maybeCompact_below. }
  rewrite maybeCompact_above by done. intros j it Hj _. simpl in *.
  destruct (compact_fold_complete d (items d)) as [Hcomplete _].
  { by apply index_complete_NoDup. }
  apply Hcomplete. by rewrite compact_fold_Items.
Qed.

(** Where it compacts, no tombstone is left, and the invariant of the data
    model holds again. *)
Lemma tombstones_compacted d :
  index_complete d → (10 ≤ tombstones d)%Z → tombstones (maybeCompact d) = 0%Z.
Proof.
  intros Hc H. rewrite maybeCompact_above by done.
  destruct (compact_fold_complete d (items d)) as [_ Hsize].
  { by apply index_complete_NoDup. }
  unfold tombstones. simpl. rewrite Hsize, compact_fold_Items. lia.
Qed.

Lemma maybeCompact_restores d :
  index_complete d → (10 ≤ tombstones d)%Z → index_invariant (maybeCompact d).
Proof.
  intros Hc H. apply index_invariant_intro.
  - by apply maybeCompact_sound_above.
  - by apply maybeCompact_complete.
Qed.

Lemma tombstones_maybeCompact d :
  index_complete d → (tombstones (maybeCompact d) ≤ 9)%Z.
Proof.
  intros Hc. destruct (Z.lt_ge_cases (tombstones d) 10) as [H|H].
  - rewrite maybeCompact_below by done. lia.
  - rewrite tombstones_compacted by done. lia.
Qed.

(** *** Appending an entry: the common part of [set] and [Update] *)

Lemma set_present d key v idx it :
  store d !! getKey d key = Some idx → items d !! idx = Some it →
  set d key v = Some (maybeCompact (appended d (<[idx := tombstone it]> (items d)) key v)).
Proof.
  intros Hidx Hit. unfold set. rewrite Hidx.
  by rewrite (set_item_value_Some _ _ _ it).
Qed.

Lemma set_absent d key v :
  store d !! getKey d key = None →
  set d key v = Some (maybeCompact (appended d (items d) key v)).
Proof. intros Hidx. unfold set. by rewrite Hidx. Qed.

Lemma live_after_tombstone d nk idx it :
  well_formed d →
  store d !! nk = Some idx → items d !! idx = Some it →
  filter (λ it, IsDeleted it = false) (<[idx := tombstone it]> (items d)) = others d nk.
Proof.
  intros [Hf Hc] Hidx Hit.
  destruct (Hf _ _ Hidx) as (it' & Hit' & Hk).
  rewrite Hit in Hit'. injection Hit' as <-.
  unfold others, Items.
  rewrite <- (filter_live_tombstone (λ x, getKey d (Key x) = nk)
               (items d) idx it); [done..|].
  intros j x Hj Hlive Heq. pose proof (Hc _ _ Hj Hlive). congruence.
Qed.

Lemma others_absent d nk :
  index_complete d → store d !! nk = None → others d nk = Items d.
Proof.
  intros Hc Hnone. apply filter_all.
  intros it [Hl [i Hi]%list_elem_of_lookup]%list_elem_of_filter Heq.
  pose proof (Hc _ _ Hi Hl). congruence.
Qed.

Lemma others_idemp d nk :
  filter (λ it, getKey d (Key it) ≠ nk) (others d nk) = others d nk.
Proof. apply filter_all. by intros x [? _]%list_elem_of_filter. Qed.

(** The mapping of a key and its live entry go together. *)
Lemma others_length d nk :
  index_invariant d →
  length (others d nk) + match store d !! nk with Some _ => 1 | None => 0 end
  = size (store d).
Proof.
  intros Hinv. pose proof (index_invariant_well_formed d Hinv) as Hwf.
  destruct Hinv as [Hs Hsize]. rewrite <- Hsize.
  destruct (store d !! nk) as [idx|] eqn:Hidx.
  - destruct (Hs _ _ Hidx) as (it0 & Hit0 & _ & Hl0).
    rewrite <- (live_after_tombstone d nk idx it0) by done.
    by apply length_live_tombstone.
  - rewrite others_absent by (done || apply Hwf). unfold Items. lia.
Qed.

Lemma Items_appended d its key v :
  v ≠ PtrDeleted →
  Items (appended d its key v)
  = filter (λ it, IsDeleted it = false) its ++ [{| Key := key; Value := v |}].
Proof.
  intros Hv. unfold Items, appended. simpl. rewrite filter_app. f_equal.
  rewrite filter_cons_True; [done|]. by apply IsDeleted_false_iff.
Qed.

Lemma Items_appended_deleted d its key :
  Items (appended d its key PtrDeleted) = filter (λ it, IsDeleted it = false) its.
Proof.
  unfold Items, appended. simpl. rewrite filter_app.
  rewrite (filter_cons_False _ {| Key := key; Value := PtrDeleted |}) by done.
  by rewrite app_nil_r.
Qed.

Lemma tombstones_appended d its key v :
  length its = length (items d) →
  tombstones (appended d its key v) = tombstones_after_set d key.
Proof.
  intros Hlen. unfold tombstones_after_set, tombstones, appended. simpl.
  rewrite length_app, map_size_insert, Hlen. simpl.
  destruct (store d !! getKey d key); simpl; lia.
Qed.

(** Tombstoning at the mapped position, then appending and mapping the
    key to the new position, keeps the index fair, complete and, for a
    value other than [&Deleted], sound. *)
Lemma appended_fair d its key v :
  index_fair d →
  (∀ i it, items d !! i = Some it → ∃ it', its !! i = Some it' ∧ Key it' = Key it) →
  index_fair (appended d its key v).
Proof.
  intros Hf Hkeys nk i. unfold appended. simpl.
  rewrite lookup_insert. case_decide as Hnk.
  - intros [= <-]. eexists. rewrite list_lookup_middle by done. by split.
  - intros (it & Hit & Hk)%Hf. destruct (Hkeys _ _ Hit) as (it' & Hit' & Hkey).
    exists it'. split.
    + rewrite lookup_app_l; [done|]. by eapply lookup_lt_Some.
    + change (getKey d (Key it') = nk). by rewrite Hkey.
Qed.

Lemma appended_sound d its key v :
  index_sound d → v ≠ PtrDeleted →
  (∀ i it, items d !! i = Some it → IsDeleted it = false →
           getKey d (Key it) ≠ getKey d key → its !! i = Some it) →
  index_sound (appended d its key v).
Proof.
  intros Hs Hv Hkeep nk i. unfold appended. simpl.
  rewrite lookup_insert. case_decide as Hnk.
  - intros [= <-]. eexists. rewrite list_lookup_middle by done.
    split_and!; [done|done|]. by apply IsDeleted_false_iff.
  - intros (it & Hit & Hk & Hl)%Hs. exists it. split_and!; [|done..].
    rewrite lookup_app_l.
    + apply Hkeep; [done..|]. congruence.
    + eapply lookup_lt_Some, Hkeep; [done..|]. congruence.
Qed.

Lemma appended_complete d its key v :
  index_complete d → length its = length (items d) →
  (∀ i it, its !! i = Some it → IsDeleted it = false →
           items d !! i = Some it ∧ getKey d (Key it) ≠ getKey d key) →
  index_complete (appended d its key v).
Proof.
  intros Hc Hlen Hkeep i it. unfold appended. simpl.
  intros [[Hlt Hit]|[-> <-]]%lookup_snoc_Some Hl.
  - destruct (Hkeep _ _ Hit Hl) as [Hi Hne].
    rewrite lookup_insert_ne by done. by apply Hc.
  - by rewrite lookup_insert_eq.
Qed.

(** *** [set] *)

(** What [set] does before the compaction check. *)
Lemma set_appended d key v :
  well_formed d →
  ∃ its,
    set d key v = Some (maybeCompact (appended d its key v))
    ∧ length its = length (items d)
    ∧ filter (λ it, IsDeleted it = false) its = others d (getKey d key)
    ∧ (∀ i it, items d !! i = Some it → ∃ it', its !! i = Some it' ∧ Key it' = Key it)
    ∧ (∀ i it, items d !! i = Some it → IsDeleted it = false →
               getKey d (Key it) ≠ getKey d key → its !! i = Some it)
    ∧ (∀ i it, its !! i = Some it → IsDeleted it = false →
               items d !! i = Some it ∧ getKey d (Key it) ≠ getKey d key).
Proof.
  intros Hwf. pose proof Hwf as [Hf Hc].
  destruct (store d !! getKey d key) as [idx|] eqn:Hidx.
  - destruct (Hf _ _ Hidx) as (it0 & Hit0 & Hk0).
    assert (Hlt : idx < length (items d)) by by eapply lookup_lt_Some.
    exists (<[idx := tombstone it0]> (items d)). split_and!.
    + by apply set_present.
    + apply length_insert.
    + by apply live_after_tombstone.
    + intros i it Hi. destruct (decide (i = idx)) as [->|Hne].
      * exists (tombstone it0). rewrite list_lookup_insert_eq by done.
        split; [done|]. rewrite Hit0 in Hi. by injection Hi as <-.
      * exists it. by rewrite list_lookup_insert_ne.
    + intros i it Hi Hl Hne. rewrite list_lookup_insert_ne; [done|].
      intros ->. congruence.
    + intros i it Hi Hl. destruct (decide (i = idx)) as [->|Hne].
      * rewrite list_lookup_insert_eq in Hi by done. by injection Hi as <-.
      * rewrite list_lookup_insert_ne in Hi by done. split; [done|].
        intros Heq. pose proof (Hc _ _ Hi Hl). congruence.
  - exists (items d). split_and!.
    + by apply set_absent.
    + done.
    + by rewrite others_absent.
    + intros i it Hi. by exists it.
    + done.
    + intros i it Hi Hl. split; [done|].
      intros Heq. pose proof (Hc _ _ Hi Hl). congruence.
Qed.

(** [set] never panics on a well-formed store, keeps it well formed and
    leaves at most nine tombstones, whatever the value. *)
Lemma set_well_formed d key v :
  well_formed d →
  ∃ d', set d key v = Some d'
        ∧ well_formed d'
        ∧ (tombstones d' ≤ 9)%Z
        ∧ case_insensitive d' = case_insensitive d
        ∧ default_value d' = default_value d
        ∧ (v ≠ PtrDeleted →
             Items d' = others d (getKey d key) ++ [{| Key := key; Value := v |}])
        ∧ (v = PtrDeleted → Items d' = others d (getKey d key)).
Proof.
  intros Hwf. pose proof Hwf as [Hf Hc].
  destruct (set_appended d key v Hwf)
    as (its & Hset & Hlen & Hlive & Hkeys & _ & Hkeep).
  assert (Hc' : index_complete (appended d its key v))
    by by apply appended_complete.
  eexists. split_and!; [done|..].
  - split; [by apply maybeCompact_fair, appended_fair|by apply maybeCompact_complete].
  - by apply tombstones_maybeCompact.
  - apply (maybeCompact_flags (appended d its key v)).
  - apply (maybeCompact_flags (appended d its key v)).
  - intros Hv. by rewrite Items_maybeCompact, Items_appended, Hlive.
  - intros ->. by rewrite Items_maybeCompact, Items_appended_deleted.
Qed.

(** With a value other than [&Deleted] it keeps the invariant of the data
    model. *)
Lemma set_invariant d key v :
  index_invariant d → v ≠ PtrDeleted →
  ∃ d', set d key v = Some d' ∧ index_invariant d'.
Proof.
  intros Hinv Hv. pose proof (index_invariant_well_formed d Hinv) as Hwf.
  destruct Hinv as [Hs _]. destruct Hwf as [Hf Hc].
  destruct (set_appended d key v (conj Hf Hc))
    as (its & Hset & Hlen & _ & _ & Hkeep1 & Hkeep2).
  eexists. split; [done|]. apply index_invariant_intro.
  - by apply maybeCompact_sound, appended_sound.
  - by apply maybeCompact_complete, appended_complete.
Qed.

(** *** [Update] *)

Lemma Update_absent d key v :
  store d !! getKey d key = None → Update d key v = set d key v.
Proof. intros H. unfold Update. rewrite H. by rewrite set_absent. Qed.

Lemma Update_present d key v idx it :
  store d !! getKey d key = Some idx → items d !! idx = Some it →
  Update d key v
  = Some (with_items d (<[idx := {| Key := Key it; Value := v |}]> (items d))).
Proof.
  intros Hidx Hit. unfold Update. rewrite Hidx.
  by rewrite (set_item_value_Some _ _ _ it).
Qed.

Lemma Update_well_formed d key v :
  well_formed d →
  ∃ d', Update d key v = Some d' ∧ well_formed d'
        ∧ case_insensitive d' = case_insensitive d.
Proof.
  intros Hwf. pose proof Hwf as [Hf Hc].
  destruct (store d !! getKey d key) as [idx|] eqn:Hidx.
  - destruct (Hf _ _ Hidx) as (it0 & Hit0 & Hk0).
    assert (Hlt : idx < length (items d)) by by eapply lookup_lt_Some.
    rewrite (Update_present d key v idx it0) by done.
    eexists. split_and!; [done| |done]. split.
    + intros nk i Hi. simpl in *. destruct (decide (i = idx)) as [->|Hne].
      * rewrite list_lookup_insert_eq by done. eexists. split; [done|].
        destruct (Hf _ _ Hi) as (it & Hit & Hk).
        rewrite Hit0 in Hit. injection Hit as <-. exact Hk.
      * rewrite list_lookup_insert_ne by done. by apply Hf.
    + intros i it Hi Hl. simpl in *. destruct (decide (i = idx)) as [->|Hne].
      * rewrite list_lookup_insert_eq in Hi by done. injection Hi as <-.
        rewrite <- Hk0 in Hidx. exact Hidx.
      * rewrite list_lookup_insert_ne in Hi by done. by apply Hc.
  - rewrite Update_absent by done.
    destruct (set_well_formed d key v Hwf) as (d' & ? & ? & _ & ? & _).
    by exists d'.
Qed.

Lemma Update_invariant d key v :
  index_invariant d → v ≠ PtrDeleted →
  ∃ d', Update d key v = Some d' ∧ index_invariant d'.
Proof.
  intros Hinv Hv. pose proof (index_invariant_well_formed d Hinv) as Hwf.
  destruct (store d !! getKey d key) as [idx|] eqn:Hidx.
  - destruct Hinv as [Hs _].
    destruct (Hs _ _ Hidx) as (it0 & Hit0 & Hk0 & Hl0).
    assert (Hlt : idx < length (items d)) by by eapply lookup_lt_Some.
    destruct (Update_well_formed d key v Hwf) as (d' & HUpdate & [_ Hc'] & _).
    exists d'. split; [done|]. apply index_invariant_intro; [|done].
    rewrite (Update_present d key v idx it0) in HUpdate by done.
    injection HUpdate as <-.
    intros nk i Hi. simpl in *. destruct (decide (i = idx)) as [->|Hne].
    + rewrite list_lookup_insert_eq by done. eexists. split_and!; [done|..].
      * destruct (Hs _ _ Hi) as (it & Hit & Hk & _).
        rewrite Hit0 in Hit. injection Hit as <-. exact Hk.
      * by apply IsDeleted_false_iff.
    + rewrite list_lookup_insert_ne by done. by apply Hs.
  - rewrite Update_absent by done. by apply set_invariant.
Qed.

(** *** [Delete] *)

Lemma Delete_absent d key :
  store d !! getKey d key = None → Delete d key = Some d.
Proof. intros H. unfold Delete. by rewrite H. Qed.

Lemma Delete_present d key idx it :
  store d !! getKey d key = Some idx → items d !! idx = Some it →
  Delete d key
  = Some (with_items (with_store d (delete key (store d)))
            (<[idx := tombstone it]> (items d))).
Proof.
  intros Hidx Hit. unfold Delete. rewrite Hidx.
  by rewrite (set_item_value_Some _ _ _ it).
Qed.

(** [Delete] keeps a store well formed: for a key in normal form because
    it removes the mapping of the entry it tombstones, for another key
    because, lowering being idempotent, it removes no mapping at all. *)
Lemma Delete_well_formed d key :
  well_formed d → getKey d key = key ∨ lower_idempotent →
  ∃ d', Delete d key = Some d' ∧ well_formed d'
        ∧ case_insensitive d' = case_insensitive d.
Proof.
  intros Hwf Hkey. pose proof Hwf as [Hf Hc].
  destruct (store d !! getKey d key) as [idx|] eqn:Hidx.
  - destruct (Hf _ _ Hidx) as (it0 & Hit0 & Hk0).
    assert (Hlt : idx < length (items d)) by by eapply lookup_lt_Some.
    rewrite (Delete_present d key idx it0) by done.
    eexists. split_and!; [done| |done]. split.
    + intros nk i. simpl. rewrite lookup_delete. case_decide; [done|].
      intros (it & Hit & Hk)%Hf. destruct (decide (i = idx)) as [->|Hne].
      * rewrite list_lookup_insert_eq by done. exists (tombstone it0).
        split; [done|]. rewrite Hit0 in Hit. injection Hit as <-. exact Hk.
      * rewrite list_lookup_insert_ne by done. by exists it.
    + intros i it Hi Hl. simpl in *. destruct (decide (i = idx)) as [->|Hne].
      * rewrite list_lookup_insert_eq in Hi by done. by injection Hi as <-.
      * rewrite list_lookup_insert_ne in Hi by done.
        pose proof (Hc _ _ Hi Hl) as Hst.
        rewrite lookup_delete_ne; [done|]. intros Heq.
        change (key = getKey d (Key it)) in Heq.
        assert (Hnormal : getKey d key = key).
        { destruct Hkey as [?|Hlow]; [done|]. rewrite Heq. by apply getKey_idemp. }
        rewrite <- Heq, <- Hnormal in Hst. congruence.
  - rewrite Delete_absent by done. by exists d.
Qed.

(** For a key that is its own normal form [Delete] keeps the invariant of
    the data model. *)
Lemma Delete_normal d key :
  index_invariant d → getKey d key = key →
  ∃ d', Delete d key = Some d'
        ∧ index_invariant d'
        ∧ store d' = delete key (store d)
        ∧ Items d' = others d key
        ∧ case_insensitive d' = case_insensitive d
        ∧ default_value d' = default_value d.
Proof.
  intros Hinv Hnorm. pose proof (index_invariant_well_formed d Hinv) as Hwf.
  destruct (Delete_well_formed d key Hwf (or_introl Hnorm)) as (d' & HDelete & [_ Hc'] & _).
  destruct Hinv as [Hs _]. exists d'. split; [done|].
  destruct (store d !! key) as [idx|] eqn:Hidx.
  - destruct (Hs _ _ Hidx) as (it0 & Hit0 & Hk0 & Hl0).
    rewrite (Delete_present d key idx it0) in HDelete by by rewrite ?Hnorm.
    injection HDelete as <-. split_and!; [|done| |done..].
    + apply index_invariant_intro; [|done].
      intros nk i. simpl. rewrite lookup_delete. case_decide; [done|].
      intros Hi. destruct (Hs _ _ Hi) as (it & Hit & Hk & Hl).
      exists it. split_and!; [|done..].
      rewrite list_lookup_insert_ne; [done|]. intros ->. congruence.
    + by apply (live_after_tombstone d key idx it0).
  - rewrite Delete_absent in HDelete by by rewrite Hnorm.
    injection HDelete as <-. split_and!; [by apply index_invariant_intro| | |done..].
    + by rewrite delete_id.
    + rewrite others_absent; [done|apply Hwf|done].
Qed.

(** [Delete] leaves the sequence as long as it was: it never compacts. *)
Lemma Delete_no_compaction d key d' :
  Delete d key = Some d' →
  length (items d') = length (items d) ∧ (tombstones d ≤ tombstones d')%Z.
Proof.
  unfold Delete. destruct (store d !! getKey d key) as [idx|].
  - destruct (set_item_value idx PtrDeleted (items d)) as [its|] eqn:Hits; [|done].
    simpl. intros [= <-]. apply set_item_value_length in Hits.
    unfold tombstones. simpl. rewrite Hits, map_size_delete.
    split; [done|]. destruct (store d !! key); simpl; lia.
  - intros [= <-]. split; [done|lia].
Qed.

(** *** [MergeFrom], [SetCaseInsensitive], [Copy], [SetDefault] *)

Lemma set_all_cons d x l :
  set_all d (x :: l) =
    match Set_ d (Key x) (Value x) with
    | Some d' => set_all d' l
    | None => None
    end.
Proof.
  unfold set_all. simpl. destruct (Set_ d (Key x) (Value x)); [done|].
  induction l; simpl; done.
Qed.

(** A property that [set] keeps for values other than [&Deleted] is kept
    by setting the items of a live view. *)
Lemma set_all_kept (I : Dict → Prop) d l :
  (∀ d key v, I d → v ≠ PtrDeleted → ∃ d', set d key v = Some d' ∧ I d') →
  I d → Forall (λ it, IsDeleted it = false) l →
  ∃ d', set_all d l = Some d' ∧ I d'.
Proof.
  intros Hset. revert d. induction l as [|x l IH]; intros d HI Hl.
  - by exists d.
  - apply Forall_cons in Hl as [Hx Hl]. rewrite set_all_cons.
    destruct (Hset d (Key x) (Value x) HI) as (d1 & Hd1 & HI1).
    { by apply IsDeleted_false_iff. }
    unfold Set_. rewrite Hd1. by apply IH.
Qed.

Lemma set_well_formed_live d key v :
  well_formed d → v ≠ PtrDeleted → ∃ d', set d key v = Some d' ∧ well_formed d'.
Proof.
  intros Hwf _. destruct (set_well_formed d key v Hwf) as (d' & ? & ? & _).
  by exists d'.
Qed.

Lemma Items_live d : Forall (λ it, IsDeleted it = false) (Items d).
Proof. apply Forall_forall. by intros x [? _]%list_elem_of_filter. Qed.

Lemma MergeFrom_invariant d other :
  index_invariant d → ∃ d', MergeFrom d other = Some d' ∧ index_invariant d'.
Proof.
  intros Hinv.
  apply (set_all_kept index_invariant); [apply set_invariant|done|apply Items_live].
Qed.

Lemma MergeFrom_well_formed d other :
  well_formed d → ∃ d', MergeFrom d other = Some d' ∧ well_formed d'.
Proof.
  intros Hwf.
  apply (set_all_kept well_formed); [apply set_well_formed_live|done|apply Items_live].
Qed.

Lemma SetCaseInsensitive_invariant d :
  ∃ d', SetCaseInsensitive d = Some d' ∧ index_invariant d'.
Proof.
  apply (set_all_kept index_invariant);
    [apply set_invariant|apply index_invariant_folding_store|].
  apply Forall_forall. by intros x [? _]%list_elem_of_filter.
Qed.

Lemma Copy_eq d : Copy d = d.
Proof. by destruct d. Qed.

Lemma SetDefault_invariant d v : index_invariant d → index_invariant (SetDefault d v).
Proof. done. Qed.

Lemma SetDefault_well_formed d v : well_formed d → well_formed (SetDefault d v).
Proof. done. Qed.

End Operations.
(** ** The decoder returns, and keeps what [set] keeps *)

Section DecodeSafe.
Context {lib : GoLib}.

(** A property of dictionaries that holds of [NewDict()] and that [set]
    keeps, without a panic, for the values other than [&Deleted]. *)
Variable I : Dict → Prop.
Hypothesis I_NewDict : I NewDict.
Hypothesis I_set :
  ∀ d key v, I d → v ≠ PtrDeleted → ∃ d', set d key v = Some d' ∧ I d'.

Local Ltac grows_tac :=
  unfold grows in *; simpl in *;
  repeat match goal with
         | H : _ ∧ _ |- _ => destruct H
         end;
  subst; split_and?; simpl in *; try done; try lia.

Lemma safe_ret {A} (a : A) st (Q : dstate → error + A → Prop) :
  Q st (inr a) → safe (ret a) st Q.
Proof. intros HQ. by exists st, (inr a). Qed.

Lemma safe_throw {A} e st (Q : dstate → error + A → Prop) :
  Q st (inl e) → safe (throw e) st Q.
Proof. intros HQ. by exists st, (inl e). Qed.

Lemma safe_bind {A B} (m : M A) (k : A → M B) st (Q : dstate → error + B → Prop) :
  safe m st (λ st' r,
    match r with
    | inr a => safe (k a) st' Q
    | inl e => Q st' (inl e)
    end) →
  safe (bind m k) st Q.
Proof.
  intros (st' & r & Hm & HQ). unfold safe, bind. rewrite Hm.
  destruct r as [e|a]; [by exists st', (inl e)|done].
Qed.

Lemma safe_mono {A} (m : M A) st (Q Q' : dstate → error + A → Prop) :
  safe m st Q → (∀ st' r, Q st' r → Q' st' r) → safe m st Q'.
Proof. intros (st' & r & Hm & HQ) HQQ. exists st', r. eauto. Qed.

Lemma safe_More st (Q : dstate → error + bool → Prop) :
  Q st (inr (dec_More st.2)) → safe More st Q.
Proof. intros HQ. by exists st, (inr (dec_More st.2)). Qed.

Lemma safe_Token st :
  safe Token_ st (λ st' r,
    ∃ tok, r = inr tok ∧ st'.1 = st.1 ∧
      ((st.2 = [] ∧ st'.2 = [] ∧ tok = inr io_EOF) ∨ st.2 = tok :: st'.2)).
Proof.
  destruct st as [h [|tok dec]]; unfold safe, Token_; simpl.
  - eexists _, _. split; [done|]. exists (inr io_EOF). naive_solver.
  - eexists _, _. split; [done|]. exists tok. naive_solver.
Qed.

Lemma safe_Token_or_return st (Q : dstate → error + Token → Prop) :
  (∀ e, st.2 = [] → Q (st.1, []) (inl e)) →
  (∀ e dec, st.2 = inr e :: dec → Q (st.1, dec) (inl e)) →
  (∀ t dec, st.2 = inl t :: dec → Q (st.1, dec) (inr t)) →
  safe Token_or_return st Q.
Proof.
  intros Hnil Herr Htok. destruct st as [h [|[t|e] dec]];
    unfold safe, Token_or_return, bind, Token_, ret, throw; simpl in *; eauto.
Qed.

Lemma safe_expect_close c e st :
  heap_invariant I st.1 → safe (expect_close c e) st (λ st' _, grows I st st').
Proof.
  destruct st as [h dec]. simpl. intros Hh. unfold expect_close.
  apply safe_bind, safe_Token_or_return; simpl.
  - intros e' ->. grows_tac.
  - intros e' dec' ->. grows_tac.
  - intros t dec' ->.
    assert (Hg : grows I (h, inl t :: dec') (h, dec')) by grows_tac.
    destruct t; try by apply safe_throw.
    case_match; [by apply safe_ret|by apply safe_throw].
Qed.

Lemma handle_string_live t : handle_string t ≠ PtrDeleted.
Proof. unfold handle_string. repeat case_match; done. Qed.

Lemma handle_number_live token s v : handle_number token s = inr v → v ≠ PtrDeleted.
Proof. unfold handle_number. repeat case_match; naive_solver. Qed.

Lemma safe_set_at self key v st :
  heap_invariant I st.1 → self < length st.1 → v ≠ PtrDeleted →
  safe (set_at self key v) st (λ st' _,
    heap_invariant I st'.1 ∧ length st'.1 = length st.1 ∧ st'.2 = st.2).
Proof.
  destruct st as [h dec]. simpl. intros Hh Hself Hv. unfold safe, set_at. simpl.
  destruct (lookup_lt_is_Some_2 _ _ Hself) as [d Hd]. rewrite Hd.
  pose proof (proj1 (Forall_lookup _ _) Hh _ _ Hd) as Hinv.
  destruct (I_set d key v Hinv Hv) as (d' & -> & Hinv').
  eexists _, _. split; [done|]. simpl. split_and!; [|by rewrite length_insert|done].
  by apply Forall_insert.
Qed.

Lemma safe_new_dict st :
  heap_invariant I st.1 →
  safe new_dict st (λ st' r,
    r = inr (length st.1) ∧ heap_invariant I st'.1
    ∧ length st'.1 = S (length st.1) ∧ st'.2 = st.2).
Proof.
  intros Hh. unfold safe, new_dict, alloc. eexists _, _. split; [done|]. simpl.
  split_and!; [done| |rewrite length_app; simpl; lia|done].
  apply Forall_app. split; [done|]. by apply Forall_singleton.
Qed.

Lemma parseobject_body_safe hd po self st :
  heap_invariant I st.1 → self < length st.1 →
  (∀ t st1, heap_invariant I st1.1 → length st1.2 + 2 ≤ length st.2 →
     safe (hd t) st1 (λ st' r, grows I st1 st' ∧ ∀ v, r = inr v → v ≠ PtrDeleted)) →
  (∀ st1, heap_invariant I st1.1 → self < length st1.1 →
     length st1.2 + 2 ≤ length st.2 →
     safe (po self) st1 (λ st' _, grows I st1 st')) →
  safe (parseobject_body hd po self) st (λ st' _, grows I st st').
Proof.
  destruct st as [h dec]. simpl. intros Hh Hself Hhd Hpo.
  unfold parseobject_body. apply safe_bind, safe_More. simpl.
  destruct (dec_More dec) eqn:Hmore.
  - apply safe_bind, safe_Token_or_return; simpl.
    + intros e ->. grows_tac.
    + intros e dec1 ->. grows_tac.
    + intros t dec1 ->. destruct t as [c|b|s|key|]; try (apply safe_throw; grows_tac).
      apply safe_bind. eapply safe_mono; [apply safe_Token|]. simpl.
      intros [h' dec'] r (tok & -> & Hh' & Hcase). simpl in *. subst h'.
      destruct Hcase as [(-> & -> & ->) | ->].
      * eapply safe_mono; [by apply safe_expect_close|]. intros; grows_tac.
      * destruct tok as [t|e].
        -- apply safe_bind. eapply safe_mono; [apply Hhd; simpl; [done|lia]|].
           intros [h2 dec2] [e|v] [Hg Hv]; simpl; [grows_tac|].
           apply safe_bind. eapply safe_mono.
           { apply safe_set_at; [grows_tac..|by apply Hv]. }
           intros [h3 dec3] [e|u] (Hh3 & Hlen3 & Hdec3); simpl in *; [grows_tac|].
           eapply safe_mono.
           { apply Hpo; simpl; [done|grows_tac..]. }
           intros st4 r4 Hg4. grows_tac.
        -- destruct e; try (apply safe_throw; grows_tac).
           eapply safe_mono; [by apply safe_expect_close|]. intros; grows_tac.
  - eapply safe_mono; [by apply safe_expect_close|]. intros; grows_tac.
Qed.

Lemma parsearray_body_safe hd pa arr st :
  heap_invariant I st.1 →
  (∀ t st1, heap_invariant I st1.1 → length st1.2 + 1 ≤ length st.2 →
     safe (hd t) st1 (λ st' r, grows I st1 st' ∧ ∀ v, r = inr v → v ≠ PtrDeleted)) →
  (∀ arr1 st1, heap_invariant I st1.1 → length st1.2 + 1 ≤ length st.2 →
     safe (pa arr1) st1 (λ st' _, grows I st1 st')) →
  safe (parsearray_body hd pa arr) st (λ st' _, grows I st st').
Proof.
  destruct st as [h dec]. simpl. intros Hh Hhd Hpa.
  unfold parsearray_body. apply safe_bind, safe_More. simpl.
  destruct (dec_More dec) eqn:Hmore.
  - apply safe_bind, safe_Token_or_return; simpl.
    + intros e ->. grows_tac.
    + intros e dec1 ->. grows_tac.
    + intros t dec1 ->.
      apply safe_bind. eapply safe_mono; [apply Hhd; simpl; [done|lia]|].
      intros [h2 dec2] [e|v] [Hg Hv]; simpl; [grows_tac|].
      eapply safe_mono; [apply Hpa; simpl; grows_tac|].
      intros st3 r3 Hg3. grows_tac.
  - apply safe_bind. eapply safe_mono; [by apply safe_expect_close|].
    intros st1 [e|u] Hg; simpl; [grows_tac|]. apply safe_ret. grows_tac.
Qed.

Lemma handledelim_body_safe po pa token st :
  heap_invariant I st.1 →
  (∀ self st1, heap_invariant I st1.1 → self < length st1.1 →
     length st1.2 ≤ length st.2 →
     safe (po self) st1 (λ st' _, grows I st1 st')) →
  (∀ arr1 st1, heap_invariant I st1.1 → length st1.2 ≤ length st.2 →
     safe (pa arr1) st1 (λ st' _, grows I st1 st')) →
  safe (handledelim_body po pa token) st
    (λ st' r, grows I st st' ∧ ∀ v, r = inr v → v ≠ PtrDeleted).
Proof.
  destruct st as [h dec]. simpl. intros Hh Hpo Hpa.
  unfold handledelim_body. destruct token as [c|b|s|t|].
  - destruct (Ascii.eqb c "{").
    { apply safe_bind. eapply safe_mono; [by apply safe_new_dict|].
      intros [h1 dec1] r (-> & Hh1 & Hlen1 & Hdec1). simpl in *. subst dec1.
      apply safe_bind. eapply safe_mono; [apply Hpo; simpl; [done|lia|done]|].
      intros [h2 dec2] [e|u] Hg; simpl; [split; [grows_tac|done]|].
      apply safe_ret. split; [grows_tac|]. by intros v [= <-]. }
    destruct (Ascii.eqb c "[").
    { apply safe_bind. eapply safe_mono; [by apply Hpa|].
      intros [h2 dec2] [e|arr] Hg; simpl; [split; [grows_tac|done]|].
      apply safe_ret. split; [grows_tac|]. by intros v [= <-]. }
    apply safe_throw. split; [grows_tac|done].
  - apply safe_ret. split; [grows_tac|]. by intros v [= <-].
  - destruct (handle_number _ s) as [e|v] eqn:Hnum.
    + apply safe_throw. split; [grows_tac|done].
    + apply safe_ret. split; [grows_tac|]. intros v' [= <-].
      by eapply handle_number_live.
  - apply safe_ret. split; [grows_tac|]. intros v [= <-]. apply handle_string_live.
  - apply safe_ret. split; [grows_tac|]. by intros v [= <-].
Qed.

Lemma parseobject_S n self :
  parseobject (S n) self = parseobject_body (handledelim n) (parseobject n) self.
Proof. done. Qed.

Lemma parsearray_S n arr :
  parsearray (S n) arr = parsearray_body (handledelim n) (parsearray n) arr.
Proof. done. Qed.

Lemma handledelim_S n token :
  handledelim (S n) token = handledelim_body (parseobject n) (parsearray n) token.
Proof. done. Qed.

(** With fuel for two calls a token the three functions return. *)
Lemma decode_safe n :
  (∀ self st, heap_invariant I st.1 → self < length st.1 →
     2 * length st.2 + 1 ≤ n →
     safe (parseobject n self) st (λ st' _, grows I st st'))
  ∧ (∀ arr st, heap_invariant I st.1 → 2 * length st.2 + 1 ≤ n →
       safe (parsearray n arr) st (λ st' _, grows I st st'))
  ∧ (∀ token st, heap_invariant I st.1 → 2 * length st.2 + 2 ≤ n →
       safe (handledelim n token) st
         (λ st' r, grows I st st' ∧ ∀ v, r = inr v → v ≠ PtrDeleted)).
Proof.
  induction n as [|n (IHpo & IHpa & IHhd)]; [split_and!; intros; lia|].
  split_and!.
  - intros self st Hh Hself Hn. rewrite parseobject_S.
    apply parseobject_body_safe; [done..| |].
    + intros t st1 Hh1 Hlen. apply IHhd; [done|lia].
    + intros st1 Hh1 Hself1 Hlen. apply IHpo; [done..|lia].
  - intros arr st Hh Hn. rewrite parsearray_S.
    apply parsearray_body_safe; [done| |].
    + intros t st1 Hh1 Hlen. apply IHhd; [done|lia].
    + intros arr1 st1 Hh1 Hlen. apply IHpa; [done|lia].
  - intros token st Hh Hn. rewrite handledelim_S.
    apply handledelim_body_safe; [done| |].
    + intros self st1 Hh1 Hself1 Hlen. apply IHpo; [done..|lia].
    + intros arr1 st1 Hh1 Hlen. apply IHpa; [done|lia].
Qed.

(** [UnmarshalJSON] returns, with a nil error or with an error, and every
    dictionary of the heap it leaves satisfies [I]. *)
Lemma UnmarshalJSON_safe self (h : heap) data :
  heap_invariant I h → self < length h →
  ∃ h' dec' r,
    UnmarshalJSON self h data = Returns ((h', dec'), r)
    ∧ heap_invariant I h' ∧ length h ≤ length h'.
Proof.
  intros Hh Hself.
  cut (safe (UnmarshalJSON_fuel (2 * length data + 1) self) (h, data)
         (λ st' _, grows I (h, data) st')).
  { intros ([h' dec'] & r & Hrun & Hg). exists h', dec', r.
    split; [done|]. grows_tac. }
  unfold UnmarshalJSON_fuel. apply safe_bind, safe_Token_or_return; simpl.
  - intros e ->. grows_tac.
  - intros e dec ->. grows_tac.
  - intros t dec ->. destruct t as [c| | | |]; try (apply safe_throw; grows_tac).
    destruct (Ascii.eqb c "{"); [|apply safe_throw; grows_tac].
    apply safe_bind. eapply safe_mono.
    { apply (proj1 (decode_safe _)); simpl; [done..|lia]. }
    intros [h1 dec1] [e|u] Hg; simpl; [grows_tac|].
    apply safe_bind. eapply safe_mono; [apply safe_Token|]. simpl.
    intros [h2 dec2] r (tok & -> & Hh2 & Hcase). simpl in *. subst h2.
    assert (grows I (h, inl (TDelim c) :: dec) (h1, dec2)).
    { destruct Hcase as [(-> & -> & ->) | ->]; grows_tac. }
    destruct tok as [t|e]; [by apply safe_throw|].
    destruct e; by (apply safe_throw || apply safe_ret).
Qed.

End DecodeSafe.

(** ** Decoding an object whose members are scalars *)

Section DecodeFlat.
Context {lib : GoLib}.

Lemma scalar_value_live t v : scalar_value t = Some v → v ≠ PtrDeleted.
Proof.
  destruct t; simpl; try by intros [= <-].
  - destruct (handle_number _ s) eqn:H; [done|]. intros [= <-].
    by eapply handle_number_live.
  - intros [= <-]. apply handle_string_live.
Qed.

Lemma handledelim_body_scalar po pa t v st :
  scalar_value t = Some v → handledelim_body po pa t st = Returns (st, inr v).
Proof.
  unfold handledelim_body.
  destruct t; simpl; try by intros [= <-].
  destruct (handle_number _ s); [done|]. by intros [= <-].
Qed.

Lemma handledelim_scalar n t v st :
  scalar_value t = Some v → handledelim (S n) t st = Returns (st, inr v).
Proof. rewrite handledelim_S. apply handledelim_body_scalar. Qed.

(** [parseobject] calls [set] for every member, in the order of the
    document, and stops at the closing brace. *)
Lemma parseobject_members ms : ∀ n self (h : heap) d d' l rest,
  length ms < n → h !! self = Some d →
  Forall2 decodes_to ms l →
  set_all d l = Some d' →
  parseobject n self (h, (ms ≫= member_tokens) ++ inl (TDelim "}") :: rest)
  = Returns ((<[self := d']> h, rest), inr ()).
Proof.
  induction ms as [|[key t] ms IH]; intros n self h d d' l rest Hn Hd Hl Hset.
  - apply Forall2_nil_inv_l in Hl as ->. injection Hset as <-.
    destruct n as [|n]; [lia|]. rewrite parseobject_S.
    by rewrite list_insert_id.
  - apply Forall2_cons_inv_l in Hl as (it & l' & [Hk Hv] & Hl' & ->).
    rewrite set_all_cons in Hset.
    destruct (Set_ d (Key it) (Value it)) as [d1|] eqn:Hd1; [|done].
    destruct n as [|[|n]]; [simpl in Hn; lia..|].
    rewrite parseobject_S. unfold parseobject_body at 1.
    unfold bind at 1 2 3 4; simpl.
    rewrite (handledelim_body_scalar _ _ _ _ _ Hv). unfold bind at 1.
    unfold set_at at 1. simpl in *. rewrite Hd. subst key.
    unfold Set_ in Hd1. rewrite Hd1.
    assert (Hself : self < length h) by by eapply lookup_lt_Some.
    rewrite <- parseobject_S.
    rewrite (IH (S n) self (<[self := d1]> h) d1 d' l' rest); [|lia| |done..].
    + by rewrite list_insert_insert_eq.
    + by rewrite list_lookup_insert_eq.
Qed.

(** [UnmarshalJSON] on the document [{ members }]. *)
Lemma UnmarshalJSON_members ms self (h : heap) d d' l :
  h !! self = Some d →
  Forall2 decodes_to ms l →
  set_all d l = Some d' →
  UnmarshalJSON self h
    (inl (TDelim "{") :: (ms ≫= member_tokens) ++ [inl (TDelim "}")])
  = Returns ((<[self := d']> h, []), inr ()).
Proof.
  intros Hd Hl Hset. unfold UnmarshalJSON.
  assert (Hfuel : length ms < 2 * length (inl (TDelim "{") :: (ms ≫= member_tokens)
                                            ++ [inl (TDelim "}") : Token + error]) + 1).
  { rewrite length_cons, length_app.
    assert (length ms ≤ length (ms ≫= member_tokens)); [|lia].
    clear. induction ms as [|m ms IH]; [done|].
    rewrite bind_cons, length_app. simpl. lia. }
  revert Hfuel. generalize (2 * length (inl (TDelim "{") :: (ms ≫= member_tokens)
                                          ++ [inl (TDelim "}") : Token + error]) + 1).
  intros fuel Hfuel. unfold UnmarshalJSON_fuel.
  unfold bind at 1 2; simpl.
  by erewrite parseobject_members.
Qed.

End DecodeFlat.

(** ** Encoding *)

Section EncodeProps.
Context {lib : GoLib}.

(** The loop writes nothing for a pair that refers back to the store. *)
Lemma marshal_items_back_reference marshal self l buf :
  marshal_items marshal self l buf
  = marshal_items marshal self (filter (λ it, back_reference self it = false) l) buf.
Proof.
  revert buf. induction l as [|it l IH]; intros buf; [done|].
  rewrite filter_cons. destruct (decide (back_reference self it = false)) as [Hb|Hb].
  - simpl. rewrite Hb.
    destruct (json_Marshal_scalar _); [|by apply IH].
    destruct (marshal _) as [[?|]| |]; by rewrite ?IH.
  - apply not_false_is_true in Hb. simpl. rewrite Hb.
    destruct (json_Marshal_scalar _); by apply IH.
Qed.

(** The loop returns when [json.Marshal] returns on the values that are
    no back reference. *)
Lemma marshal_items_returns marshal self l buf :
  (∀ it, it ∈ l → back_reference self it = false →
         ∃ r, marshal (Value it) = Returns r) →
  ∃ out, marshal_items marshal self l buf = Returns out.
Proof.
  revert buf. induction l as [|it l IH]; intros buf Hl; [by eexists|].
  simpl. assert (Hrest : ∀ buf', ∃ out, marshal_items marshal self l buf' = Returns out).
  { intros buf'. apply IH. intros it' Hin. apply Hl. by right. }
  destruct (json_Marshal_scalar _); [|done].
  destruct (back_reference self it) eqn:Hb; [done|].
  destruct (Hl it) as [r ->]; [by left|done|]. by destruct r.
Qed.

Lemma MarshalJSON_S fuel (h : heap) self d :
  h !! self = Some d →
  MarshalJSON (S fuel) h self =
    match marshal_items (json_Marshal fuel h) self (Items d) "{" with
    | Returns buf =>
        Returns ((if 0 <? length (items d) then truncate_last buf else buf) +:+ "}", None)
    | Panics => Panics
    | OutOfFuel => OutOfFuel
    end.
Proof. intros Hd. simpl. by rewrite Hd. Qed.

(** A value that holds no dictionary and no slice needs no fuel. *)
Lemma json_Marshal_scalar_value fuel h v :
  scalar v = true → json_Marshal fuel h v = Returns (json_Marshal_scalar v).
Proof. destruct fuel, v; done. Qed.

End EncodeProps.
(** More fuel does not change what the encoder returns. *)

Section EncodeFuel.
Context {lib : GoLib}.

Lemma marshal_elements_mono (marshal marshal' : value → outcome (option string)) l :
  (∀ v r, marshal v = Returns r → marshal' v = Returns r) →
  ∀ first buf r,
    marshal_elements marshal l first buf = Returns r →
    marshal_elements marshal' l first buf = Returns r.
Proof.
  intros Hm. induction l as [|v l IH]; intros first buf r; [done|].
  simpl. destruct (marshal v) as [[b|]| |] eqn:Hv; try done.
  - rewrite (Hm _ _ Hv). apply IH.
  - by rewrite (Hm _ _ Hv).
Qed.

Lemma marshal_items_mono (marshal marshal' : value → outcome (option string)) self l :
  (∀ v r, marshal v = Returns r → marshal' v = Returns r) →
  ∀ buf out,
    marshal_items marshal self l buf = Returns out →
    marshal_items marshal' self l buf = Returns out.
Proof.
  intros Hm. induction l as [|it l IH]; intros buf out; [done|].
  simpl. destruct (json_Marshal_scalar _); [|apply IH].
  destruct (back_reference self it); [apply IH|].
  destruct (marshal (Value it)) as [[b|]| |] eqn:Hv; try done;
    rewrite (Hm _ _ Hv); apply IH.
Qed.

Lemma encode_fuel_S n :
  (∀ (h : heap) self r, MarshalJSON n h self = Returns r →
                        MarshalJSON (S n) h self = Returns r)
  ∧ (∀ (h : heap) v r, json_Marshal n h v = Returns r →
                       json_Marshal (S n) h v = Returns r).
Proof.
  induction n as [|n [IHm IHj]].
  - split; [done|]. intros h v r. by destruct v.
  - split.
    + intros h self r. destruct (h !! self) as [d|] eqn:Hd.
      * rewrite !(MarshalJSON_S _ _ _ d) by done.
        destruct (marshal_items (json_Marshal n h) _ _ _) as [buf| |] eqn:Hbuf; try done.
        by rewrite (marshal_items_mono _ (json_Marshal (S n) h) _ _ (IHj h) _ _ Hbuf).
      * simpl. by rewrite Hd.
    + intros h v r. destruct v; try done.
      * change (marshal_elements (json_Marshal n h) l true "[" = Returns r →
                marshal_elements (json_Marshal (S n) h) l true "[" = Returns r).
        apply marshal_elements_mono, IHj.
      * change (match MarshalJSON n h p with
                | Returns (b, None) => Returns (json_Marshaler_bytes b)
                | Returns (_, Some _) => Returns None
                | Panics => Panics
                | OutOfFuel => OutOfFuel
                end = Returns r →
                match MarshalJSON (S n) h p with
                | Returns (b, None) => Returns (json_Marshaler_bytes b)
                | Returns (_, Some _) => Returns None
                | Panics => Panics
                | OutOfFuel => OutOfFuel
                end = Returns r).
        destruct (MarshalJSON n h p) as [[b e]| |] eqn:Hp; try done.
        by rewrite (IHm _ _ _ Hp).
Qed.

Lemma MarshalJSON_fuel_mono n m (h : heap) self r :
  n ≤ m → MarshalJSON n h self = Returns r → MarshalJSON m h self = Returns r.
Proof.
  induction 1 as [|m _ IH]; [done|]. intros Hn. by apply encode_fuel_S, IH.
Qed.

End EncodeFuel.

(** ** What the readers see *)

Section Observations.
Context {lib : GoLib}.
Implicit Types (d : Dict) (l : list Item) (it : Item).

(** Nothing passes a filter that no element satisfies. *)
Lemma filter_none {A} (Q : A → Prop) `{!∀ x, Decision (Q x)} (k : list A) :
  (∀ x, x ∈ k → ¬ Q x) → filter Q k = [].
Proof.
  induction k as [|x k IH]; intros HQ; [done|].
  rewrite filter_cons_False by (apply HQ; left).
  apply IH. intros y Hy. apply HQ. by right.
Qed.

Lemma Get_absent d key :
  store d !! getKey d key = None → Get d key = Some (default_value d, false).
Proof. intros H. unfold Get. by rewrite H. Qed.

(** A live entry is what [Get] returns for every key that normalises
    like its own. *)
Lemma Get_live_item d it key :
  index_complete d → it ∈ Items d → getKey d key = getKey d (Key it) →
  Get d key = Some (Value it, true).
Proof.
  intros Hc [Hl [i Hi]%list_elem_of_lookup]%list_elem_of_filter Hk.
  unfold Get. rewrite Hk, (Hc _ _ Hi Hl). simpl. by rewrite Hi.
Qed.

Lemma others_case_sensitive d nk :
  case_insensitive d = false → others d nk = filter (λ it, Key it ≠ nk) (Items d).
Proof.
  intros Hflag. unfold others. apply list_filter_iff. intros it.
  unfold getKey. by rewrite Hflag.
Qed.

Lemma others_after_Set d d' key v nk :
  case_insensitive d' = case_insensitive d →
  Items d' = others d (getKey d key) ++ [{| Key := key; Value := v |}] →
  others d' nk =
    filter (λ it, getKey d (Key it) ≠ nk)
           (others d (getKey d key) ++ [{| Key := key; Value := v |}]).
Proof.
  intros Hflag HItems. unfold others at 1. rewrite HItems.
  apply list_filter_iff. intros it. by rewrite (getKey_same_flag d d').
Qed.

(** [Set] with a value other than [&Deleted]: the key is found again,
    under every spelling that normalises alike, and it is the last key,
    spelled as this call spelled it. *)
Lemma Set_observed d key v :
  well_formed d → v ≠ PtrDeleted →
  ∃ d', Set_ d key v = Some d'
        ∧ well_formed d'
        ∧ case_insensitive d' = case_insensitive d
        ∧ Items d' = others d (getKey d key) ++ [{| Key := key; Value := v |}]
        ∧ Keys d' = (Key <$> others d (getKey d key)) ++ [key]
        ∧ ∀ key', getKey d key' = getKey d key → Get d' key' = Some (v, true).
Proof.
  intros Hwf Hv.
  destruct (set_well_formed d key v Hwf)
    as (d' & Hset & Hwf' & _ & Hflag & _ & HItems & _).
  specialize (HItems Hv).
  exists d'. split_and!; [done..| |].
  - unfold Keys. by rewrite HItems, fmap_app.
  - intros key' Hk.
    apply (Get_live_item d' {| Key := key; Value := v |}); [apply Hwf'|..].
    + rewrite HItems. apply elem_of_app. right. by left.
    + simpl. by rewrite !(getKey_same_flag d d').
Qed.

(** [Set] with [&Deleted]: no live entry is left for the key.  Unless
    this very call compacts, the index maps the key to the new entry;
    if it compacts, the entry and its mapping are gone. *)
Lemma Set_deleted_observed d key :
  well_formed d →
  ∃ d', Set_ d key PtrDeleted = Some d'
        ∧ well_formed d'
        ∧ Items d' = others d (getKey d key)
        ∧ ((tombstones_after_set d key < 10)%Z →
             items d' !! length (items d) = Some {| Key := key; Value := PtrDeleted |}
             ∧ store d' = <[getKey d key := length (items d)]> (store d)
             ∧ Get d' key = Some (PtrDeleted, true))
        ∧ ((10 ≤ tombstones_after_set d key)%Z →
             store d' !! getKey d key = None
             ∧ Get d' key = Some (default_value d, false)
             ∧ index_invariant d').
Proof.
  intros Hwf.
  destruct (set_well_formed d key PtrDeleted Hwf)
    as (d' & Hset & Hwf' & _ & _ & _ & _ & HItems).
  specialize (HItems eq_refl).
  destruct (set_appended d key PtrDeleted Hwf)
    as (its & Hset' & Hlen & Hlive & _ & _ & Hkeep).
  rewrite Hset in Hset'. injection Hset' as ->.
  pose proof (tombstones_appended d its key PtrDeleted Hlen) as Htomb.
  set (A := appended d its key PtrDeleted) in *.
  exists (maybeCompact A). split_and!; [done..| |].
  - intros Hlt. rewrite maybeCompact_below by by rewrite Htomb.
    split_and!.
    + unfold A, appended. simpl. by rewrite list_lookup_middle.
    + unfold A, appended. simpl. by rewrite Hlen.
    + unfold Get, A, appended. simpl. change (getKey _ key) with (getKey d key).
      rewrite lookup_insert_eq. simpl. by rewrite list_lookup_middle.
  - intros Hge.
    assert (Hc : index_complete A) by (apply appended_complete; [apply Hwf|done..]).
    assert (Hnone : store (maybeCompact A) !! getKey d key = None).
    { destruct (_ !! getKey d key) as [j|] eqn:Hj; [|done]. exfalso.
      assert (Hs : index_sound (maybeCompact A))
        by (apply maybeCompact_sound_above; by rewrite Htomb).
      destruct (Hs _ _ Hj) as (it & Hit & Hk & Hl).
      assert (Hin : it ∈ Items (maybeCompact A)).
      { apply list_elem_of_filter. split; [done|]. by eapply list_elem_of_lookup_2. }
      rewrite HItems in Hin. apply list_elem_of_filter in Hin as [Hne _].
      apply Hne. rewrite <- Hk. symmetry. apply getKey_same_flag.
      apply (maybeCompact_flags A). }
    split_and!; [done| |].
    + assert (Hdef : default_value (maybeCompact A) = default_value d)
        by apply (maybeCompact_flags A).
      rewrite <- Hdef. apply Get_absent.
      rewrite (getKey_same_flag d (maybeCompact A)); [done|].
      apply (maybeCompact_flags A).
    + apply maybeCompact_restores; [done|by rewrite Htomb].
Qed.

(** [Update] of a key that has a live entry, with a value other than
    [&Deleted], changes no key and no position. *)
Lemma Update_keeps_Keys d key v idx :
  index_invariant d → store d !! getKey d key = Some idx → v ≠ PtrDeleted →
  ∃ d', Update d key v = Some d' ∧ Keys d' = Keys d ∧ Get d' key = Some (v, true).
Proof.
  intros [Hs _] Hidx Hv. destruct (Hs _ _ Hidx) as (it0 & Hit0 & Hk0 & Hl0).
  rewrite (Update_present d key v idx it0) by done.
  eexists. split_and!; [done|..].
  - unfold Keys, Items. simpl. by apply keys_live_overwrite.
  - unfold Get. simpl. change (getKey _ key) with (getKey d key). rewrite Hidx. simpl.
    by rewrite list_lookup_insert_eq by by eapply lookup_lt_Some.
Qed.

(** On a case-sensitive store [Delete] does what the data model says. *)
Lemma Delete_case_sensitive d key idx :
  case_insensitive d = false → index_invariant d → store d !! key = Some idx →
  ∃ d', Delete d key = Some d'
        ∧ index_invariant d'
        ∧ store d' !! key = None
        ∧ Get d' key = Some (default_value d, false)
        ∧ Len d' + 1 = Len d.
Proof.
  intros Hflag Hinv Hidx.
  assert (Hnorm : getKey d key = key) by (unfold getKey; by rewrite Hflag).
  destruct (Delete_normal d key Hinv Hnorm)
    as (d' & Hdel & Hinv' & Hstore & _ & Hflag' & Hdef).
  exists d'. split_and!; [done|done|..].
  - by rewrite Hstore, lookup_delete_eq.
  - rewrite <- Hdef. apply Get_absent.
    rewrite (getKey_same_flag d d') by done.
    by rewrite Hnorm, Hstore, lookup_delete_eq.
  - unfold Len. rewrite Hstore, map_size_delete_Some by done.
    assert (size (store d) ≠ 0); [|lia].
    intros Hz. apply map_size_empty_inv in Hz. by rewrite Hz in Hidx.
Qed.

(** The entries of a sequence are live or deleted. *)
Lemma length_live_deleted l :
  length (filter (λ it, IsDeleted it = false) l)
  + length (filter (λ it, IsDeleted it = true) l) = length l.
Proof.
  induction l as [|x l IH]; [done|].
  destruct (IsDeleted x) eqn:Hx.
  - rewrite filter_cons_False, filter_cons_True by (by rewrite Hx). simpl. lia.
  - rewrite filter_cons_True, filter_cons_False by (by rewrite Hx). simpl. lia.
Qed.

(** On a store that satisfies the invariant, what [maybeCompact] tests
    is the number of deleted entries. *)
Lemma deleted_entries_tombstones d :
  index_invariant d → Z.of_nat (deleted_entries d) = tombstones d.
Proof.
  intros [_ Hsize]. unfold deleted_entries, tombstones.
  pose proof (length_live_deleted (items d)) as Hlen.
  unfold Items in Hsize. lia.
Qed.

(** A compaction leaves no deleted entry. *)
Lemma deleted_entries_compacted d :
  (10 ≤ tombstones d)%Z → deleted_entries (maybeCompact d) = 0.
Proof.
  intros Hge. rewrite maybeCompact_above by done. unfold deleted_entries. simpl.
  rewrite (filter_none _ (Items d)); [done|].
  intros it [Hl _]%list_elem_of_filter. by rewrite Hl.
Qed.

End Observations.
(** * The claims of the specification *)

Section Claims.
Context {lib : GoLib}.
Implicit Types (d : Dict) (it : Item) (h : heap).

(** Every store is well formed: a new store is, and every operation keeps
    a store so, whatever key and value it is given ([Delete] of a key that
    is not in normal form relies on lowering being idempotent). *)
Theorem well_formed_kept d :
  well_formed d →
  (∀ key v, ∃ d', Set_ d key v = Some d' ∧ well_formed d')
  ∧ (∀ key v, ∃ d', Update d key v = Some d' ∧ well_formed d')
  ∧ (∀ key, getKey d key = key ∨ lower_idempotent →
       ∃ d', Delete d key = Some d' ∧ well_formed d')
  ∧ (∀ other, ∃ d', MergeFrom d other = Some d' ∧ well_formed d')
  ∧ well_formed (Copy d)
  ∧ (∀ v, well_formed (SetDefault d v))
  ∧ (∀ h self data, heap_invariant well_formed h → h !! self = Some d →
       ∃ h' dec' r d',
         UnmarshalJSON self h data = Returns ((h', dec'), r)
         ∧ h' !! self = Some d' ∧ well_formed d').
Proof.
  intros Hwf. split_and!.
  - intros key v. destruct (set_well_formed d key v Hwf) as (d' & ? & ? & _).
    by exists d'.
  - intros key v. destruct (Update_well_formed d key v Hwf) as (d' & ? & ? & _).
    by exists d'.
  - intros key Hkey. destruct (Delete_well_formed d key Hwf Hkey) as (d' & ? & ? & _).
    by exists d'.
  - intros other. by apply MergeFrom_well_formed.
  - by rewrite Copy_eq.
  - done.
  - intros h self data Hh Hself.
    assert (Hlt : self < length h) by by eapply lookup_lt_Some.
    destruct (UnmarshalJSON_safe well_formed
                (index_invariant_well_formed _ index_invariant_NewDict)
                set_well_formed_live self h data Hh Hlt)
      as (h' & dec' & r & Hrun & Hh' & Hlen).
    destruct (lookup_lt_is_Some_2 h' self) as [d' Hd']; [lia|].
    exists h', dec', r, d'. split_and!; [done..|].
    by eapply (proj1 (Forall_lookup _ _) Hh').
Qed.

(** [Delete] of a present key that is not itself in the index, as
    happens on a case-insensitive store for a key that is not lower case,
    tombstones the entry and leaves the index as it is: the key is still
    found, with the marker for a value, and still counted. *)
Lemma Delete_raw_key d key idx :
  well_formed d → store d !! getKey d key = Some idx → store d !! key = None →
  ∃ d', Delete d key = Some d'
        ∧ store d' = store d
        ∧ (IsDeleted <$> items d' !! idx) = Some true
        ∧ Get d' key = Some (PtrDeleted, true)
        ∧ Len d' = Len d.
Proof.
  intros [Hf _] Hidx Hraw. destruct (Hf _ _ Hidx) as (it0 & Hit0 & _).
  assert (Hlt : idx < length (items d)) by by eapply lookup_lt_Some.
  rewrite (Delete_present d key idx it0) by done.
  eexists. split; [done|]. simpl.
  assert (Hstore : delete key (store d) = store d) by by apply delete_id.
  split_and!.
  - done.
  - by rewrite list_lookup_insert_eq.
  - unfold Get. simpl.
    change (getKey (with_items (with_store d (delete key (store d))) _) key)
      with (getKey d key).
    rewrite Hstore, Hidx. simpl. by rewrite list_lookup_insert_eq.
  - unfold Len. simpl. by rewrite Hstore.
Qed.

(** C2 (amended).  The invariant of the data model, sound index mappings
    and as many live entries as index mappings, holds of [NewDict()] and
    is kept by [Set] and [Update] with a value other than [&Deleted], by
    [Delete] of a key that is its own normalised form (every key on a
    case-sensitive store), by [MergeFrom], by [Copy] and by decoding,
    none of which panics. *)
Theorem C2_index_invariant_kept d :
  index_invariant d →
  (∀ key v, v ≠ PtrDeleted → ∃ d', Set_ d key v = Some d' ∧ index_invariant d')
  ∧ (∀ key v, v ≠ PtrDeleted → ∃ d', Update d key v = Some d' ∧ index_invariant d')
  ∧ (∀ key, getKey d key = key → ∃ d', Delete d key = Some d' ∧ index_invariant d')
  ∧ (∀ other, ∃ d', MergeFrom d other = Some d' ∧ index_invariant d')
  ∧ index_invariant (Copy d)
  ∧ (∀ h self data, heap_invariant index_invariant h → h !! self = Some d →
       ∃ h' dec' r d',
         UnmarshalJSON self h data = Returns ((h', dec'), r)
         ∧ h' !! self = Some d' ∧ index_invariant d').
Proof.
  intros Hinv. split_and!.
  - intros key v Hv. by apply set_invariant.
  - intros key v Hv. by apply Update_invariant.
  - intros key Hkey.
    destruct (Delete_normal d key Hinv Hkey) as (d' & ? & ? & _). by exists d'.
  - intros other. by apply MergeFrom_invariant.
  - by rewrite Copy_eq.
  - intros h self data Hh Hself.
    assert (Hlt : self < length h) by by eapply lookup_lt_Some.
    destruct (UnmarshalJSON_safe index_invariant index_invariant_NewDict
                set_invariant self h data Hh Hlt)
      as (h' & dec' & r & Hrun & Hh' & Hlen).
    destruct (lookup_lt_is_Some_2 h' self) as [d' Hd']; [lia|].
    exists h', dec', r, d'. split_and!; [done..|].
    by eapply (proj1 (Forall_lookup _ _) Hh').
Qed.

(** C3 (code defect).  [MarshalJSON] drops the last byte of the buffer
    whenever [self.items] is not empty, also when the loop wrote no pair.
    After [Set("a", 1); Delete("a")] the store has no live item but one
    entry: the buffer is the opening brace alone, the brace is dropped
    and the output is the closing brace alone, which is no document.  The
    same happens to a store whose one pair refers back to the store.  An
    empty store gives the empty object. *)
Theorem C3_MarshalJSON_closing_brace_only (fuel : nat) :
  ∃ d1 d2 h,
    Set_ NewDict "a" (VInt 1) = Some d1
    ∧ Delete d1 "a" = Some d2
    ∧ Len d2 = 0 ∧ Items d2 = [] ∧ length (items d2) = 1
    ∧ MarshalJSON (S fuel) [d2] 0 = Returns ("}", None)
    ∧ String_ (S fuel) [d2] 0 = Returns "}"
    ∧ Set_at [NewDict] 0 "self" (VDict 0) = Returns h
    ∧ MarshalJSON (S fuel) h 0 = Returns ("}", None)
    ∧ MarshalJSON (S fuel) [NewDict] 0 = Returns ("{}", None).
Proof.
  exists {| items := [{| Key := "a"; Value := VInt 1 |}]; store := {["a" := 0]};
            case_insensitive := false; default_value := VNil |},
         {| items := [{| Key := "a"; Value := PtrDeleted |}]; store := ∅;
            case_insensitive := false; default_value := VNil |},
         [{| items := [{| Key := "self"; Value := VDict 0 |}]; store := {["self" := 0]};
             case_insensitive := false; default_value := VNil |}].
  split_and!; try reflexivity.
  simpl. destruct (json_Marshal_scalar _); reflexivity.
Qed.

(** C4 (amended).  On a case-insensitive store lookups fold case: after
    [Set(k1, v1)], [Get(k2)] hits with [v1] for every [k2] that lowers
    like [k1], and [Keys()] ends with [k1] as it was spelled.  A later
    [Set(k2, v2)] under another casing replaces the entry: [Keys()] then
    reports the casing of the latest [Set], [k2], not the first. *)
Theorem C4_case_folding_and_latest_casing d k1 k2 v1 v2 :
  well_formed d → case_insensitive d = true →
  strings_ToLower k1 = strings_ToLower k2 →
  v1 ≠ PtrDeleted → v2 ≠ PtrDeleted →
  ∃ d1 d2,
    Set_ d k1 v1 = Some d1
    ∧ Get d1 k2 = Some (v1, true)
    ∧ Keys d1 = (Key <$> others d (strings_ToLower k1)) ++ [k1]
    ∧ Set_ d1 k2 v2 = Some d2
    ∧ Get d2 k1 = Some (v2, true)
    ∧ Keys d2 = (Key <$> others d (strings_ToLower k1)) ++ [k2].
Proof.
  intros Hinv Hflag Hk Hv1 Hv2.
  assert (Hnorm : ∀ k, getKey d k = strings_ToLower k)
    by (intros k; unfold getKey; by rewrite Hflag).
  destruct (Set_observed d k1 v1 Hinv Hv1)
    as (d1 & Hset1 & Hinv1 & Hflag1 & HItems1 & HKeys1 & HGet1).
  destruct (Set_observed d1 k2 v2 Hinv1 Hv2)
    as (d2 & Hset2 & Hinv2 & Hflag2 & HItems2 & HKeys2 & HGet2).
  exists d1, d2. rewrite Hnorm in HKeys1.
  split_and!; [done| |done|done| |].
  - apply HGet1. by rewrite !Hnorm.
  - apply HGet2. rewrite !(getKey_same_flag d d1), !Hnorm by done. done.
  - rewrite HKeys2. do 2 f_equal.
    rewrite (others_after_Set d d1 k1 v1) by done.
    rewrite (getKey_same_flag d d1), !Hnorm, <- Hk by done.
    rewrite filter_app, others_idemp.
    rewrite filter_cons_False; [by rewrite filter_nil, app_nil_r|].
    simpl. rewrite Hnorm. by intros H.
Qed.

(** C5 (amended).  Right after an append, [Set] or [Update] of an
    absent key, of a value other than [&Deleted] to a store that
    satisfies the invariant, the store holds at most 9 deleted entries and
    satisfies the invariant again; after an append to any well-formed
    store the count that the compaction check tests,
    [len(items) - len(store)], is at most 9.  The check runs after
    every append: it leaves the store alone while the count is below 10
    and otherwise keeps just the live entries, in their order, with a
    rebuilt index, which leaves no deleted entry.  [Delete] never
    compacts: it keeps every entry and the count does not go down. *)
Theorem C5_compaction_after_append d key v :
  well_formed d →
  (index_invariant d → v ≠ PtrDeleted →
     ∃ d', Set_ d key v = Some d'
           ∧ index_invariant d'
           ∧ Z.of_nat (deleted_entries d') = tombstones d'
           ∧ deleted_entries d' ≤ 9)
  ∧ (index_invariant d → v ≠ PtrDeleted → store d !! getKey d key = None →
       ∃ d', Update d key v = Some d'
             ∧ index_invariant d'
             ∧ Z.of_nat (deleted_entries d') = tombstones d'
             ∧ deleted_entries d' ≤ 9)
  ∧ (∃ d', Set_ d key v = Some d' ∧ (tombstones d' ≤ 9)%Z)
  ∧ (store d !! getKey d key = None →
       ∃ d', Update d key v = Some d' ∧ (tombstones d' ≤ 9)%Z)
  ∧ ((tombstones d < 10)%Z → maybeCompact d = d)
  ∧ ((10 ≤ tombstones d)%Z →
       items (maybeCompact d) = Items d
       ∧ Items (maybeCompact d) = Items d
       ∧ index_invariant (maybeCompact d)
       ∧ tombstones (maybeCompact d) = 0%Z
       ∧ deleted_entries (maybeCompact d) = 0)
  ∧ (∀ d', Delete d key = Some d' →
       length (items d') = length (items d) ∧ (tombstones d ≤ tombstones d')%Z).
Proof.
  intros Hwf. pose proof Hwf as [Hf Hc].
  destruct (set_well_formed d key v Hwf) as (d' & Hset & _ & Hle & _).
  assert (Hlive : index_invariant d → v ≠ PtrDeleted →
            index_invariant d' ∧ Z.of_nat (deleted_entries d') = tombstones d'
            ∧ deleted_entries d' ≤ 9).
  { intros Hinv Hv. destruct (set_invariant d key v Hinv Hv) as (d2 & Hset2 & Hinv2).
    rewrite Hset in Hset2. injection Hset2 as <-.
    pose proof (deleted_entries_tombstones d' Hinv2) as Hcount.
    split_and!; [done|done|lia]. }
  split_and!.
  - intros Hinv Hv. exists d'. split; [done|]. by apply Hlive.
  - intros Hinv Hv Habsent. exists d'. rewrite Update_absent by done.
    split; [done|]. by apply Hlive.
  - by exists d'.
  - intros Habsent. exists d'. by rewrite Update_absent.
  - apply maybeCompact_below.
  - intros Hge. split_and!.
    + by rewrite maybeCompact_above.
    + apply Items_maybeCompact.
    + by apply maybeCompact_restores.
    + by apply tombstones_compacted.
    + by apply deleted_entries_compacted.
  - apply Delete_no_compaction.
Qed.

(** C6 (amended).  Setting a key with a value other than [&Deleted],
    by [Set] or by a member met while decoding, leaves the live entries of
    the other keys in their order and puts the key last; decoding an
    object of scalar members is calling [Set] for each member in turn.
    So [Set(k, v1); Set(other, v2); Set(k, v3)] and the document
    [{k: t1, other: t2, k: t3}] both give [Keys() == [other, k]]. *)
Theorem C6_set_moves_key_to_end :
  (∀ d key v, well_formed d → v ≠ PtrDeleted →
     ∃ d', Set_ d key v = Some d'
           ∧ Items d' = others d (getKey d key) ++ [{| Key := key; Value := v |}]
           ∧ Keys d' = (Key <$> others d (getKey d key)) ++ [key])
  ∧ (∀ k other v1 v2 v3,
       k ≠ other → v1 ≠ PtrDeleted → v2 ≠ PtrDeleted → v3 ≠ PtrDeleted →
       ∃ d1 d2 d3,
         Set_ NewDict k v1 = Some d1 ∧ Set_ d1 other v2 = Some d2
         ∧ Set_ d2 k v3 = Some d3
         ∧ Keys d3 = [other; k] ∧ Values d3 = [v2; v3])
  ∧ (∀ ms l self h d d',
       h !! self = Some d → Forall2 decodes_to ms l → set_all d l = Some d' →
       UnmarshalJSON self h
         (inl (TDelim "{") :: (ms ≫= member_tokens) ++ [inl (TDelim "}")])
       = Returns ((<[self := d']> h, []), inr ()))
  ∧ (∀ k other t1 t2 t3 v1 v2 v3,
       k ≠ other →
       scalar_value t1 = Some v1 → scalar_value t2 = Some v2 →
       scalar_value t3 = Some v3 →
       ∃ d',
         UnmarshalJSON 0 [NewDict]
           [inl (TDelim "{"); inl (TString k); inl t1; inl (TString other); inl t2;
            inl (TString k); inl t3; inl (TDelim "}")]
         = Returns (([d'], []), inr ())
         ∧ Keys d' = [other; k] ∧ Values d' = [v2; v3]).
Proof.
  assert (Hnew : well_formed NewDict)
    by apply index_invariant_well_formed, index_invariant_NewDict.
  assert (Hthree : ∀ k other v1 v2 v3,
    k ≠ other → v1 ≠ PtrDeleted → v2 ≠ PtrDeleted → v3 ≠ PtrDeleted →
    ∃ d1 d2 d3,
      Set_ NewDict k v1 = Some d1 ∧ Set_ d1 other v2 = Some d2
      ∧ Set_ d2 k v3 = Some d3
      ∧ Items d3 = [{| Key := other; Value := v2 |}; {| Key := k; Value := v3 |}]).
  { intros k other v1 v2 v3 Hne Hv1 Hv2 Hv3.
    destruct (Set_observed NewDict k v1 Hnew Hv1)
      as (d1 & Hset1 & Hinv1 & Hflag1 & HItems1 & _).
    destruct (Set_observed d1 other v2 Hinv1 Hv2)
      as (d2 & Hset2 & Hinv2 & Hflag2 & HItems2 & _).
    destruct (Set_observed d2 k v3 Hinv2 Hv3)
      as (d3 & Hset3 & Hinv3 & Hflag3 & HItems3 & _).
    simpl in Hflag1. rewrite Hflag1 in Hflag2.
    assert (Hk1 : ∀ x, getKey d1 x = x) by (intros x; unfold getKey; by rewrite Hflag1).
    assert (Hk2 : ∀ x, getKey d2 x = x) by (intros x; unfold getKey; by rewrite Hflag2).
    exists d1, d2, d3. split_and!; [done..|].
    rewrite HItems3, Hk2, (others_case_sensitive d2) by done.
    rewrite HItems2, Hk1, (others_case_sensitive d1) by done.
    rewrite HItems1. unfold others. simpl.
    rewrite filter_cons_True by done. rewrite filter_nil. simpl.
    rewrite filter_cons_False by (simpl; by intros H).
    rewrite filter_cons_True by (simpl; congruence). done. }
  split_and!.
  - intros d key v Hinv Hv.
    destruct (Set_observed d key v Hinv Hv) as (d' & ? & _ & _ & ? & ? & _).
    by exists d'.
  - intros k other v1 v2 v3 Hne Hv1 Hv2 Hv3.
    destruct (Hthree k other v1 v2 v3) as (d1 & d2 & d3 & ? & ? & ? & HItems); [done..|].
    exists d1, d2, d3. unfold Keys, Values. rewrite HItems. by split_and!.
  - intros ms l self h d d'. apply UnmarshalJSON_members.
  - intros k other t1 t2 t3 v1 v2 v3 Hne Ht1 Ht2 Ht3.
    destruct (Hthree k other v1 v2 v3) as (d1 & d2 & d3 & H1 & H2 & H3 & HItems);
      [done|by eapply scalar_value_live..|].
    exists d3. unfold Keys, Values. rewrite HItems. split; [|done].
    apply (UnmarshalJSON_members
             [(k, t1); (other, t2); (k, t3)] 0 [NewDict] NewDict d3
             [{| Key := k; Value := v1 |}; {| Key := other; Value := v2 |};
              {| Key := k; Value := v3 |}]); [done| |].
    + repeat constructor; done.
    + rewrite set_all_cons. simpl. rewrite H1.
      rewrite set_all_cons. simpl. rewrite H2.
      rewrite set_all_cons. simpl. by rewrite H3.
Qed.

(** Decoding the document [{key: t}], [t] a scalar token, into an empty
    store. *)
Lemma decode_member key t v :
  scalar_value t = Some v →
  ∃ d',
    UnmarshalJSON 0 [NewDict]
      [inl (TDelim "{"); inl (TString key); inl t; inl (TDelim "}")]
    = Returns (([d'], []), inr ())
    ∧ Get d' key = Some (v, true) ∧ Keys d' = [key].
Proof.
  intros Ht. pose proof (scalar_value_live t v Ht) as Hv.
  destruct (Set_observed NewDict key v
              (index_invariant_well_formed _ index_invariant_NewDict) Hv)
    as (d' & Hset & _ & _ & _ & HKeys & HGet).
  exists d'. split_and!.
  - apply (UnmarshalJSON_members [(key, t)] 0 [NewDict] NewDict d'
             [{| Key := key; Value := v |}]); [done| |].
    + repeat constructor; done.
    + rewrite set_all_cons. simpl. by rewrite Hset.
  - by apply HGet.
  - by rewrite HKeys.
Qed.

(** C7.  A numeric token is tried as an unsigned 64-bit integer, then as
    a signed one, then as a float, and the first parse that succeeds
    gives the value; if none does, [handledelim] returns an error.  The
    numeral 18446744073709551615 decodes as an unsigned integer, and so
    does 5, which fits both integer kinds; -5 decodes as a signed
    integer; 3.14 is no integer of either kind and decodes as the float
    [strconv.ParseFloat] makes of it. *)
Theorem C7_numeric_tokens :
  (∀ s n st,
     handledelim (S n) (TNumber s) st
     = Returns (st,
         match strconv_ParseUint s with
         | Some u => inr (VUint64 u)
         | None =>
             match strconv_ParseInt s with
             | Some i => inr (VInt64 i)
             | None =>
                 match strconv_ParseFloat s with
                 | Some f => inr (VFloat64 f)
                 | None => inl (ErrUnexpectedToken (TNumber s))
                 end
             end
         end))
  ∧ (∀ key, ∃ d',
       UnmarshalJSON 0 [NewDict]
         [inl (TDelim "{"); inl (TString key);
          inl (TNumber "18446744073709551615"); inl (TDelim "}")]
       = Returns (([d'], []), inr ())
       ∧ Get d' key = Some (VUint64 18446744073709551615, true))
  ∧ (∀ key, ∃ d',
       UnmarshalJSON 0 [NewDict]
         [inl (TDelim "{"); inl (TString key); inl (TNumber "5"); inl (TDelim "}")]
       = Returns (([d'], []), inr ())
       ∧ Get d' key = Some (VUint64 5, true))
  ∧ (∀ key, ∃ d',
       UnmarshalJSON 0 [NewDict]
         [inl (TDelim "{"); inl (TString key); inl (TNumber "-5"); inl (TDelim "}")]
       = Returns (([d'], []), inr ())
       ∧ Get d' key = Some (VInt64 (-5), true))
  ∧ (∀ key f, strconv_ParseFloat "3.14" = Some f →
       ∃ d',
         UnmarshalJSON 0 [NewDict]
           [inl (TDelim "{"); inl (TString key); inl (TNumber "3.14"); inl (TDelim "}")]
         = Returns (([d'], []), inr ())
         ∧ Get d' key = Some (VFloat64 f, true)).
Proof.
  split_and!.
  - intros s n st. rewrite handledelim_S. unfold handledelim_body, handle_number.
    by repeat case_match.
  - intros key. destruct (decode_member key (TNumber "18446744073709551615")
                              (VUint64 18446744073709551615)) as (d' & ? & ? & _).
    { vm_compute. reflexivity. }
    exists d'. split; assumption.
  - intros key. destruct (decode_member key (TNumber "5") (VUint64 5))
      as (d' & ? & ? & _); [vm_compute; reflexivity|].
    exists d'. split; assumption.
  - intros key. destruct (decode_member key (TNumber "-5") (VInt64 (-5)))
      as (d' & ? & ? & _); [vm_compute; reflexivity|].
    exists d'. split; assumption.
  - intros key f Hf. destruct (decode_member key (TNumber "3.14") (VFloat64 f))
      as (d' & ? & ? & _); [|exists d'; split; assumption].
    simpl. unfold handle_number.
    change (strconv_ParseUint "3.14") with (@None Z).
    change (strconv_ParseInt "3.14") with (@None Z). rewrite Hf. reflexivity.
Qed.

(** C8.  A string token of at least 20 bytes whose byte at offset 10 is
    [T] is tried as an RFC 3339 timestamp: where [time.Parse] succeeds the
    decoded value is the timestamp, where it fails the value is the
    string itself; every other string is decoded as itself. *)
Theorem C8_timestamp_heuristic s :
  (looks_like_timestamp s = true
     ↔ 20 ≤ String.length s ∧ String.get 10 s = Some "T"%char)
  ∧ (∀ n st, handledelim (S n) (TString s) st = Returns (st, inr (handle_string s)))
  ∧ (∀ t, looks_like_timestamp s = true → time_Parse_RFC3339 s = Some t →
       handle_string s = VTime t
       ∧ ∀ key, ∃ d',
           UnmarshalJSON 0 [NewDict]
             [inl (TDelim "{"); inl (TString key); inl (TString s); inl (TDelim "}")]
           = Returns (([d'], []), inr ())
           ∧ Get d' key = Some (VTime t, true))
  ∧ (looks_like_timestamp s = true → time_Parse_RFC3339 s = None →
       handle_string s = VString s)
  ∧ (looks_like_timestamp s = false → handle_string s = VString s)
  ∧ (∀ key, handle_string s = VString s →
       ∃ d',
         UnmarshalJSON 0 [NewDict]
           [inl (TDelim "{"); inl (TString key); inl (TString s); inl (TDelim "}")]
         = Returns (([d'], []), inr ())
         ∧ Get d' key = Some (VString s, true)).
Proof.
  split_and!.
  - unfold looks_like_timestamp.
    rewrite andb_true_iff, Nat.leb_le, bool_decide_eq_true. done.
  - intros n st. by rewrite handledelim_S.
  - intros t Hlooks Hparse.
    assert (Hs : handle_string s = VTime t)
      by (unfold handle_string; by rewrite Hlooks, Hparse).
    split; [done|]. intros key.
    destruct (decode_member key (TString s) (VTime t)) as (d' & ? & ? & _).
    { simpl. by rewrite Hs. }
    by exists d'.
  - intros Hlooks Hparse. unfold handle_string. by rewrite Hlooks, Hparse.
  - intros Hlooks. unfold handle_string. by rewrite Hlooks.
  - intros key Hs.
    destruct (decode_member key (TString s) (VString s)) as (d' & ? & ? & _).
    { simpl. by rewrite Hs. }
    by exists d'.
Qed.

(** C9.  [MarshalJSON] of a store returns, with a nil error, whenever
    [json.Marshal] returns on the values that are not the store itself:
    a pair whose value is the store is skipped before its value is
    encoded, and the output is made of the buffer that the other pairs
    alone give.  More fuel gives the same output. *)
Theorem C9_self_reference_skipped fuel h self d :
  h !! self = Some d →
  (∀ it, it ∈ Items d → back_reference self it = false →
         ∃ r, json_Marshal fuel h (Value it) = Returns r) →
  ∃ buf,
    marshal_items (json_Marshal fuel h) self
      (filter (λ it, back_reference self it = false) (Items d)) "{" = Returns buf
    ∧ ∀ fuel', fuel < fuel' →
        MarshalJSON fuel' h self
        = Returns ((if 0 <? length (items d) then truncate_last buf else buf) +:+ "}",
                   None).
Proof.
  intros Hd Hvalues.
  destruct (marshal_items_returns (json_Marshal fuel h) self (Items d) "{" Hvalues)
    as [buf Hbuf].
  exists buf. split.
  - by rewrite <- marshal_items_back_reference.
  - intros fuel' Hlt. apply (MarshalJSON_fuel_mono (S fuel)); [lia|].
    by rewrite (MarshalJSON_S _ _ _ d), Hbuf.
Qed.

(** C10 (amended).  [Set(k, &Deleted)] leaves no live entry for [k]:
    [Keys()], [Items()] and [Values()] hold only the live entries of the
    other keys.  While fewer than 10 tombstones are outstanding after the
    append, the index maps [k] to the new entry: [Get(k)] returns
    [&Deleted] with [found = true] and [Len()] counts the key.  When the
    append brings the count to 10 the same call compacts: the entry and
    its index mapping are dropped, [Get(k)] misses and [Len()] is the
    number of live entries. *)
Theorem C10_Set_Deleted_marker d key :
  well_formed d →
  ∃ d',
    Set_ d key PtrDeleted = Some d'
    ∧ Items d' = others d (getKey d key)
    ∧ Keys d' = Key <$> others d (getKey d key)
    ∧ Values d' = Value <$> others d (getKey d key)
    ∧ (∀ it, it ∈ Items d' → getKey d (Key it) ≠ getKey d key)
    ∧ ((tombstones_after_set d key < 10)%Z →
         Get d' key = Some (PtrDeleted, true)
         ∧ store d' !! getKey d key = Some (length (items d))
         ∧ Len d' = size (<[getKey d key := length (items d)]> (store d))
         ∧ (index_invariant d → Len d' = length (Items d') + 1))
    ∧ ((10 ≤ tombstones_after_set d key)%Z →
         Get d' key = Some (default_value d, false)
         ∧ store d' !! getKey d key = None
         ∧ Len d' = length (Items d')).
Proof.
  intros Hwf.
  destruct (Set_deleted_observed d key Hwf)
    as (d' & Hset & _ & HItems & Hbelow & Habove).
  exists d'. unfold Keys, Values. rewrite HItems. split_and!; [done..| | |].
  - by intros it [? _]%list_elem_of_filter.
  - intros Hlt. destruct (Hbelow Hlt) as (_ & Hstore & HGet).
    unfold Len. rewrite Hstore. split_and!; [done|by rewrite lookup_insert_eq|done|].
    intros Hinv. pose proof (others_length d (getKey d key) Hinv) as Hlen.
    rewrite map_size_insert. destruct (store d !! getKey d key); simpl; lia.
  - intros Hge. destruct (Habove Hge) as (Hnone & HGet & [_ Hsize]).
    split_and!; [done..|]. unfold Len. by rewrite <- Hsize, HItems.
Qed.

End Claims.

(** * Further properties of the code *)

(** ** Stores that calls build *)

Section Built.
Context {lib : GoLib}.
Implicit Types (d : Dict) (l : list Item) (it : Item).

(** Index mappings stay in range under every call, whatever the keys
    and values. *)
Lemma set_fair d key v : index_fair d → ∃ d', set d key v = Some d' ∧ index_fair d'.
Proof.
  intros Hf. destruct (store d !! getKey d key) as [idx|] eqn:Hidx.
  - destruct (Hf _ _ Hidx) as (it0 & Hit0 & _).
    rewrite (set_present d key v idx it0) by done.
    eexists. split; [done|]. apply maybeCompact_fair, appended_fair; [done|].
    intros i it Hi. destruct (decide (i = idx)) as [->|Hne].
    + exists (tombstone it0). rewrite list_lookup_insert_eq by by eapply lookup_lt_Some.
      split; [done|]. simpl. congruence.
    + exists it. by rewrite list_lookup_insert_ne.
  - rewrite set_absent by done. eexists. split; [done|].
    apply maybeCompact_fair, appended_fair; [done|]. intros i it Hi. by exists it.
Qed.

Lemma Update_fair d key v : index_fair d → ∃ d', Update d key v = Some d' ∧ index_fair d'.
Proof.
  intros Hf. destruct (store d !! getKey d key) as [idx|] eqn:Hidx.
  - destruct (Hf _ _ Hidx) as (it0 & Hit0 & _).
    rewrite (Update_present d key v idx it0) by done.
    eexists. split; [done|]. intros nk i Hi. simpl in Hi.
    destruct (Hf _ _ Hi) as (it & Hit & Hk).
    destruct (decide (i = idx)) as [->|Hne].
    + exists {| Key := Key it0; Value := v |}. simpl.
      rewrite list_lookup_insert_eq by by eapply lookup_lt_Some.
      split; [done|]. change (getKey d (Key it0) = nk). congruence.
    + exists it. simpl. by rewrite list_lookup_insert_ne.
  - rewrite Update_absent by done. by apply set_fair.
Qed.

Lemma Delete_fair d key : index_fair d → ∃ d', Delete d key = Some d' ∧ index_fair d'.
Proof.
  intros Hf. destruct (store d !! getKey d key) as [idx|] eqn:Hidx.
  - destruct (Hf _ _ Hidx) as (it0 & Hit0 & _).
    rewrite (Delete_present d key idx it0) by done.
    eexists. split; [done|]. intros nk i Hi. simpl in Hi.
    apply lookup_delete_Some in Hi as [_ Hi].
    destruct (Hf _ _ Hi) as (it & Hit & Hk).
    destruct (decide (i = idx)) as [->|Hne].
    + exists (tombstone it0). simpl.
      rewrite list_lookup_insert_eq by by eapply lookup_lt_Some.
      split; [done|]. change (getKey d (Key it0) = nk). congruence.
    + exists it. simpl. by rewrite list_lookup_insert_ne.
  - rewrite Delete_absent by done. by exists d.
Qed.

Lemma set_all_fair d l : index_fair d → ∃ d', set_all d l = Some d' ∧ index_fair d'.
Proof.
  revert d. induction l as [|x l IH]; intros d Hf; [by exists d|].
  rewrite set_all_cons.
  destruct (set_fair d (Key x) (Value x) Hf) as (d1 & Hset & Hf1).
  unfold Set_. rewrite Hset. by apply IH.
Qed.

Lemma index_fair_empty flag v :
  index_fair {| items := []; store := ∅; case_insensitive := flag; default_value := v |}.
Proof. intros nk i Hi. by simpl in Hi. Qed.

Lemma run_call_fair d c : index_fair d → ∃ d', run_call d c = Some d' ∧ index_fair d'.
Proof.
  intros Hf. destruct c as [key v|key v|key|other|v| |]; simpl.
  - by apply set_fair.
  - by apply Update_fair.
  - by apply Delete_fair.
  - by apply set_all_fair.
  - by exists (SetDefault d v).
  - apply set_all_fair, index_fair_empty.
  - exists (Copy d). by rewrite Copy_eq.
Qed.

Lemma run_calls_fair cs : ∀ d,
  index_fair d → ∃ d', run_calls d cs = Some d' ∧ index_fair d'.
Proof.
  induction cs as [|c cs IH]; intros d Hf; [by exists d|].
  destruct (run_call_fair d c Hf) as (d1 & Hrun & Hf1).
  destruct (IH d1 Hf1) as (d' & Hruns & Hf').
  exists d'. split; [|done]. unfold run_calls in *. simpl. by rewrite Hrun.
Qed.

Lemma Get_in_range d key : index_fair d → is_Some (Get d key).
Proof.
  intros Hf. unfold Get. destruct (store d !! getKey d key) as [idx|] eqn:Hidx; [|done].
  destruct (Hf _ _ Hidx) as (it & -> & _). done.
Qed.

End Built.

Section BuiltGetters.
Context {lib : GoLib} {rt : GoRuntime}.
Implicit Types (d : Dict).

(** X1.  No sequence of calls of [Set], [Update], [Delete], [MergeFrom],
    [SetDefault], [SetCaseInsensitive] and [Copy] on a new store
    panics, with any keys and values, the marker [&Deleted] and keys of
    any casing among them; and on the store they leave, [Get] and the
    typed getters index no entry out of range. *)
Theorem X1_calls_never_panic (cs : list call) :
  ∃ d,
    run_calls NewDict cs = Some d
    ∧ ∀ key, is_Some (Get d key) ∧ is_Some (GetString d key)
             ∧ is_Some (GetBool d key) ∧ is_Some (GetStrings d key)
             ∧ is_Some (GetInt64 d key).
Proof.
  destruct (run_calls_fair cs NewDict (index_fair_empty false VNil)) as (d & Hrun & Hf).
  exists d. split; [done|]. intros key.
  destruct (Get_in_range d key Hf) as [[v pres] HGet].
  unfold GetString, GetBool, GetStrings, GetInt64. rewrite HGet. simpl.
  split_and!; [done|..].
  - destruct pres; [|done]. by destruct (to_string v) as [? []].
  - destruct pres; [|done]. by destruct v.
  - destruct pres; [|done]. by destruct v.
  - destruct pres; [|done]. by destruct v.
Qed.

End BuiltGetters.

(** ** Lookups *)

Section Lookups.
Context {lib : GoLib}.
Implicit Types (d : Dict) (l : list Item) (it : Item).

Lemma live_unique d it it' :
  index_complete d → it ∈ Items d → it' ∈ Items d →
  getKey d (Key it) = getKey d (Key it') → it = it'.
Proof.
  intros Hc [Hl [i Hi]%list_elem_of_lookup]%list_elem_of_filter
            [Hl' [j Hj]%list_elem_of_lookup]%list_elem_of_filter Hk.
  pose proof (Hc _ _ Hi Hl) as Hsi. pose proof (Hc _ _ Hj Hl') as Hsj.
  rewrite Hk in Hsi. congruence.
Qed.

Lemma Get_cases d key :
  index_invariant d →
  (∃ it, it ∈ Items d ∧ getKey d (Key it) = getKey d key
         ∧ Get d key = Some (Value it, true))
  ∨ ((∀ it, it ∈ Items d → getKey d (Key it) ≠ getKey d key)
     ∧ Get d key = Some (default_value d, false)).
Proof.
  intros Hinv. pose proof (index_invariant_complete d Hinv) as Hc.
  destruct Hinv as [Hs _].
  destruct (store d !! getKey d key) as [idx|] eqn:Hidx.
  - left. destruct (Hs _ _ Hidx) as (it & Hit & Hk & Hl). exists it. split_and!.
    + apply list_elem_of_filter. split; [done|]. by eapply list_elem_of_lookup_2.
    + done.
    + unfold Get. by rewrite Hidx, Hit.
  - right. split; [|by apply Get_absent].
    intros it [Hl [i Hi]%list_elem_of_lookup]%list_elem_of_filter Hk.
    pose proof (Hc _ _ Hi Hl) as Hsi. congruence.
Qed.

(** Two stores with the same live entries for a key answer [Get] alike. *)
Lemma Get_ext d d' key :
  index_invariant d → index_invariant d' →
  case_insensitive d' = case_insensitive d → default_value d' = default_value d →
  (∀ it, getKey d (Key it) = getKey d key → it ∈ Items d' ↔ it ∈ Items d) →
  Get d' key = Get d key.
Proof.
  intros Hinv Hinv' Hflag Hdef Hsame.
  pose proof (index_invariant_complete d Hinv) as Hc.
  assert (Hk : ∀ k, getKey d' k = getKey d k) by (intros k; by apply getKey_same_flag).
  destruct (Get_cases d key Hinv) as [(it & Hin & Hkey & HGet)|[Hnone HGet]];
    destruct (Get_cases d' key Hinv') as [(it' & Hin' & Hkey' & HGet')|[Hnone' HGet']];
    rewrite HGet, HGet'.
  - rewrite !Hk in Hkey'. apply Hsame in Hin'; [|done].
    assert (it = it') as -> by (apply (live_unique d); [done..|congruence]). done.
  - apply Hsame in Hin; [|done]. destruct (Hnone' it Hin). by rewrite !Hk.
  - rewrite !Hk in Hkey'. apply Hsame in Hin'; [|done]. by destruct (Hnone it').
  - by rewrite Hdef.
Qed.

Lemma Get_found_iff d key v :
  index_invariant d →
  Get d key = Some (v, true)
  ↔ ∃ it, it ∈ Items d ∧ getKey d (Key it) = getKey d key ∧ Value it = v.
Proof.
  intros Hinv. pose proof (index_invariant_complete d Hinv) as Hc.
  destruct (Get_cases d key Hinv) as [(it & Hin & Hkey & HGet)|[Hnone HGet]];
    rewrite HGet; split.
  - intros [= <-]. by exists it.
  - intros (it' & Hin' & Hkey' & <-).
    assert (it = it') as -> by (apply (live_unique d); [done..|congruence]). done.
  - done.
  - intros (it & Hin & Hkey & _). by destruct (Hnone it).
Qed.

(** X2.  On a store that satisfies the invariant [Get] finds exactly the
    live entries: it returns [v] with [found = true] when the live entry
    whose key normalises like the key asked for holds [v], and the default
    value with [found = false] when no live entry has such a key. *)
Theorem X2_Get_finds_live_entries d key :
  index_invariant d →
  (∀ v, Get d key = Some (v, true)
        ↔ ∃ it, it ∈ Items d ∧ getKey d (Key it) = getKey d key ∧ Value it = v)
  ∧ (Get d key = Some (default_value d, false)
     ↔ ∀ it, it ∈ Items d → getKey d (Key it) ≠ getKey d key)
  ∧ (∀ v, Get d key = Some (v, false) → v = default_value d).
Proof.
  intros Hinv. split; [intros v; by apply Get_found_iff|].
  destruct (Get_cases d key Hinv) as [(it & Hin & Hkey & HGet)|[Hnone HGet]];
    rewrite HGet; split.
  - split; [done|]. intros Hnone. by destruct (Hnone it).
  - by intros v.
  - done.
  - by intros v [= <-].
Qed.

Lemma Keys_NoDup d :
  well_formed d → NoDup (getKey d <$> Keys d) ∧ NoDup (Key <$> Items d).
Proof.
  intros [_ Hc]. pose proof (index_complete_NoDup d Hc) as Hnd.
  unfold live_keys in Hnd. unfold Keys. rewrite <- list_fmap_compose.
  split; [done|]. eapply (NoDup_fmap_1 (getKey d)). by rewrite <- list_fmap_compose.
Qed.

(** X3.  [Keys()] of a well-formed store never reports a key twice, not
    even under two casings on a case-insensitive store: the keys of the
    live entries are pairwise distinct after normalisation. *)
Theorem X3_Keys_distinct d :
  well_formed d → NoDup (getKey d <$> Keys d) ∧ NoDup (Keys d).
Proof. apply Keys_NoDup. Qed.

End Lookups.

(** ** One call and the other keys *)

Section Frames.
Context {lib : GoLib}.
Implicit Types (d : Dict) (l : list Item) (it : Item).

(** [Set] with everything it is known to leave. *)
Lemma Set_live_full d key v :
  index_invariant d → v ≠ PtrDeleted →
  ∃ d', Set_ d key v = Some d'
        ∧ index_invariant d'
        ∧ case_insensitive d' = case_insensitive d
        ∧ default_value d' = default_value d
        ∧ Items d' = others d (getKey d key) ++ [{| Key := key; Value := v |}].
Proof.
  intros Hinv Hv. pose proof (index_invariant_well_formed d Hinv) as Hwf.
  destruct (set_invariant d key v Hinv Hv) as (d' & Hset & Hinv').
  destruct (set_well_formed d key v Hwf) as (d2 & Hset2 & _ & _ & Hflag & Hdef & HItems & _).
  rewrite Hset in Hset2. injection Hset2 as <-.
  exists d'. split_and!; [done..|]. by apply HItems.
Qed.

Lemma elem_of_others d nk it :
  it ∈ others d nk ↔ it ∈ Items d ∧ getKey d (Key it) ≠ nk.
Proof. unfold others. rewrite list_elem_of_filter. tauto. Qed.

(** X4.  [Set(key, v)], [v] not the marker, on a store that satisfies
    the invariant changes nothing for the other keys: [Get] of every key
    that does not normalise like [key] returns what it returned before,
    and [Len()] grows by one exactly when [key] was not in the store. *)
Theorem X4_Set_leaves_other_keys d key v :
  index_invariant d → v ≠ PtrDeleted →
  ∃ d', Set_ d key v = Some d'
        ∧ Get d' key = Some (v, true)
        ∧ (∀ key', getKey d key' ≠ getKey d key → Get d' key' = Get d key')
        ∧ Len d' = match store d !! getKey d key with
                   | Some _ => Len d
                   | None => S (Len d)
                   end.
Proof.
  intros Hinv Hv.
  destruct (Set_live_full d key v Hinv Hv) as (d' & Hset & Hinv' & Hflag & Hdef & HItems).
  exists d'. split_and!; [done|..].
  - apply (Get_live_item d' {| Key := key; Value := v |}).
    + by apply index_invariant_complete.
    + rewrite HItems. apply elem_of_app. right. by apply list_elem_of_singleton.
    + done.
  - intros key' Hne. apply Get_ext; [done..|]. intros it Hk.
    rewrite HItems, elem_of_app, list_elem_of_singleton, elem_of_others. split.
    + intros [[? _]| ->]; [done|]. simpl in Hk. congruence.
    + intros Hin. left. split; [done|]. congruence.
  - destruct Hinv' as [_ Hsize]. unfold Len. rewrite <- Hsize, HItems, length_app. simpl.
    pose proof (others_length d (getKey d key) Hinv) as Hlen.
    destruct (store d !! getKey d key); lia.
Qed.

(** X5.  [Update(key, v)] of a key that is in the store, [v] not the
    marker, replaces the value in place: the entries keep their number and
    their order, the key keeps the casing it was inserted with, [Len()]
    is unchanged and so is [Get] of the other keys.  For a key that is not
    in the store [Update] is [Set]. *)
Theorem X5_Update_in_place d key v :
  index_invariant d → v ≠ PtrDeleted →
  (∀ idx, store d !! getKey d key = Some idx →
     ∃ d', Update d key v = Some d'
           ∧ index_invariant d'
           ∧ length (items d') = length (items d)
           ∧ Keys d' = Keys d
           ∧ Len d' = Len d
           ∧ Get d' key = Some (v, true)
           ∧ ∀ key', getKey d key' ≠ getKey d key → Get d' key' = Get d key')
  ∧ (store d !! getKey d key = None → Update d key v = Set_ d key v).
Proof.
  intros Hinv Hv. split; [|apply Update_absent].
  intros idx Hidx.
  destruct (Update_invariant d key v Hinv Hv) as (d' & HUpdate & Hinv').
  destruct (Update_keeps_Keys d key v idx Hinv Hidx Hv) as (d2 & HUpdate2 & HKeys & HGet).
  rewrite HUpdate in HUpdate2. injection HUpdate2 as <-.
  pose proof Hinv as [Hs _]. destruct (Hs _ _ Hidx) as (it0 & Hit0 & Hk0 & Hl0).
  pose proof HUpdate as Hd'. rewrite (Update_present d key v idx it0) in Hd' by done.
  injection Hd' as Hd'.
  assert (Hlt : idx < length (items d)) by by eapply lookup_lt_Some.
  exists d'. split_and!; [done|done| |done| |done|].
  - rewrite <- Hd'. simpl. by rewrite length_insert.
  - by rewrite <- Hd'.
  - intros key' Hne. apply Get_ext; [done|done|by rewrite <- Hd'|by rewrite <- Hd'|].
    intros it Hk. rewrite <- Hd'. unfold Items. simpl.
    rewrite !list_elem_of_filter, !list_elem_of_lookup. split.
    + intros [Hl [j Hj]]. split; [done|]. exists j.
      destruct (decide (j = idx)) as [->|Hj'].
      * rewrite list_lookup_insert_eq in Hj by done. injection Hj as <-.
        simpl in Hk. congruence.
      * by rewrite list_lookup_insert_ne in Hj.
    + intros [Hl [j Hj]]. split; [done|]. exists j.
      rewrite list_lookup_insert_ne; [done|]. intros ->. congruence.
Qed.

(** X6.  [Delete(key)] of a key that is its own normalised form (any
    key on a case-sensitive store), on a store that satisfies the
    invariant: the entry of the key leaves the iteration, the others keep
    their order, [Get(key)] misses, [Get] of the other keys is unchanged,
    [Len()] is one less exactly when the key was in the store, and a
    second [Delete(key)] changes nothing. *)
Theorem X6_Delete_removes_one_key d key :
  index_invariant d → getKey d key = key →
  ∃ d', Delete d key = Some d'
        ∧ index_invariant d'
        ∧ Items d' = filter (λ it, getKey d (Key it) ≠ key) (Items d)
        ∧ Get d' key = Some (default_value d, false)
        ∧ (∀ key', getKey d key' ≠ key → Get d' key' = Get d key')
        ∧ Len d' = match store d !! key with
                   | Some _ => Len d - 1
                   | None => Len d
                   end
        ∧ Delete d' key = Some d'.
Proof.
  intros Hinv Hnorm.
  destruct (Delete_normal d key Hinv Hnorm)
    as (d' & HDelete & Hinv' & Hstore & HItems & Hflag & Hdef).
  assert (Hnorm' : getKey d' key = key) by by rewrite (getKey_same_flag d d').
  assert (Hgone : store d' !! getKey d' key = None)
    by (rewrite Hnorm', Hstore; apply lookup_delete_eq).
  exists d'. split_and!; [done|done|exact HItems| | | |].
  - rewrite <- Hdef. by apply Get_absent.
  - intros key' Hne. apply Get_ext; [done..|]. intros it Hk.
    rewrite HItems, elem_of_others. split; [by intros [? _]|].
    intros Hin. split; [done|]. congruence.
  - unfold Len. rewrite Hstore, map_size_delete. destruct (store d !! key); simpl; lia.
  - by apply Delete_absent.
Qed.

(** X7.  [Set(key, v)] right after [Delete(key)] leaves the same
    entries, in the same order, as [Set(key, v)] alone, and [Get] cannot
    tell the two stores apart ([key] its own normalised form, [v] not the
    marker, on a store that satisfies the invariant). *)
Theorem X7_Set_after_Delete d key v :
  index_invariant d → getKey d key = key → v ≠ PtrDeleted →
  ∃ d1 d2 d3,
    Delete d key = Some d1 ∧ Set_ d1 key v = Some d2 ∧ Set_ d key v = Some d3
    ∧ Items d2 = Items d3
    ∧ Len d2 = Len d3
    ∧ ∀ key', Get d2 key' = Get d3 key'.
Proof.
  intros Hinv Hnorm Hv.
  destruct (Delete_normal d key Hinv Hnorm)
    as (d1 & HDelete & Hinv1 & _ & HItems1 & Hflag1 & Hdef1).
  destruct (Set_live_full d1 key v Hinv1 Hv) as (d2 & Hset2 & Hinv2 & Hflag2 & Hdef2 & HItems2).
  destruct (Set_live_full d key v Hinv Hv) as (d3 & Hset3 & Hinv3 & Hflag3 & Hdef3 & HItems3).
  assert (HItems : Items d2 = Items d3).
  { rewrite HItems2, HItems3, Hnorm. rewrite (getKey_same_flag d d1), Hnorm by done.
    f_equal. unfold others at 1. rewrite HItems1.
    rewrite (list_filter_iff _ (λ it, getKey d (Key it) ≠ key)).
    - apply others_idemp.
    - intros it. by rewrite (getKey_same_flag d d1). }
  exists d1, d2, d3. split_and!; [done..| |].
  - destruct Hinv2 as [_ H2]. destruct Hinv3 as [_ H3]. unfold Len. congruence.
  - intros key'. apply Get_ext; [done|done|congruence|congruence|].
    intros it _. by rewrite HItems.
Qed.

(** X8.  The compaction cannot be observed on a store that satisfies
    the invariant: [maybeCompact] leaves [Items()], [Keys()], [Len()] and
    every [Get] as they were, and the invariant holds after it. *)
Theorem X8_compaction_unobservable d :
  index_invariant d →
  index_invariant (maybeCompact d)
  ∧ Items (maybeCompact d) = Items d
  ∧ Keys (maybeCompact d) = Keys d
  ∧ Len (maybeCompact d) = Len d
  ∧ ∀ key, Get (maybeCompact d) key = Get d key.
Proof.
  intros Hinv. pose proof Hinv as [Hs Hsize].
  pose proof (index_invariant_complete d Hinv) as Hc.
  pose proof (maybeCompact_flags d) as [Hflag Hdef].
  assert (Hinv' : index_invariant (maybeCompact d)).
  { apply index_invariant_intro; [by apply maybeCompact_sound|by apply maybeCompact_complete]. }
  split_and!; [done|apply Items_maybeCompact| | |].
  - unfold Keys. by rewrite Items_maybeCompact.
  - destruct Hinv' as [_ Hsize']. unfold Len.
    rewrite <- Hsize', Items_maybeCompact. done.
  - intros key. apply Get_ext; [done..|]. intros it _. by rewrite Items_maybeCompact.
Qed.

End Frames.

(** ** Many entries at once *)

Section Bulk.
Context {lib : GoLib}.
Implicit Types (d : Dict) (l : list Item) (it : Item).

Lemma norm_keys_same_flag d d' l :
  case_insensitive d' = case_insensitive d → norm_keys d' l = norm_keys d l.
Proof.
  intros Hflag. unfold norm_keys. apply list_fmap_ext. intros _ it _.
  by apply getKey_same_flag.
Qed.

(** [set] changes neither the case sensitivity nor the default value. *)
Lemma set_flags d key v d' :
  set d key v = Some d' →
  case_insensitive d' = case_insensitive d ∧ default_value d' = default_value d.
Proof.
  unfold set. intros Hset.
  destruct (match store d !! getKey d key with
            | Some idx => set_item_value idx PtrDeleted (items d)
            | None => Some (items d)
            end); [|done].
  simpl in Hset. injection Hset as <-.
  by rewrite (proj1 (maybeCompact_flags _)), (proj2 (maybeCompact_flags _)).
Qed.

Lemma set_all_flags l : ∀ d d',
  set_all d l = Some d' →
  case_insensitive d' = case_insensitive d ∧ default_value d' = default_value d.
Proof.
  induction l as [|x l IH]; intros d d' Hall.
  - by injection Hall as <-.
  - rewrite set_all_cons in Hall.
    destruct (Set_ d (Key x) (Value x)) as [d1|] eqn:Hset; [|done].
    destruct (set_flags d _ _ d1 Hset) as [? ?]. destruct (IH d1 d' Hall) as [? ?].
    split; congruence.
Qed.

(** Setting live items whose keys are pairwise distinct after
    normalisation moves the keys that were there to the end and leaves
    the items in the order given. *)
Lemma set_all_Items l : ∀ d,
  well_formed d → Forall (λ it, IsDeleted it = false) l → NoDup (norm_keys d l) →
  ∃ d', set_all d l = Some d'
        ∧ well_formed d'
        ∧ case_insensitive d' = case_insensitive d
        ∧ default_value d' = default_value d
        ∧ Items d' = filter (λ it, getKey d (Key it) ∉ norm_keys d l) (Items d) ++ l.
Proof.
  induction l as [|x l IH]; intros d Hwf Hlive Hnd.
  - exists d. split_and!; [done..|]. rewrite app_nil_r. symmetry. apply filter_all.
    intros it _. apply not_elem_of_nil.
  - apply Forall_cons in Hlive as [Hx Hlive].
    change (norm_keys d (x :: l)) with (getKey d (Key x) :: norm_keys d l) in *.
    apply NoDup_cons in Hnd as [Hnew Hnd].
    destruct (set_well_formed d (Key x) (Value x) Hwf)
      as (d1 & Hset & Hwf1 & _ & Hflag1 & Hdef1 & HItems1 & _).
    specialize (HItems1 (proj1 (IsDeleted_false_iff x) Hx)). rewrite Item_eta in HItems1.
    rewrite <- (norm_keys_same_flag d d1) in Hnd by done.
    destruct (IH d1 Hwf1 Hlive Hnd) as (d' & Hall & Hwf' & Hflag' & Hdef' & HItems').
    exists d'. rewrite set_all_cons. unfold Set_. rewrite Hset.
    split_and!; [done|done|congruence|congruence|].
    rewrite HItems', HItems1, (norm_keys_same_flag d d1) by done.
    rewrite filter_app. rewrite (filter_cons_True _ x), filter_nil.
    + rewrite <- app_assoc. simpl. f_equal. unfold others.
      rewrite list_filter_filter. apply list_filter_iff. intros it.
      rewrite (getKey_same_flag d d1), not_elem_of_cons by done. tauto.
    + by rewrite (getKey_same_flag d d1).
Qed.

Lemma set_all_invariant d l :
  index_invariant d → Forall (λ it, IsDeleted it = false) l →
  ∃ d', set_all d l = Some d' ∧ index_invariant d'.
Proof.
  intros Hinv Hlive. apply (set_all_kept index_invariant); [|done..].
  intros. by apply set_invariant.
Qed.

(** The live keys of a well-formed store are distinct for every store
    that is case-insensitive only if it is. *)
Lemma norm_keys_NoDup d other :
  well_formed other → (case_insensitive d = true → case_insensitive other = true) →
  NoDup (norm_keys d (Items other)).
Proof.
  intros [_ Hc] Hflags. pose proof (index_complete_NoDup other Hc) as Hnd.
  unfold live_keys in Hnd. unfold norm_keys, getKey in *.
  destruct (case_insensitive d).
  - by rewrite Hflags in Hnd.
  - destruct (case_insensitive other); [|done].
    apply (NoDup_fmap_1 strings_ToLower). by rewrite <- list_fmap_compose.
Qed.

(** X9.  [MergeFrom(other)] puts the live entries of [other] at the end
    of the store, in the order of [other], after the entries of the store
    whose keys [other] does not have; [Get] then returns the value of
    [other] for the keys of [other] and what it returned before for the
    rest.  (Both stores well formed, the receiver satisfying the invariant
    and case-insensitive only if [other] is.) *)
Theorem X9_MergeFrom_appends d other :
  index_invariant d → well_formed other →
  (case_insensitive d = true → case_insensitive other = true) →
  ∃ d', MergeFrom d other = Some d'
        ∧ index_invariant d'
        ∧ Items d'
          = filter (λ it, getKey d (Key it) ∉ norm_keys d (Items other)) (Items d)
            ++ Items other
        ∧ (∀ it, it ∈ Items other → Get d' (Key it) = Some (Value it, true))
        ∧ (∀ key, getKey d key ∉ norm_keys d (Items other) → Get d' key = Get d key).
Proof.
  intros Hinv Hother Hflags. pose proof (index_invariant_well_formed d Hinv) as Hwf.
  pose proof (norm_keys_NoDup d other Hother Hflags) as Hnd.
  destruct (set_all_Items (Items other) d Hwf (Items_live other) Hnd)
    as (d' & Hall & Hwf' & Hflag & Hdef & HItems).
  destruct (set_all_invariant d (Items other) Hinv (Items_live other)) as (d2 & Hall2 & Hinv').
  rewrite Hall in Hall2. injection Hall2 as <-.
  exists d'. split_and!; [done..| |].
  - intros it Hin. apply (Get_live_item d' it); [apply Hwf'| |done].
    rewrite HItems. apply elem_of_app. by right.
  - intros key Hkey. apply Get_ext; [done..|]. intros it Hk.
    rewrite HItems, elem_of_app, list_elem_of_filter. split.
    + intros [[_ ?]|Hin]; [done|]. destruct Hkey. rewrite <- Hk.
      unfold norm_keys. apply list_elem_of_fmap. by exists it.
    + intros Hin. left. split; [congruence|done].
Qed.

(** X10.  [SetCaseInsensitive()] returns a new case-insensitive store
    that satisfies the invariant and does not carry the default value
    over: its default is nil.  When no two live keys of the receiver
    differ in case only, the new store has the live entries of the
    receiver in their order, and [Get] finds each under every casing of
    its key. *)
Theorem X10_SetCaseInsensitive_copies d :
  (∃ d', SetCaseInsensitive d = Some d' ∧ index_invariant d'
         ∧ case_insensitive d' = true ∧ default_value d' = VNil)
  ∧ (NoDup ((λ it, strings_ToLower (Key it)) <$> Items d) →
     ∃ d', SetCaseInsensitive d = Some d'
           ∧ Items d' = Items d
           ∧ ∀ it key, it ∈ Items d → strings_ToLower key = strings_ToLower (Key it) →
                       Get d' key = Some (Value it, true)).
Proof.
  assert (Hlive : filter (λ it, IsDeleted it = false) (Items d) = Items d)
    by apply filter_live_idemp.
  assert (Hwf : well_formed folding_store)
    by apply index_invariant_well_formed, index_invariant_folding_store.
  unfold SetCaseInsensitive. rewrite Hlive.
  change {| items := []; store := ∅; case_insensitive := true; default_value := VNil |}
    with folding_store.
  destruct (set_all_invariant folding_store (Items d) index_invariant_folding_store
              (Items_live d)) as (d' & Hall & Hinv').
  destruct (set_all_flags (Items d) folding_store d' Hall) as [Hflag' Hdef'].
  split; [by exists d'|].
  - intros Hnd.
    destruct (set_all_Items (Items d) folding_store Hwf (Items_live d) Hnd)
      as (d2 & Hall2 & Hwf' & Hflag & Hdef & HItems).
    rewrite Hall in Hall2. injection Hall2 as <-.
    assert (HItems' : Items d' = Items d) by by rewrite HItems.
    exists d'. split_and!; [done..|].
    intros it key Hin Hkey. apply (Get_live_item d' it); [apply Hwf'|by rewrite HItems'|].
    unfold getKey. by rewrite Hflag.
Qed.

End Bulk.

(** ** Other views of a store *)

Section Views.
Context {lib : GoLib}.
Implicit Types (d : Dict) (l : list Item) (it : Item).

Lemma ToMap_fold l :
  NoDup (Key <$> l) →
  (∀ k v, foldl (λ result item, <[Key item := Value item]> result)
                (∅ : gmap string value) l !! k = Some v
          ↔ {| Key := k; Value := v |} ∈ l)
  ∧ size (foldl (λ result item, <[Key item := Value item]> result)
                (∅ : gmap string value) l) = length l.
Proof.
  induction l as [|x l IH] using rev_ind; intros Hnd.
  - split; [|done]. intros k v. simpl. rewrite lookup_empty, elem_of_nil. split; [done|tauto].
  - rewrite fmap_app in Hnd. apply NoDup_app in Hnd as (Hnd & Hfresh & _).
    destruct (IH Hnd) as [IHl IHs]. rewrite foldl_app. simpl.
    assert (Hx : ∀ v, {| Key := Key x; Value := v |} ∉ l).
    { intros v Hin. apply (Hfresh (Key x)); [|apply list_elem_of_singleton; done].
      apply list_elem_of_fmap. by exists {| Key := Key x; Value := v |}. }
    split.
    + intros k v. rewrite lookup_insert_Some, elem_of_app, list_elem_of_singleton, IHl.
      split.
      * intros [[<- <-]|[_ ?]]; [right; by rewrite Item_eta|by left].
      * intros [Hin| <-]; [|by left]. right. split; [|done].
        intros <-. by destruct (Hx v).
    + rewrite map_size_insert, length_app, IHs. simpl.
      destruct (foldl _ ∅ l !! Key x) as [v|] eqn:Hv; [|lia].
      apply IHl in Hv. by destruct (Hx v).
Qed.

(** X14.  [ToMap()] of a well-formed store holds the live entries and
    nothing else, each under its key as it was spelled, and none is lost:
    the map has as many keys as there are live entries.  On a
    case-sensitive store that satisfies the invariant the map and [Get]
    find the same values. *)
Theorem X14_ToMap_live_entries d :
  well_formed d →
  (∀ k v, ToMap d !! k = Some v ↔ {| Key := k; Value := v |} ∈ Items d)
  ∧ size (ToMap d) = length (Items d)
  ∧ (case_insensitive d = false → index_invariant d →
     ∀ k v, ToMap d !! k = Some v ↔ Get d k = Some (v, true)).
Proof.
  intros Hwf. pose proof (proj2 (Keys_NoDup d Hwf)) as Hnd.
  destruct (ToMap_fold (Items d) Hnd) as [Hl Hs].
  split_and!; [done|done|].
  intros Hflag Hinv k v. rewrite Get_found_iff by done.
  unfold ToMap. rewrite Hl. unfold getKey. rewrite Hflag. split.
  - intros Hin. by exists {| Key := k; Value := v |}.
  - intros (it & Hin & <- & <-). by rewrite Item_eta.
Qed.

Lemma UnmarshalYAML_string_items m : ∀ acc,
  foldl UnmarshalYAML_step acc m
  = foldl (λ acc item, d ← acc; Set_ d (Key item) (Value item)) acc (string_items m).
Proof.
  induction m as [|item m IH]; intros acc; [done|].
  unfold string_items. simpl. rewrite IH. unfold UnmarshalYAML_step.
  destruct (yaml.Key item); simpl; try by destruct acc.
Qed.

Lemma string_items_MarshalYAML l :
  string_items ((λ item, {| yaml.Key := VString (Key item); yaml.Value := Value item |})
                <$> l) = l.
Proof.
  induction l as [|x l IH]; [done|].
  unfold string_items in *. rewrite fmap_cons. cbn [omap list_omap yaml.Key yaml.Value].
  rewrite Item_eta. simpl. f_equal. exact IH.
Qed.

(** X15.  A new store that [UnmarshalYAML] fills from the map slice
    [MarshalYAML] returned for a well-formed store has the live entries of
    that store, in their order, and satisfies the invariant: the pair is a
    round trip on keys, values and order. *)
Theorem X15_yaml_round_trip (E : Type) d :
  well_formed d →
  ∃ d', UnmarshalYAML (E:=E) NewDict (inr (MarshalYAML (E:=E) d).1) = Some (d', None)
        ∧ index_invariant d'
        ∧ Items d' = Items d
        ∧ ∀ it, it ∈ Items d → Get d' (Key it) = Some (Value it, true).
Proof.
  intros Hwf.
  assert (Hnew : well_formed NewDict)
    by apply index_invariant_well_formed, index_invariant_NewDict.
  assert (Hnd : NoDup (norm_keys NewDict (Items d))) by by apply norm_keys_NoDup.
  destruct (set_all_Items (Items d) NewDict Hnew (Items_live d) Hnd)
    as (d' & Hall & Hwf' & _ & _ & HItems).
  destruct (set_all_invariant NewDict (Items d) index_invariant_NewDict (Items_live d))
    as (d2 & Hall2 & Hinv').
  rewrite Hall in Hall2. injection Hall2 as <-.
  assert (HItems' : Items d' = Items d) by by rewrite HItems.
  exists d'. split_and!; [|done|done|].
  - unfold UnmarshalYAML, MarshalYAML. simpl.
    rewrite UnmarshalYAML_string_items, string_items_MarshalYAML.
    change (foldl _ (Some NewDict) (Items d)) with (set_all NewDict (Items d)).
    by rewrite Hall.
  - intros it Hin. apply (Get_live_item d' it); [apply Hwf'|by rewrite HItems'|done].
Qed.


End Views.

(** ** The typed getters *)

Section TypedGetters.
Context {lib : GoLib} {rt : GoRuntime}.
Implicit Types (d : Dict) (l : list value).

(** X11.  The default value is what [Get] returns for a key that is not
    in the store, and nothing else: [SetDefault] leaves the keys that are
    in the store as they were, and the typed getters never return the
    default, they return the zero value of their type with
    [found = false]. *)
Theorem X11_default_value_only_from_Get d key v :
  store d !! getKey d key = None →
  Get (SetDefault d v) key = Some (v, false)
  ∧ GetString (SetDefault d v) key = Some (EmptyString, false)
  ∧ GetBool (SetDefault d v) key = Some (false, false)
  ∧ GetStrings (SetDefault d v) key = Some ([], false)
  ∧ GetInt64 (SetDefault d v) key = Some (0%Z, false)
  ∧ (∀ key', is_Some (store d !! getKey d key') →
       Get (SetDefault d v) key' = Get d key')
  ∧ Keys (SetDefault d v) = Keys d ∧ Len (SetDefault d v) = Len d.
Proof.
  intros Hnone.
  assert (HGet : Get (SetDefault d v) key = Some (v, false)).
  { unfold Get. change (getKey (SetDefault d v) key) with (getKey d key).
    change (store (SetDefault d v)) with (store d). by rewrite Hnone. }
  unfold GetString, GetBool, GetStrings, GetInt64. rewrite HGet.
  split_and!; [done..| |done|done].
  intros key' [idx Hidx]. unfold Get.
  change (getKey (SetDefault d v) key') with (getKey d key').
  change (store (SetDefault d v)) with (store d). by rewrite Hidx.
Qed.

Lemma digit_of_nonneg c z : digit_of c = Some z → (0 ≤ z)%Z.
Proof. unfold digit_of. case_match; [|done]. intros [= <-]. lia. Qed.

Lemma parse_digits_nonneg s : ∀ acc n,
  (0 ≤ acc)%Z → parse_digits s acc = Some n → (0 ≤ n)%Z.
Proof.
  induction s as [|c s IH]; intros acc n Hacc; simpl.
  - by intros [= <-].
  - destruct (digit_of c) as [z|] eqn:Hz; [|done].
    apply IH. pose proof (digit_of_nonneg c z Hz). lia.
Qed.

Lemma strconv_ParseUint_range s u :
  strconv_ParseUint s = Some u → (0 ≤ u ≤ 18446744073709551615)%Z.
Proof.
  unfold strconv_ParseUint. destruct s as [|c s]; [done|].
  destruct (parse_digits (String c s) 0) as [n|] eqn:Hn; [|done].
  destruct (Z.leb_spec n (2 ^ 64 - 1)) as [Hle|]; [|done]. intros [= <-].
  split; [by eapply parse_digits_nonneg|].
  change (2 ^ 64 - 1)%Z with 18446744073709551615%Z in Hle. done.
Qed.

Lemma int64_of_uint64_cases u :
  (0 ≤ u ≤ 18446744073709551615)%Z →
  int64_of_uint64 u
  = if (u <? 9223372036854775808)%Z then u else (u - 18446744073709551616)%Z.
Proof.
  intros Hu. unfold int64_of_uint64.
  destruct (Z.ltb_spec u 9223372036854775808).
  - rewrite Z.mod_small by lia. lia.
  - replace (u + 9223372036854775808)%Z
      with (u - 9223372036854775808 + 1 * 18446744073709551616)%Z by lia.
    rewrite Z_mod_plus_full, Z.mod_small by lia. lia.
Qed.

(** X12.  A numeral that [strconv.ParseUint] accepts decodes to a
    [uint64], and [GetInt64] converts it bit for bit: below 2^63 it returns
    the number, from 2^63 on it returns the number less 2^64, a negative
    one, in both cases with [found = true]. *)
Theorem X12_GetInt64_of_decoded_numeral key s u :
  strconv_ParseUint s = Some u →
  ∃ d',
    UnmarshalJSON 0 [NewDict]
      [inl (TDelim "{"); inl (TString key); inl (TNumber s); inl (TDelim "}")]
    = Returns (([d'], []), inr ())
    ∧ Get d' key = Some (VUint64 u, true)
    ∧ GetInt64 d' key
      = Some (if (u <? 9223372036854775808)%Z then u
              else (u - 18446744073709551616)%Z, true).
Proof.
  intros Hu.
  destruct (decode_member key (TNumber s) (VUint64 u)) as (d' & Hdec & HGet & _).
  { simpl. unfold handle_number. by rewrite Hu. }
  exists d'. split_and!; [done..|].
  unfold GetInt64. rewrite HGet. simpl.
  by rewrite (int64_of_uint64_cases u (strconv_ParseUint_range s u Hu)).
Qed.

Lemma GetStrings_fold l : ∀ acc,
  foldl (λ result value,
           let '(item, ok) := to_string value in
           if ok : bool then result ++ [item] else result) acc l
  = acc ++ strings_among l.
Proof.
  induction l as [|v l IH]; intros acc; simpl.
  - by rewrite app_nil_r.
  - rewrite IH. unfold strings_among. destruct v; simpl; try done.
    by rewrite <- app_assoc.
Qed.

(** X23.  The typed getters do not convert: after decoding a member
    whose token opens nothing, [GetBool] finds the member only if the
    token was a boolean, and [GetString] only if the value is a string; a
    string token that was decoded as a timestamp is no longer found by
    [GetString]. *)
Theorem X23_typed_getters_after_decoding key t v :
  scalar_value t = Some v →
  ∃ d',
    UnmarshalJSON 0 [NewDict]
      [inl (TDelim "{"); inl (TString key); inl t; inl (TDelim "}")]
    = Returns (([d'], []), inr ())
    ∧ GetBool d' key
      = Some (match t with TBool b => (b, true) | _ => (false, false) end)
    ∧ GetString d' key
      = Some (match v with VString s => (s, true) | _ => (EmptyString, false) end)
    ∧ (∀ s tm, t = TString s → looks_like_timestamp s = true →
         time_Parse_RFC3339 s = Some tm →
         Get d' key = Some (VTime tm, true)
         ∧ GetString d' key = Some (EmptyString, false)).
Proof.
  intros Ht. destruct (decode_member key t v Ht) as (d' & Hdec & HGet & _).
  exists d'. split_and!; [done|..].
  - unfold GetBool. rewrite HGet. simpl.
    destruct t as [c|b|s|s|]; simpl in Ht; try done.
    + by injection Ht as <-.
    + unfold handle_number in Ht. repeat case_match; by simplify_eq.
    + injection Ht as <-. unfold handle_string. by repeat case_match.
    + by injection Ht as <-.
  - unfold GetString. rewrite HGet. simpl. by destruct v.
  - intros s tm -> Hlooks Hparse. simpl in Ht. injection Ht as <-.
    unfold GetString. rewrite HGet. unfold handle_string. by rewrite Hlooks, Hparse.
Qed.

End TypedGetters.

(** ** The decoder, step by step *)

Section DecodeSteps.
Context {lib : GoLib}.
Implicit Types (d : Dict) (h : heap) (t : Token).

Lemma length_member_tokens ms : length (ms ≫= member_tokens) = 2 * length ms.
Proof.
  induction ms as [|m ms IH]; [done|].
  rewrite bind_cons, length_app. simpl. lia.
Qed.

(** The closing brace ends [parseobject]. *)
Lemma parseobject_close n self h rest :
  parseobject (S n) self (h, inl (TDelim "}") :: rest) = Returns ((h, rest), inr ()).
Proof. done. Qed.

(** One member: [handledelim] on the token after the key, then [set]. *)
Lemma parseobject_member n self key t h toks h1 toks1 v d1 d1' :
  handledelim n t (h, toks) = Returns ((h1, toks1), inr v) →
  h1 !! self = Some d1 → set d1 key v = Some d1' →
  parseobject (S n) self (h, inl (TString key) :: inl t :: toks)
  = parseobject n self (<[self := d1']> h1, toks1).
Proof.
  intros Hv Hd1 Hset. rewrite parseobject_S. unfold parseobject_body at 1.
  unfold bind at 1 2 3 4; simpl. rewrite Hv. unfold bind at 1.
  unfold set_at at 1. simpl. by rewrite Hd1, Hset.
Qed.

(** The members of an object whose values open nothing, and then the
    rest of the input. *)
Lemma parseobject_members_then ms : ∀ n self h d d' l rest,
  0 < n → h !! self = Some d →
  Forall2 decodes_to ms l →
  set_all d l = Some d' →
  parseobject (length ms + n) self (h, (ms ≫= member_tokens) ++ rest)
  = parseobject n self (<[self := d']> h, rest).
Proof.
  induction ms as [|[key t] ms IH]; intros n self h d d' l rest Hn Hd Hl Hset.
  - apply Forall2_nil_inv_l in Hl as ->. injection Hset as <-.
    by rewrite list_insert_id.
  - apply Forall2_cons_inv_l in Hl as (it & l' & [Hk Hv] & Hl' & ->).
    rewrite set_all_cons in Hset.
    destruct (Set_ d (Key it) (Value it)) as [d1|] eqn:Hd1; [|done].
    destruct n as [|n]; [lia|].
    replace (length ((key, t) :: ms) + S n) with (S (S (length ms + n)))
      by (simpl; lia).
    simpl in Hk, Hv. subst key.
    rewrite bind_cons, <- app_assoc. cbn [member_tokens fst snd app].
    rewrite (parseobject_member _ self (Key it) t h ((ms ≫= member_tokens) ++ rest)
               h ((ms ≫= member_tokens) ++ rest) (Value it) d d1);
      [|by apply handledelim_scalar|done..].
    replace (S (length ms + n)) with (length ms + S n) by lia.
    rewrite (IH (S n) self (<[self := d1]> h) d1 d' l' rest); [|lia| |done..].
    + by rewrite list_insert_insert_eq.
    + apply list_lookup_insert_eq. by eapply lookup_lt_Some.
Qed.

(** [UnmarshalJSON] after the opening brace and such members. *)
Lemma UnmarshalJSON_members_then ms self h d d' l rest :
  h !! self = Some d →
  Forall2 decodes_to ms l →
  set_all d l = Some d' →
  ∃ n, length rest < n ∧
    UnmarshalJSON self h (inl (TDelim "{") :: (ms ≫= member_tokens) ++ rest)
    = match parseobject n self (<[self := d']> h, rest) with
      | Returns (st', inr _) =>
          match dec_Token st'.2 with
          | (inr io_EOF, dec) => Returns ((st'.1, dec), inr ())
          | (_, dec) => Returns ((st'.1, dec), inl ErrTrailingData)
          end
      | Returns (st', inl e) => Returns (st', inl e)
      | Panics => Panics
      | OutOfFuel => OutOfFuel
      end.
Proof.
  intros Hd Hl Hset.
  exists (3 * length ms + 2 * length rest + 3). split; [lia|].
  unfold UnmarshalJSON.
  replace (2 * length (inl (TDelim "{") :: (ms ≫= member_tokens) ++ rest) + 1)
    with (length ms + (3 * length ms + 2 * length rest + 3)) by
    (rewrite length_cons, length_app, length_member_tokens; lia).
  unfold UnmarshalJSON_fuel. unfold bind at 1 2; simpl.
  unfold bind at 1.
  rewrite (parseobject_members_then ms _ self h d d' l rest); [|lia|done..].
  destruct (parseobject _ self (<[self := d']> h, rest)) as [[st' [e|u]]| |]; [done| |done..].
  unfold bind, Token_. simpl. destruct (dec_Token st'.2) as [[t|e] dec]; [done|].
  by destruct e.
Qed.

(** X17.  [UnmarshalJSON] reads one token and returns an error, the
    store untouched, when the input is empty ([io.EOF]), when the
    tokenizer fails (its error) and when the first token is not the
    opening brace. *)
Theorem X17_UnmarshalJSON_wants_an_object self h :
  UnmarshalJSON self h [] = Returns ((h, []), inl io_EOF)
  ∧ (∀ e rest, UnmarshalJSON self h (inr e :: rest) = Returns ((h, rest), inl e))
  ∧ (∀ t rest, t ≠ TDelim "{" →
       UnmarshalJSON self h (inl t :: rest) = Returns ((h, rest), inl ErrObjectOpen)).
Proof.
  split_and!; [done|done|].
  intros t rest Ht. unfold UnmarshalJSON.
  generalize (2 * length (inl t :: rest : Decoder) + 1). intros fuel.
  unfold UnmarshalJSON_fuel. unfold bind at 1 2; simpl.
  destruct t as [c| | | |]; try done.
  destruct (Ascii.eqb_spec c "{") as [->|Hc]; [done|]. done.
Qed.

(** X18.  Decoding is not all or nothing: when the input breaks off,
    when the tokenizer fails where a key is due, when a key is not a
    string, or when tokens follow the closing brace, [UnmarshalJSON]
    returns an error and the store keeps the members that were read
    before it. *)
Theorem X18_decoding_keeps_members_on_error ms self h d d' l :
  h !! self = Some d →
  Forall2 decodes_to ms l →
  set_all d l = Some d' →
  UnmarshalJSON self h (inl (TDelim "{") :: (ms ≫= member_tokens))
  = Returns ((<[self := d']> h, []), inl io_EOF)
  ∧ (∀ e rest,
       UnmarshalJSON self h (inl (TDelim "{") :: (ms ≫= member_tokens) ++ inr e :: rest)
       = Returns ((<[self := d']> h, rest), inl e))
  ∧ (∀ t rest, dec_More [inl t] = true → (∀ s, t ≠ TString s) →
       UnmarshalJSON self h (inl (TDelim "{") :: (ms ≫= member_tokens) ++ inl t :: rest)
       = Returns ((<[self := d']> h, rest), inl (ErrKeyNotString t)))
  ∧ (∀ t rest,
       UnmarshalJSON self h
         (inl (TDelim "{") :: (ms ≫= member_tokens)
            ++ inl (TDelim "}") :: inl t :: rest)
       = Returns ((<[self := d']> h, rest), inl ErrTrailingData)).
Proof.
  intros Hd Hl Hset. split_and!.
  - destruct (UnmarshalJSON_members_then ms self h d d' l [] Hd Hl Hset) as (n & Hn & Hrun).
    rewrite app_nil_r in Hrun. rewrite Hrun.
    destruct n as [|n]; [simpl in Hn; lia|]. done.
  - intros e rest.
    destruct (UnmarshalJSON_members_then ms self h d d' l (inr e :: rest) Hd Hl Hset)
      as (n & Hn & Hrun).
    rewrite Hrun. destruct n as [|n]; [simpl in Hn; lia|]. done.
  - intros t rest Hmore Ht.
    destruct (UnmarshalJSON_members_then ms self h d d' l (inl t :: rest) Hd Hl Hset)
      as (n & Hn & Hrun).
    rewrite Hrun. destruct n as [|n]; [simpl in Hn; lia|].
    rewrite parseobject_S. unfold parseobject_body.
    unfold bind at 1. unfold More at 1.
    destruct t as [c|b|s|s|]; simpl in Hmore |- *; try done.
    + by rewrite Hmore.
    + by destruct (Ht s).
  - intros t rest.
    destruct (UnmarshalJSON_members_then ms self h d d' l
                (inl (TDelim "}") :: inl t :: rest) Hd Hl Hset) as (n & Hn & Hrun).
    rewrite Hrun. destruct n as [|n]; [simpl in Hn; lia|].
    by rewrite parseobject_close.
Qed.

End DecodeSteps.

(** ** Nested values *)

Section Nested.
Context {lib : GoLib} {rt : GoRuntime}.
Implicit Types (d : Dict) (h : heap) (t : Token).

(** An object as a value: a new dictionary at the end of the heap. *)
Lemma handledelim_object n ms l d2 h rest :
  length ms < n → Forall2 decodes_to ms l → set_all NewDict l = Some d2 →
  handledelim (S n) (TDelim "{")
    (h, (ms ≫= member_tokens) ++ inl (TDelim "}") :: rest)
  = Returns ((h ++ [d2], rest), inr (VDict (length h))).
Proof.
  intros Hn Hl Hset. rewrite handledelim_S. unfold handledelim_body. simpl.
  unfold bind at 1. unfold new_dict, alloc. simpl. unfold bind at 1.
  rewrite (parseobject_members ms n (length h) (h ++ [NewDict]) NewDict d2 l rest);
    [|done|by apply list_lookup_middle|done..].
  unfold ret. do 3 f_equal.
  rewrite insert_app_r_alt, Nat.sub_diag by done. done.
Qed.

(** The elements of an array that open nothing. *)
Lemma parsearray_scalars ts : ∀ n arr h vs rest,
  length ts < n → Forall2 (λ t v, scalar_value t = Some v) ts vs →
  parsearray n arr (h, (inl <$> ts) ++ inl (TDelim "]") :: rest)
  = Returns ((h, rest), inr (arr ++ vs)).
Proof.
  induction ts as [|t ts IH]; intros n arr h vs rest Hn Hvs.
  - apply Forall2_nil_inv_l in Hvs as ->. destruct n as [|n]; [simpl in Hn; lia|].
    rewrite app_nil_r. done.
  - apply Forall2_cons_inv_l in Hvs as (v & vs' & Hv & Hvs' & ->).
    destruct n as [|[|n]]; [simpl in Hn; lia..|].
    rewrite parsearray_S. unfold parsearray_body at 1.
    unfold bind at 1. unfold More at 1. rewrite fmap_cons. cbn [app].
    assert (Hmore : dec_More (inl t :: (inl <$> ts) ++ inl (TDelim "]") :: rest) = true)
      by by destruct t.
    cbn [snd]. rewrite Hmore. unfold bind at 1 2. cbn [Token_or_return].
    unfold Token_or_return at 1. unfold bind at 1. unfold Token_ at 1. simpl.
    rewrite (handledelim_body_scalar _ _ _ _ _ Hv).
    rewrite <- parsearray_S.
    rewrite (IH (S n) (arr ++ [v]) h vs' rest); [|simpl in Hn; lia|done].
    by rewrite <- app_assoc.
Qed.

Lemma handledelim_array n ts vs h rest :
  length ts < n → Forall2 (λ t v, scalar_value t = Some v) ts vs →
  handledelim (S n) (TDelim "[") (h, (inl <$> ts) ++ inl (TDelim "]") :: rest)
  = Returns ((h, rest), inr (VSlice vs)).
Proof.
  intros Hn Hvs. rewrite handledelim_S. unfold handledelim_body. simpl.
  unfold bind at 1. by rewrite (parsearray_scalars ts n [] h vs rest).
Qed.

(** A document whose one member holds [v], once [handledelim] is known
    to give [v] for its tokens. *)
Lemma UnmarshalJSON_one_member key t toks h1 v d' :
  (∀ n, length toks < n →
        handledelim (S n) t ([NewDict], toks ++ [inl (TDelim "}")])
        = Returns ((h1, [inl (TDelim "}")]), inr v)) →
  h1 !! 0 = Some NewDict → Set_ NewDict key v = Some d' →
  UnmarshalJSON 0 [NewDict]
    (inl (TDelim "{") :: inl (TString key) :: inl t :: toks ++ [inl (TDelim "}")])
  = Returns ((<[0 := d']> h1, []), inr ()).
Proof.
  intros Hv Hh1 Hset.
  destruct (UnmarshalJSON_members_then [] 0 [NewDict] NewDict NewDict []
              (inl (TString key) :: inl t :: toks ++ [inl (TDelim "}")]))
    as (n & Hn & Hrun); [done..|].
  simpl in Hrun. rewrite Hrun. simpl in Hn. rewrite length_app in Hn. simpl in Hn.
  destruct n as [|[|[|n]]]; [lia..|].
  rewrite (parseobject_member _ 0 key t [NewDict] _ h1 [inl (TDelim "}")] v NewDict d');
    [|apply Hv; lia|done..].
  by rewrite parseobject_close.
Qed.

(** X19.  An object met as the value of a member is decoded into a
    dictionary of its own, allocated by [NewDict()]: the member holds the
    pointer to it, and the new dictionary holds the members of the inner
    object as [Set] leaves them, in the order of the document. *)
Theorem X19_nested_object_decoded key ms l :
  Forall2 decodes_to ms l →
  ∃ d' d2,
    UnmarshalJSON 0 [NewDict]
      (inl (TDelim "{") :: inl (TString key) :: inl (TDelim "{")
       :: ((ms ≫= member_tokens) ++ [inl (TDelim "}")]) ++ [inl (TDelim "}")])
    = Returns (([d'; d2], []), inr ())
    ∧ Get d' key = Some (VDict 1, true)
    ∧ Keys d' = [key]
    ∧ set_all NewDict l = Some d2
    ∧ index_invariant d2.
Proof.
  intros Hl.
  assert (Hlive : Forall (λ it, IsDeleted it = false) l).
  { clear -Hl. induction Hl as [|m it ms l [_ Hv] _ IH]; constructor; [|done].
    apply IsDeleted_false_iff. by eapply scalar_value_live. }
  destruct (set_all_invariant NewDict l index_invariant_NewDict Hlive) as (d2 & Hd2 & Hinv2).
  destruct (Set_observed NewDict key (VDict 1)
              (index_invariant_well_formed _ index_invariant_NewDict))
    as (d' & Hset & _ & _ & _ & HKeys & HGet); [done|].
  exists d', d2. split_and!; [|by apply HGet|done|done|done].
  rewrite (UnmarshalJSON_one_member key (TDelim "{")
             ((ms ≫= member_tokens) ++ [inl (TDelim "}")]) [NewDict; d2] (VDict 1) d');
    [done| |done..].
  intros n Hn. rewrite <- app_assoc. cbn [app].
  rewrite length_app, length_member_tokens in Hn. simpl in Hn.
  by rewrite (handledelim_object n ms l d2 [NewDict] [inl (TDelim "}")]) by (done || lia).
Qed.

(** X20.  An array of tokens that open nothing, met as the value of a
    member, is decoded into a slice of their values, in order (an empty
    array into an empty slice), and [GetStrings] of the member then
    returns the strings among them. *)
Theorem X20_array_decoded key ts vs :
  Forall2 (λ t v, scalar_value t = Some v) ts vs →
  ∃ d',
    UnmarshalJSON 0 [NewDict]
      (inl (TDelim "{") :: inl (TString key) :: inl (TDelim "[")
       :: ((inl <$> ts) ++ [inl (TDelim "]")]) ++ [inl (TDelim "}")])
    = Returns (([d'], []), inr ())
    ∧ Get d' key = Some (VSlice vs, true)
    ∧ GetStrings d' key = Some (strings_among vs, true).
Proof.
  intros Hvs.
  destruct (Set_observed NewDict key (VSlice vs)
              (index_invariant_well_formed _ index_invariant_NewDict))
    as (d' & Hset & _ & _ & _ & _ & HGet); [done|].
  exists d'. split_and!; [|by apply HGet|].
  - rewrite (UnmarshalJSON_one_member key (TDelim "[")
               ((inl <$> ts) ++ [inl (TDelim "]")]) [NewDict] (VSlice vs) d');
      [done| |done..].
    intros n Hn. rewrite <- app_assoc. cbn [app].
    rewrite length_app, length_fmap in Hn. simpl in Hn.
    by rewrite (handledelim_array n ts vs [NewDict] [inl (TDelim "}")]) by (done || lia).
  - unfold GetStrings. rewrite (HGet key) by done. simpl. by rewrite GetStrings_fold.
Qed.

End Nested.

(** ** The encoder *)

Section EncodePairs.
Context {lib : GoLib}.
Implicit Types (d : Dict) (h : heap) (l : list Item) (s t : string).

Lemma string_app_assoc s t u : (s +:+ t) +:+ u = s +:+ t +:+ u.
Proof.
  induction s as [|c s IH]; [done|].
  change (String c ((s +:+ t) +:+ u) = String c (s +:+ t +:+ u)). by rewrite IH.
Qed.

Lemma string_app_nil_r s : s +:+ EmptyString = s.
Proof.
  induction s as [|c s IH]; [done|].
  change (String c (s +:+ EmptyString) = String c s). by rewrite IH.
Qed.

Lemma substring_app_l s t : String.substring 0 (String.length s) (s +:+ t) = s.
Proof.
  induction s as [|c s IH]; [by destruct t|].
  change (String c (String.substring 0 (String.length s) (s +:+ t)) = String c s).
  by rewrite IH.
Qed.

Lemma string_length_app s t :
  String.length (s +:+ t) = String.length s + String.length t.
Proof.
  induction s as [|c s IH]; [done|].
  change (S (String.length (s +:+ t)) = S (String.length s + String.length t)).
  by rewrite IH.
Qed.

(** Dropping the last byte drops the comma that ends the buffer. *)
Lemma truncate_last_comma s : truncate_last (s +:+ ",") = s.
Proof.
  unfold truncate_last. rewrite string_length_app. simpl.
  replace (String.length s + 1 - 1) with (String.length s) by lia.
  apply substring_app_l.
Qed.

(** The loop of [MarshalJSON] over items whose values hold no
    dictionary and no slice, and whose keys encode. *)
Lemma marshal_items_scalars fuel h self l : ∀ buf,
  l ≠ [] →
  Forall (λ it, scalar (Value it) = true
                ∧ is_Some (json_Marshal_scalar (VString (Key it)))) l →
  marshal_items (json_Marshal fuel h) self l buf
  = Returns ((buf +:+ joined_pairs l) +:+ ",").
Proof.
  induction l as [|x l IH]; intros buf Hne Hl; [done|].
  apply Forall_cons in Hl as [[Hv [k Hk]] Hl].
  cbn [marshal_items]. rewrite Hk.
  assert (Hback : back_reference self x = false)
    by (unfold back_reference; by destruct (Value x)).
  rewrite Hback, (json_Marshal_scalar_value fuel h (Value x) Hv).
  cbn [joined_pairs]. rewrite Hk. unfold encoded_pair. simpl default.
  destruct l as [|y l].
  - cbn [marshal_items]. f_equal.
    destruct (json_Marshal_scalar (Value x)) as [v|]; simpl default;
      by rewrite !string_app_nil_r, !string_app_assoc.
  - destruct (json_Marshal_scalar (Value x)) as [v|]; simpl default;
      rewrite IH by done; f_equal; by rewrite !string_app_assoc.
Qed.

(** X21.  For a store with at least one live entry, whose values hold
    no dictionary and no slice and whose keys encode, [MarshalJSON]
    returns, with a nil error, the pairs [key:value] in the order of
    [Items()], separated by commas, between braces and with no comma
    after the last; a value that [json.Marshal] rejects is written as
    [null] and does not stop the encoding. *)
Theorem X21_MarshalJSON_joins_pairs fuel h self d :
  h !! self = Some d → Items d ≠ [] →
  Forall (λ it, scalar (Value it) = true
                ∧ is_Some (json_Marshal_scalar (VString (Key it)))) (Items d) →
  MarshalJSON (S fuel) h self = Returns ("{" +:+ joined_pairs (Items d) +:+ "}", None)
  ∧ String_ (S fuel) h self = Returns ("{" +:+ joined_pairs (Items d) +:+ "}").
Proof.
  intros Hd Hne Hl.
  assert (Hrun : MarshalJSON (S fuel) h self
                 = Returns ("{" +:+ joined_pairs (Items d) +:+ "}", None)).
  { rewrite (MarshalJSON_S fuel h self d Hd).
    rewrite (marshal_items_scalars fuel h self (Items d) "{" Hne Hl).
    assert (Hitems : (0 <? length (items d)) = true).
    { apply Nat.ltb_lt. unfold Items in Hne. destruct (items d); [done|simpl; lia]. }
    rewrite Hitems, truncate_last_comma. by rewrite string_app_assoc. }
  split; [done|]. unfold String_. by rewrite Hrun.
Qed.

(** X22.  The guard against back references looks one level deep: when
    the first live entry of a store points to a second store whose
    first live entry points back to the first, [MarshalJSON] of either
    never returns, whatever the fuel. *)
Theorem X22_cycle_of_two_never_returns h p q dp dq kp kq rest_p rest_q :
  p ≠ q → h !! p = Some dp → h !! q = Some dq →
  Items dp = {| Key := kp; Value := VDict q |} :: rest_p →
  Items dq = {| Key := kq; Value := VDict p |} :: rest_q →
  is_Some (json_Marshal_scalar (VString kp)) →
  is_Some (json_Marshal_scalar (VString kq)) →
  ∀ fuel, MarshalJSON fuel h p = OutOfFuel ∧ MarshalJSON fuel h q = OutOfFuel.
Proof.
  intros Hpq Hp Hq HIp HIq [ep Hkp] [eq Hkq] fuel.
  induction fuel as [fuel IH] using lt_wf_ind.
  destruct fuel as [|[|fuel]].
  - done.
  - rewrite (MarshalJSON_S 0 h p dp Hp), (MarshalJSON_S 0 h q dq Hq), HIp, HIq.
    cbn [marshal_items Key Value]. rewrite Hkp, Hkq. unfold back_reference.
    cbn [Value]. rewrite !bool_decide_eq_false_2 by done. done.
  - destruct (IH fuel) as [IHp IHq]; [lia|].
    rewrite (MarshalJSON_S _ h p dp Hp), (MarshalJSON_S _ h q dq Hq), HIp, HIq.
    cbn [marshal_items Key Value]. rewrite Hkp, Hkq. unfold back_reference.
    cbn [Value]. rewrite !bool_decide_eq_false_2 by done.
    cbn [json_Marshal]. by rewrite IHp, IHq.
Qed.

End EncodePairs.

(** * The claims on concrete stores

    The examples run the model with the reference library. *)

Import Sample.

Lemma lower_byte_idempotent c : lower_byte (lower_byte c) = lower_byte c.
Proof. destruct c as [[] [] [] [] [] [] [] []]; vm_compute; reflexivity. Qed.

Lemma ToLower_idempotent : lower_idempotent.
Proof.
  intros s. change (ToLower (ToLower s) = ToLower s).
  induction s as [|c s IH]; [done|]. simpl. by rewrite lower_byte_idempotent, IH.
Qed.

Lemma folding_store_built : SetCaseInsensitive NewDict = Some folding_store.
Proof. vm_compute. reflexivity. Qed.

Lemma well_formed_folding_store : well_formed folding_store.
Proof. apply index_invariant_well_formed, index_invariant_folding_store. Qed.

Lemma ten_tombstones_reached :
  ∃ d, set_all NewDict ten_items = Some d ∧ Delete_all d ten_keys = Some ten_tombstones.
Proof. eexists. split; vm_compute; reflexivity. Qed.

Lemma index_invariant_ten_tombstones : index_invariant ten_tombstones.
Proof. split; [intros nk i Hi; by simpl in Hi|done]. Qed.

Lemma well_formed_ten_tombstones : well_formed ten_tombstones.
Proof. apply index_invariant_well_formed, index_invariant_ten_tombstones. Qed.

Lemma tombstones_ten_tombstones : tombstones ten_tombstones = 10%Z.
Proof. vm_compute. reflexivity. Qed.

Lemma one_live_one_tombstone_reached :
  ∃ d1 d2, Set_ NewDict "a" (VInt 1) = Some d1 ∧ Set_ d1 "b" (VInt 2) = Some d2
           ∧ Delete d2 "a" = Some one_live_one_tombstone.
Proof. eexists _, _. split_and!; vm_compute; reflexivity. Qed.

Lemma index_invariant_one_live_one_tombstone : index_invariant one_live_one_tombstone.
Proof.
  split; [|done]. intros nk i Hi.
  change (({["b" := 1]} : gmap string nat) !! nk = Some i) in Hi.
  apply lookup_singleton_Some in Hi as [<- <-].
  eexists. by split_and!.
Qed.

Lemma well_formed_one_live_one_tombstone : well_formed one_live_one_tombstone.
Proof. apply index_invariant_well_formed, index_invariant_one_live_one_tombstone. Qed.

Lemma holds_itself_built :
  ∃ h1 h2, Set_at [NewDict] 0 "a" (VInt 1) = Returns h1
           ∧ Set_at h1 0 "self" (VDict 0) = Returns h2
           ∧ Set_at h2 0 "b" (VString "x") = Returns [holds_itself].
Proof. eexists _, _. split_and!; vm_compute; reflexivity. Qed.

(** C1 (code defect).  On a case-insensitive store [Delete] looks the
    lowered key up and then deletes the key as it was passed.  After
    [Set("Foo", 1)], [Delete("Foo")] finds the mapping of [foo], removes
    nothing from the index and tombstones the entry: the mapping of [foo]
    stays, [Get("Foo")] still reports [found = true], with the tombstone
    marker for a value, and [Len()] is still 1. *)
Theorem C1_Delete_keeps_lowered_key :
  ∃ d1 d2,
    SetCaseInsensitive NewDict = Some folding_store
    ∧ Set_ folding_store "Foo" (VInt 1) = Some d1
    ∧ store d1 !! getKey d1 "Foo" = Some 0
    ∧ Get d1 "Foo" = Some (VInt 1, true)
    ∧ Len d1 = 1
    ∧ Delete d1 "Foo" = Some d2
    ∧ items d2 = [{| Key := "Foo"; Value := PtrDeleted |}]
    ∧ store d2 = {["foo" := 0]}
    ∧ Get d2 "Foo" = Some (PtrDeleted, true)
    ∧ Len d2 = 1.
Proof.
  exists {| items := [{| Key := "Foo"; Value := VInt 1 |}]; store := {["foo" := 0]};
            case_insensitive := true; default_value := VNil |},
         {| items := [{| Key := "Foo"; Value := PtrDeleted |}]; store := {["foo" := 0]};
            case_insensitive := true; default_value := VNil |}.
  split_and!; vm_compute; reflexivity.
Qed.

(** On a case-sensitive store the same calls do remove the key. *)
Lemma Delete_on_case_sensitive_store :
  ∃ d1 d2,
    Set_ NewDict "Foo" (VInt 1) = Some d1
    ∧ Delete d1 "Foo" = Some d2
    ∧ store d2 = ∅
    ∧ Get d2 "Foo" = Some (VNil, false)
    ∧ Len d2 = 0.
Proof. eexists _, _. split_and!; vm_compute; reflexivity. Qed.

(** C2, as stated, fails: after [Set("a", &Deleted)] on a new store the
    index maps [a] to an entry that is tombstoned, and there is one index
    mapping for no live entry. *)
Lemma C2_counterexample :
  ∃ d,
    Set_ NewDict "a" PtrDeleted = Some d
    ∧ store d !! "a" = Some 0
    ∧ (IsDeleted <$> items d !! 0) = Some true
    ∧ length (Items d) = 0 ∧ size (store d) = 1
    ∧ ¬ index_invariant d.
Proof.
  exists {| items := [{| Key := "a"; Value := PtrDeleted |}]; store := {["a" := 0]};
            case_insensitive := false; default_value := VNil |}.
  split_and!; try (vm_compute; reflexivity). by intros [_ Hsize].
Qed.

(** C2 at the store [one_live_one_tombstone]. *)
Lemma C2_witness :
  index_invariant one_live_one_tombstone
  ∧ (∃ d', Set_ one_live_one_tombstone "a" (VInt 3) = Some d' ∧ index_invariant d')
  ∧ (∃ d', Delete one_live_one_tombstone "b" = Some d' ∧ index_invariant d').
Proof.
  pose proof (C2_index_invariant_kept one_live_one_tombstone
                index_invariant_one_live_one_tombstone) as (HSet & _ & HDelete & _).
  split_and!.
  - exact index_invariant_one_live_one_tombstone.
  - apply HSet. discriminate.
  - apply HDelete. reflexivity.
Defined.

(** C4, as stated, fails: after [Set("Foo", 1); Set("FOO", 2)] on a
    case-insensitive store [Keys()] reports [FOO], the casing of the later
    call, not the first casing [Foo]. *)
Lemma C4_counterexample :
  ∃ d1 d2,
    Set_ folding_store "Foo" (VInt 1) = Some d1
    ∧ Keys d1 = ["Foo"]
    ∧ Set_ d1 "FOO" (VInt 2) = Some d2
    ∧ Keys d2 = ["FOO"]
    ∧ Keys d2 ≠ ["Foo"].
Proof.
  exists {| items := [{| Key := "Foo"; Value := VInt 1 |}]; store := {["foo" := 0]};
            case_insensitive := true; default_value := VNil |},
         {| items := [{| Key := "Foo"; Value := PtrDeleted |};
                      {| Key := "FOO"; Value := VInt 2 |}];
            store := {["foo" := 1]};
            case_insensitive := true; default_value := VNil |}.
  split_and!; try (vm_compute; reflexivity). discriminate.
Qed.

(** C4 at the empty case-insensitive store, with [Foo] and [FOO]. *)
Lemma C4_witness :
  well_formed folding_store
  ∧ strings_ToLower "Foo" = strings_ToLower "FOO"
  ∧ ∃ d1 d2,
      Set_ folding_store "Foo" (VInt 1) = Some d1
      ∧ Get d1 "FOO" = Some (VInt 1, true)
      ∧ Keys d1 = ["Foo"]
      ∧ Set_ d1 "FOO" (VInt 2) = Some d2
      ∧ Get d2 "Foo" = Some (VInt 2, true)
      ∧ Keys d2 = ["FOO"].
Proof.
  split; [exact well_formed_folding_store|]. split; [reflexivity|].
  apply (C4_case_folding_and_latest_casing folding_store "Foo" "FOO" (VInt 1) (VInt 2)).
  - exact well_formed_folding_store.
  - reflexivity.
  - reflexivity.
  - discriminate.
  - discriminate.
Defined.

(** C5, as stated, fails: ten keys set and then deleted leave ten
    deleted entries for an empty index, since [Delete] does not
    compact. *)
Lemma C5_counterexample :
  ∃ d,
    set_all NewDict ten_items = Some d
    ∧ Delete_all d ten_keys = Some ten_tombstones
    ∧ deleted_entries ten_tombstones = 10
    ∧ tombstones ten_tombstones = 10%Z
    ∧ ¬ deleted_entries ten_tombstones ≤ 9
    ∧ ¬ (tombstones ten_tombstones ≤ 9)%Z.
Proof.
  destruct ten_tombstones_reached as (d & Hset & Hdel).
  assert (Hten : deleted_entries ten_tombstones = 10) by (vm_compute; reflexivity).
  exists d. split_and!; [done|done|done|apply tombstones_ten_tombstones|..].
  - rewrite Hten. lia.
  - rewrite tombstones_ten_tombstones. lia.
Qed.

(** C5 at the store of ten tombstones, which satisfies the invariant:
    the next [Set] compacts and leaves no deleted entry. *)
Lemma C5_witness :
  well_formed ten_tombstones
  ∧ index_invariant ten_tombstones
  ∧ deleted_entries ten_tombstones = 10
  ∧ (∃ d', Set_ ten_tombstones "k" (VInt 1) = Some d'
           ∧ index_invariant d'
           ∧ deleted_entries d' ≤ 9
           ∧ (tombstones d' ≤ 9)%Z)
  ∧ items (maybeCompact ten_tombstones) = []
  ∧ deleted_entries (maybeCompact ten_tombstones) = 0.
Proof.
  pose proof (C5_compaction_after_append ten_tombstones "k" (VInt 1)
                well_formed_ten_tombstones) as (HSet & _ & _ & _ & _ & Hcompact & _).
  assert (Hge : (10 ≤ tombstones ten_tombstones)%Z)
    by (rewrite tombstones_ten_tombstones; lia).
  destruct (Hcompact Hge) as (Hitems & _ & _ & _ & Hnone).
  split_and!.
  - exact well_formed_ten_tombstones.
  - exact index_invariant_ten_tombstones.
  - vm_compute. reflexivity.
  - destruct (HSet index_invariant_ten_tombstones) as (d' & Hset & Hinv & Hcount & Hle);
      [discriminate|].
    exists d'. split_and!; [exact Hset|exact Hinv|exact Hle|lia].
  - exact Hitems.
  - exact Hnone.
Defined.

(** Where the invariant fails the deleted entries outnumber the count
    that the check tests.  On a case-insensitive store [Delete] of a key
    that is not in lower case leaves the index as it is (the defect of
    C1): after [Set(key, 1); Delete(key)] for twelve such keys and one
    more [Set], the store holds twelve deleted entries, the count is 0
    and no compaction has run. *)
Lemma deleted_entries_beyond_the_count :
  ∃ d d',
    Set_Delete_all folding_store twelve_keys = Some d
    ∧ Set_ d "last" (VInt 2) = Some d'
    ∧ length (items d') = 13 ∧ Len d' = 13
    ∧ tombstones d' = 0%Z
    ∧ deleted_entries d' = 12
    ∧ Keys d' = ["last"].
Proof.
  eexists _, _. split_and!; [vm_compute; reflexivity..].
Qed.

(** C6, as stated, fails for the value [&Deleted]: after
    [Set("k", 1); Set("other", 2); Set("k", &Deleted)] the key [k] does not
    reappear, [Keys()] is [other] alone. *)
Lemma C6_counterexample :
  ∃ d1 d2 d3,
    Set_ NewDict "k" (VInt 1) = Some d1
    ∧ Set_ d1 "other" (VInt 2) = Some d2
    ∧ Set_ d2 "k" PtrDeleted = Some d3
    ∧ Keys d3 = ["other"]
    ∧ Keys d3 ≠ ["other"; "k"].
Proof.
  eexists _, _, _. split_and!; [vm_compute; reflexivity..|].
  vm_compute. discriminate.
Qed.

(** C6 with the keys [k] and [other], by [Set] and by decoding. *)
Lemma C6_witness :
  "k" ≠ "other"
  ∧ (∃ d1 d2 d3,
       Set_ NewDict "k" (VInt 1) = Some d1 ∧ Set_ d1 "other" (VInt 2) = Some d2
       ∧ Set_ d2 "k" (VInt 3) = Some d3
       ∧ Keys d3 = ["other"; "k"] ∧ Values d3 = [VInt 2; VInt 3])
  ∧ (∃ d',
       UnmarshalJSON 0 [NewDict]
         [inl (TDelim "{"); inl (TString "k"); inl (TNumber "1");
          inl (TString "other"); inl (TNumber "2");
          inl (TString "k"); inl (TNumber "3"); inl (TDelim "}")]
       = Returns (([d'], []), inr ())
       ∧ Keys d' = ["other"; "k"] ∧ Values d' = [VUint64 2; VUint64 3]).
Proof.
  destruct C6_set_moves_key_to_end as (_ & HSet & _ & HDecode).
  split_and!.
  - discriminate.
  - apply HSet; discriminate.
  - destruct (HDecode "k" "other" (TNumber "1") (TNumber "2") (TNumber "3")
                (VUint64 1) (VUint64 2) (VUint64 3)) as (d' & ? & ? & ?);
      [discriminate|vm_compute; reflexivity..|].
    exists d'. split_and!; assumption.
Defined.

(** C7 with the reference [strconv.ParseFloat]: 3.14 decodes as the
    binary64 number nearest to it, 7070651414971679 * 2^-51. *)
Lemma C7_witness :
  strconv_ParseFloat "3.14" = Some (S754_finite false 7070651414971679 (-51))
  ∧ ∃ d',
      UnmarshalJSON 0 [NewDict]
        [inl (TDelim "{"); inl (TString "n"); inl (TNumber "3.14"); inl (TDelim "}")]
      = Returns (([d'], []), inr ())
      ∧ Get d' "n" = Some (VFloat64 (S754_finite false 7070651414971679 (-51)), true).
Proof.
  assert (Hf : strconv_ParseFloat "3.14"
               = Some (S754_finite false 7070651414971679 (-51)))
    by (vm_compute; reflexivity).
  split; [exact Hf|].
  destruct C7_numeric_tokens as (_ & _ & _ & _ & Hfloat).
  exact (Hfloat "n" _ Hf).
Defined.

(** C8 with the reference [time.Parse]: the string of the specification
    decodes as the instant 1672628645 s after the epoch. *)
Lemma C8_witness :
  looks_like_timestamp "2023-01-02T03:04:05Z" = true
  ∧ time_Parse_RFC3339 "2023-01-02T03:04:05Z"
    = Some {| unix_sec := 1672628645; unix_nsec := 0; zone_offset := 0 |}
  ∧ ∃ d',
      UnmarshalJSON 0 [NewDict]
        [inl (TDelim "{"); inl (TString "t"); inl (TString "2023-01-02T03:04:05Z");
         inl (TDelim "}")]
      = Returns (([d'], []), inr ())
      ∧ Get d' "t"
        = Some (VTime {| unix_sec := 1672628645; unix_nsec := 0; zone_offset := 0 |}, true).
Proof.
  assert (Hlooks : looks_like_timestamp "2023-01-02T03:04:05Z" = true)
    by (vm_compute; reflexivity).
  assert (Hparse : time_Parse_RFC3339 "2023-01-02T03:04:05Z"
                   = Some {| unix_sec := 1672628645; unix_nsec := 0; zone_offset := 0 |})
    by (vm_compute; reflexivity).
  split; [exact Hlooks|]. split; [exact Hparse|].
  destruct (C8_timestamp_heuristic "2023-01-02T03:04:05Z") as (_ & _ & Htime & _).
  destruct (Htime _ Hlooks Hparse) as [_ Hdecode].
  exact (Hdecode "t").
Defined.

(** The string [not-a-date-but-20-chars!!] of the specification has 25
    bytes and a dash at offset 10: it is not even tried as a timestamp. *)
Lemma not_a_date_is_a_string :
  looks_like_timestamp "not-a-date-but-20-chars!!" = false
  ∧ handle_string "not-a-date-but-20-chars!!" = VString "not-a-date-but-20-chars!!".
Proof. split; vm_compute; reflexivity. Qed.

(** A string of the right shape that is no date stays a string. *)
Lemma unparsable_timestamp_is_a_string :
  looks_like_timestamp "2023-13-02T03:04:05Z" = true
  ∧ handle_string "2023-13-02T03:04:05Z" = VString "2023-13-02T03:04:05Z".
Proof. split; vm_compute; reflexivity. Qed.

(** C9 at the store [holds_itself]: the encoding returns with any fuel
    and holds the two scalar pairs only. *)
Lemma C9_witness :
  [holds_itself] !! 0 = Some holds_itself
  ∧ ∃ buf,
      marshal_items (json_Marshal 0 [holds_itself]) 0
        (filter (λ it, back_reference 0 it = false) (Items holds_itself)) "{"
      = Returns buf
      ∧ ∀ fuel', 0 < fuel' →
          MarshalJSON fuel' [holds_itself] 0
          = Returns ((if 0 <? length (items holds_itself) then truncate_last buf else buf)
                     +:+ "}", None).
Proof.
  split; [reflexivity|].
  apply (C9_self_reference_skipped 0 [holds_itself] 0 holds_itself); [reflexivity|].
  intros it Hin Hback.
  assert (Hscalar : scalar (Value it) = true).
  { unfold Items in Hin. apply list_elem_of_filter in Hin as [_ Hin].
    unfold holds_itself in Hin. simpl in Hin.
    repeat (apply elem_of_cons in Hin as [->|Hin]); try reflexivity.
    - discriminate Hback.
    - by apply elem_of_nil in Hin. }
  eexists. by apply json_Marshal_scalar_value.
Defined.

Lemma holds_itself_encoded :
  MarshalJSON 1 [holds_itself] 0
  = Returns ("{" +:+ quoted "a" +:+ ":1," +:+ quoted "b" +:+ ":" +:+ quoted "x" +:+ "}",
             None).
Proof. vm_compute. reflexivity. Qed.

(** C10, as stated, fails when the [Set] compacts: on the store of ten
    tombstones [Set("k", &Deleted)] appends an eleventh entry for one index
    mapping, the check finds 10 tombstones outstanding and the compaction
    drops all eleven entries: [Get("k")] misses and [Len()] is 0. *)
Lemma C10_counterexample :
  ∃ d d',
    set_all NewDict ten_items = Some d
    ∧ Delete_all d ten_keys = Some ten_tombstones
    ∧ Set_ ten_tombstones "k" PtrDeleted = Some d'
    ∧ Get d' "k" = Some (VNil, false)
    ∧ Get d' "k" ≠ Some (PtrDeleted, true)
    ∧ Len d' = 0.
Proof.
  destruct ten_tombstones_reached as (d & Hset & Hdel).
  exists d, NewDict. split_and!; [exact Hset|exact Hdel|..].
  - vm_compute. reflexivity.
  - vm_compute. reflexivity.
  - vm_compute. discriminate.
  - vm_compute. reflexivity.
Qed.

(** C10 at the store [one_live_one_tombstone] and the key [b]. *)
Lemma C10_witness :
  well_formed one_live_one_tombstone
  ∧ (tombstones_after_set one_live_one_tombstone "b" < 10)%Z
  ∧ ∃ d',
      Set_ one_live_one_tombstone "b" PtrDeleted = Some d'
      ∧ Keys d' = []
      ∧ Get d' "b" = Some (PtrDeleted, true)
      ∧ Len d' = 1.
Proof.
  assert (Hlt : (tombstones_after_set one_live_one_tombstone "b" < 10)%Z).
  { replace (tombstones_after_set one_live_one_tombstone "b") with 2%Z; [lia|].
    vm_compute. reflexivity. }
  split; [exact well_formed_one_live_one_tombstone|]. split; [exact Hlt|].
  destruct (C10_Set_Deleted_marker one_live_one_tombstone "b"
              well_formed_one_live_one_tombstone)
    as (d' & Hset & HItems & HKeys & _ & _ & Hbelow & _).
  destruct (Hbelow Hlt) as (HGet & _ & _ & HLen).
  assert (Hothers : others one_live_one_tombstone
                      (getKey one_live_one_tombstone "b") = [])
    by (vm_compute; reflexivity).
  exists d'. split_and!.
  - exact Hset.
  - rewrite HKeys, Hothers. reflexivity.
  - exact HGet.
  - rewrite (HLen index_invariant_one_live_one_tombstone), HItems, Hothers. reflexivity.
Defined.

(** The guard of [MarshalJSON] looks one level deep only: two stores that
    hold each other are encoded without end. *)
Lemma MarshalJSON_two_stores_cycle fuel :
  MarshalJSON fuel [first_of_two; second_of_two] 0 = OutOfFuel
  ∧ MarshalJSON fuel [first_of_two; second_of_two] 1 = OutOfFuel.
Proof.
  induction fuel as [fuel IH] using lt_wf_ind.
  destruct fuel as [|[|fuel]]; [split; reflexivity..|].
  destruct (IH fuel) as [IH0 IH1]; [lia|].
  split.
  - rewrite (MarshalJSON_S _ _ _ first_of_two) by reflexivity.
    change (Items first_of_two) with [{| Key := "second"; Value := VDict 1 |}].
    cbn [marshal_items Key Value].
    change (json_Marshal_scalar (VString "second")) with (Some (quoted "second")).
    change (back_reference 0 {| Key := "second"; Value := VDict 1 |}) with false.
    cbn [json_Marshal]. rewrite IH1. reflexivity.
  - rewrite (MarshalJSON_S _ _ _ second_of_two) by reflexivity.
    change (Items second_of_two) with [{| Key := "first"; Value := VDict 0 |}].
    cbn [marshal_items Key Value].
    change (json_Marshal_scalar (VString "first")) with (Some (quoted "first")).
    change (back_reference 1 {| Key := "first"; Value := VDict 0 |}) with false.
    cbn [json_Marshal]. rewrite IH0. reflexivity.
Qed.

(** * The further properties on concrete stores *)

Import Amd64.

(** A store that [Set] built from live items satisfies the invariant. *)
Lemma built_invariant l d :
  set_all NewDict l = Some d → Forall (λ it, IsDeleted it = false) l → index_invariant d.
Proof.
  intros Hall Hlive.
  destruct (set_all_invariant NewDict l index_invariant_NewDict Hlive) as (d' & Hall' & Hinv).
  rewrite Hall in Hall'. by injection Hall' as <-.
Qed.

Lemma index_invariant_two_live : index_invariant two_live.
Proof.
  apply (built_invariant [{| Key := "b"; Value := VInt 5 |}; {| Key := "c"; Value := VInt 6 |}]).
  - vm_compute. reflexivity.
  - by repeat constructor.
Qed.

Lemma well_formed_two_live : well_formed two_live.
Proof. apply index_invariant_well_formed, index_invariant_two_live. Qed.

(** X2 at the store [one_live_one_tombstone]: [b] is found, [a] is not. *)
Lemma X2_witness :
  index_invariant one_live_one_tombstone
  ∧ (∃ it, it ∈ Items one_live_one_tombstone ∧ Key it = "b" ∧ Value it = VInt 2)
  ∧ (∀ it, it ∈ Items one_live_one_tombstone → Key it ≠ "a").
Proof.
  pose proof (X2_Get_finds_live_entries one_live_one_tombstone "b"
                index_invariant_one_live_one_tombstone) as (Hb & _ & _).
  pose proof (X2_Get_finds_live_entries one_live_one_tombstone "a"
                index_invariant_one_live_one_tombstone) as (_ & Ha & _).
  split_and!.
  - exact index_invariant_one_live_one_tombstone.
  - apply (Hb (VInt 2)). vm_compute. reflexivity.
  - apply Ha. vm_compute. reflexivity.
Defined.

(** X3 at the store [two_live]. *)
Lemma X3_witness :
  well_formed two_live ∧ NoDup (Keys two_live) ∧ Keys two_live = ["b"; "c"].
Proof.
  split_and!.
  - exact well_formed_two_live.
  - exact (proj2 (X3_Keys_distinct two_live well_formed_two_live)).
  - reflexivity.
Defined.

(** X4 at the store [two_live]: setting [d] leaves [b]. *)
Lemma X4_witness :
  index_invariant two_live
  ∧ ∃ d', Set_ two_live "d" (VInt 7) = Some d'
          ∧ Get d' "d" = Some (VInt 7, true)
          ∧ Get d' "b" = Some (VInt 5, true)
          ∧ Len d' = 3.
Proof.
  split; [exact index_invariant_two_live|].
  destruct (X4_Set_leaves_other_keys two_live "d" (VInt 7) index_invariant_two_live)
    as (d' & Hset & HGet & Hframe & HLen); [discriminate|].
  exists d'. split_and!.
  - exact Hset.
  - exact HGet.
  - rewrite (Hframe "b"); [vm_compute; reflexivity|vm_compute; discriminate].
  - rewrite HLen. vm_compute. reflexivity.
Defined.

(** X5 at the store [two_live]: updating [b] in place. *)
Lemma X5_witness :
  index_invariant two_live
  ∧ ∃ d', Update two_live "b" (VInt 8) = Some d'
          ∧ Keys d' = ["b"; "c"]
          ∧ Get d' "b" = Some (VInt 8, true)
          ∧ Len d' = 2.
Proof.
  split; [exact index_invariant_two_live|].
  destruct (X5_Update_in_place two_live "b" (VInt 8) index_invariant_two_live)
    as [Hpresent _]; [discriminate|].
  destruct (Hpresent 0) as (d' & HUpdate & _ & _ & HKeys & HLen & HGet & _);
    [vm_compute; reflexivity|].
  exists d'. split_and!.
  - exact HUpdate.
  - rewrite HKeys. reflexivity.
  - exact HGet.
  - rewrite HLen. vm_compute. reflexivity.
Defined.

(** X6 at the store [two_live]: deleting [b]. *)
Lemma X6_witness :
  index_invariant two_live
  ∧ getKey two_live "b" = "b"
  ∧ ∃ d', Delete two_live "b" = Some d'
          ∧ Keys d' = ["c"]
          ∧ Get d' "b" = Some (VNil, false)
          ∧ Get d' "c" = Some (VInt 6, true)
          ∧ Len d' = 1.
Proof.
  split; [exact index_invariant_two_live|]. split; [reflexivity|].
  destruct (X6_Delete_removes_one_key two_live "b" index_invariant_two_live)
    as (d' & HDelete & _ & HItems & HGet & Hframe & HLen & _); [reflexivity|].
  exists d'. split_and!.
  - exact HDelete.
  - unfold Keys. rewrite HItems. vm_compute. reflexivity.
  - exact HGet.
  - rewrite (Hframe "c"); [vm_compute; reflexivity|vm_compute; discriminate].
  - rewrite HLen. vm_compute. reflexivity.
Defined.

(** X7 at the store [two_live] and the key [b]. *)
Lemma X7_witness :
  index_invariant two_live
  ∧ getKey two_live "b" = "b"
  ∧ ∃ d1 d2 d3,
      Delete two_live "b" = Some d1 ∧ Set_ d1 "b" (VInt 9) = Some d2
      ∧ Set_ two_live "b" (VInt 9) = Some d3
      ∧ Items d2 = Items d3.
Proof.
  split; [exact index_invariant_two_live|]. split; [reflexivity|].
  destruct (X7_Set_after_Delete two_live "b" (VInt 9) index_invariant_two_live)
    as (d1 & d2 & d3 & H1 & H2 & H3 & HItems & _); [reflexivity|discriminate|].
  exists d1, d2, d3. split_and!; assumption.
Defined.

(** X8 at the store [two_live]. *)
Lemma X8_witness :
  index_invariant two_live
  ∧ Keys (maybeCompact two_live) = ["b"; "c"]
  ∧ Get (maybeCompact two_live) "c" = Some (VInt 6, true).
Proof.
  pose proof (X8_compaction_unobservable two_live index_invariant_two_live)
    as (_ & _ & HKeys & _ & HGet).
  split_and!.
  - exact index_invariant_two_live.
  - rewrite HKeys. reflexivity.
  - rewrite HGet. vm_compute. reflexivity.
Defined.

(** X9: merging [two_live] into [one_live_one_tombstone] moves [b] to the
    end with the value of [two_live]. *)
Lemma X9_witness :
  index_invariant one_live_one_tombstone ∧ well_formed two_live
  ∧ ∃ d', MergeFrom one_live_one_tombstone two_live = Some d'
          ∧ Keys d' = ["b"; "c"]
          ∧ Get d' "b" = Some (VInt 5, true).
Proof.
  split; [exact index_invariant_one_live_one_tombstone|].
  split; [exact well_formed_two_live|].
  destruct (X9_MergeFrom_appends one_live_one_tombstone two_live
              index_invariant_one_live_one_tombstone well_formed_two_live)
    as (d' & HMerge & _ & HItems & HGet & _); [discriminate|].
  exists d'. split_and!.
  - exact HMerge.
  - unfold Keys. rewrite HItems. vm_compute. reflexivity.
  - apply (HGet {| Key := "b"; Value := VInt 5 |}).
    apply list_elem_of_filter. split; [reflexivity|]. apply list_elem_of_here.
Defined.

(** X10 at the store [two_live], whose keys differ by more than case. *)
Lemma X10_witness :
  NoDup ((λ it, strings_ToLower (Key it)) <$> Items two_live)
  ∧ ∃ d', SetCaseInsensitive two_live = Some d'
          ∧ Keys d' = ["b"; "c"]
          ∧ Get d' "B" = Some (VInt 5, true).
Proof.
  assert (Hnd : NoDup ((λ it, strings_ToLower (Key it)) <$> Items two_live)).
  { vm_compute. apply NoDup_cons. split; [|apply NoDup_singleton].
    intros [=]%list_elem_of_singleton. }
  split; [exact Hnd|].
  destruct (X10_SetCaseInsensitive_copies two_live) as [_ Hsame].
  destruct (Hsame Hnd) as (d' & Hset & HItems & HGet).
  exists d'. split_and!.
  - exact Hset.
  - unfold Keys. rewrite HItems. reflexivity.
  - apply (HGet {| Key := "b"; Value := VInt 5 |} "B"); [|reflexivity].
    apply list_elem_of_filter. split; [reflexivity|]. apply list_elem_of_here.
Defined.

(** X11 at the store [two_live] with a string for default. *)
Lemma X11_witness :
  store two_live !! getKey two_live "z" = None
  ∧ Get (SetDefault two_live (VString "none")) "z" = Some (VString "none", false)
  ∧ GetString (SetDefault two_live (VString "none")) "z" = Some (EmptyString, false)
  ∧ Get (SetDefault two_live (VString "none")) "b" = Some (VInt 5, true).
Proof.
  assert (Hz : store two_live !! getKey two_live "z" = None) by (vm_compute; reflexivity).
  pose proof (X11_default_value_only_from_Get two_live "z" (VString "none") Hz)
    as (HGet & HGetString & _ & _ & _ & Hpresent & _).
  split_and!.
  - exact Hz.
  - exact HGet.
  - exact HGetString.
  - rewrite (Hpresent "b"); [vm_compute; reflexivity|].
    exists 0. vm_compute. reflexivity.
Defined.

(** X12 at the greatest [uint64]: [GetInt64] returns -1. *)
Lemma X12_witness :
  strconv_ParseUint "18446744073709551615" = Some 18446744073709551615%Z
  ∧ ∃ d',
      UnmarshalJSON 0 [NewDict]
        [inl (TDelim "{"); inl (TString "n"); inl (TNumber "18446744073709551615");
         inl (TDelim "}")]
      = Returns (([d'], []), inr ())
      ∧ GetInt64 d' "n" = Some ((-1)%Z, true).
Proof.
  assert (Hu : strconv_ParseUint "18446744073709551615" = Some 18446744073709551615%Z)
    by (vm_compute; reflexivity).
  split; [exact Hu|].
  destruct (X12_GetInt64_of_decoded_numeral "n" _ _ Hu) as (d' & Hdec & _ & HGet).
  exists d'. split; [exact Hdec|]. rewrite HGet. vm_compute. reflexivity.
Defined.

(** X14 at the store [one_live_one_tombstone]. *)
Lemma X14_witness :
  well_formed one_live_one_tombstone
  ∧ ToMap one_live_one_tombstone !! "b" = Some (VInt 2)
  ∧ size (ToMap one_live_one_tombstone) = 1.
Proof.
  pose proof (X14_ToMap_live_entries one_live_one_tombstone
                well_formed_one_live_one_tombstone) as (Hl & Hs & _).
  split_and!.
  - exact well_formed_one_live_one_tombstone.
  - apply Hl. apply list_elem_of_filter. split; [reflexivity|].
    apply list_elem_of_further, list_elem_of_here.
  - rewrite Hs. reflexivity.
Defined.

(** X15 at the store [one_live_one_tombstone]. *)
Lemma X15_witness :
  well_formed one_live_one_tombstone
  ∧ ∃ d', UnmarshalYAML (E:=error) NewDict
            (inr (MarshalYAML (E:=error) one_live_one_tombstone).1) = Some (d', None)
          ∧ Keys d' = ["b"]
          ∧ Values d' = [VInt 2].
Proof.
  split; [exact well_formed_one_live_one_tombstone|].
  destruct (X15_yaml_round_trip error one_live_one_tombstone
              well_formed_one_live_one_tombstone) as (d' & Hrun & _ & HItems & _).
  exists d'. unfold Keys, Values. rewrite HItems. split_and!; [exact Hrun|reflexivity..].
Defined.

(** X18 with one member read before the error. *)
Lemma X18_witness :
  ∃ d',
    set_all NewDict [{| Key := "a"; Value := VUint64 1 |}] = Some d'
    ∧ Keys d' = ["a"]
    ∧ UnmarshalJSON 0 [NewDict]
        [inl (TDelim "{"); inl (TString "a"); inl (TNumber "1")]
      = Returns (([d'], []), inl io_EOF)
    ∧ UnmarshalJSON 0 [NewDict]
        [inl (TDelim "{"); inl (TString "a"); inl (TNumber "1");
         inr (SyntaxError "invalid character")]
      = Returns (([d'], []), inl (SyntaxError "invalid character"))
    ∧ UnmarshalJSON 0 [NewDict]
        [inl (TDelim "{"); inl (TString "a"); inl (TNumber "1"); inl (TNumber "2")]
      = Returns (([d'], []), inl (ErrKeyNotString (TNumber "2")))
    ∧ UnmarshalJSON 0 [NewDict]
        [inl (TDelim "{"); inl (TString "a"); inl (TNumber "1"); inl (TDelim "}");
         inl TNull]
      = Returns (([d'], []), inl ErrTrailingData).
Proof.
  exists {| items := [{| Key := "a"; Value := VUint64 1 |}]; store := {["a" := 0]};
            case_insensitive := false; default_value := VNil |}.
  assert (Hset : set_all NewDict [{| Key := "a"; Value := VUint64 1 |}]
                 = Some {| items := [{| Key := "a"; Value := VUint64 1 |}];
                           store := {["a" := 0]};
                           case_insensitive := false; default_value := VNil |})
    by (vm_compute; reflexivity).
  assert (Hl : Forall2 decodes_to [("a", TNumber "1")]
                 [{| Key := "a"; Value := VUint64 1 |}])
    by (repeat constructor; vm_compute; reflexivity).
  destruct (X18_decoding_keeps_members_on_error [("a", TNumber "1")] 0 [NewDict] NewDict
              _ _ eq_refl Hl Hset) as (Heof & Herr & Hkey & Htrail).
  split_and!.
  - exact Hset.
  - reflexivity.
  - exact Heof.
  - exact (Herr (SyntaxError "invalid character") []).
  - apply (Hkey (TNumber "2") []); [reflexivity|discriminate].
  - exact (Htrail TNull []).
Defined.

(** X19 with an inner object of one member. *)
Lemma X19_witness :
  Forall2 decodes_to [("x", TBool true)] [{| Key := "x"; Value := VBool true |}]
  ∧ ∃ d' d2,
      UnmarshalJSON 0 [NewDict]
        [inl (TDelim "{"); inl (TString "in"); inl (TDelim "{"); inl (TString "x");
         inl (TBool true); inl (TDelim "}"); inl (TDelim "}")]
      = Returns (([d'; d2], []), inr ())
      ∧ Get d' "in" = Some (VDict 1, true)
      ∧ Get d2 "x" = Some (VBool true, true).
Proof.
  assert (Hl : Forall2 decodes_to [("x", TBool true)] [{| Key := "x"; Value := VBool true |}])
    by (repeat constructor).
  split; [exact Hl|].
  destruct (X19_nested_object_decoded "in" _ _ Hl) as (d' & d2 & Hrun & HGet & _ & Hd2 & _).
  exists d', d2. split_and!.
  - exact Hrun.
  - exact HGet.
  - assert (Hd2' : set_all NewDict [{| Key := "x"; Value := VBool true |}]
                   = Some {| items := [{| Key := "x"; Value := VBool true |}];
                             store := {["x" := 0]};
                             case_insensitive := false; default_value := VNil |})
      by (vm_compute; reflexivity).
    rewrite Hd2' in Hd2. injection Hd2 as <-. vm_compute. reflexivity.
Defined.

(** X20 with an array of two strings around a number. *)
Lemma X20_witness :
  Forall2 (λ t v, scalar_value t = Some v)
    [TString "a"; TNumber "1"; TString "b"] [VString "a"; VUint64 1; VString "b"]
  ∧ ∃ d',
      UnmarshalJSON 0 [NewDict]
        [inl (TDelim "{"); inl (TString "k"); inl (TDelim "["); inl (TString "a");
         inl (TNumber "1"); inl (TString "b"); inl (TDelim "]"); inl (TDelim "}")]
      = Returns (([d'], []), inr ())
      ∧ Get d' "k" = Some (VSlice [VString "a"; VUint64 1; VString "b"], true)
      ∧ GetStrings d' "k" = Some (["a"; "b"], true).
Proof.
  assert (Hvs : Forall2 (λ t v, scalar_value t = Some v)
                  [TString "a"; TNumber "1"; TString "b"]
                  [VString "a"; VUint64 1; VString "b"])
    by (repeat constructor; vm_compute; reflexivity).
  split; [exact Hvs|].
  destruct (X20_array_decoded "k" _ _ Hvs) as (d' & Hrun & HGet & HStrings).
  exists d'. split_and!; [exact Hrun|exact HGet|exact HStrings].
Defined.

(** X21 at the store [two_live]. *)
Lemma X21_witness :
  [two_live] !! 0 = Some two_live
  ∧ MarshalJSON 1 [two_live] 0
    = Returns ("{" +:+ quoted "b" +:+ ":5," +:+ quoted "c" +:+ ":6}", None).
Proof.
  split; [reflexivity|].
  destruct (X21_MarshalJSON_joins_pairs 0 [two_live] 0 two_live) as [Hrun _].
  - reflexivity.
  - discriminate.
  - repeat constructor; vm_compute; eexists; reflexivity.
  - rewrite Hrun. vm_compute. reflexivity.
Defined.

(** X22 at the two stores that hold each other. *)
Lemma X22_witness :
  [first_of_two; second_of_two] !! 0 = Some first_of_two
  ∧ [first_of_two; second_of_two] !! 1 = Some second_of_two
  ∧ ∀ fuel, MarshalJSON fuel [first_of_two; second_of_two] 0 = OutOfFuel.
Proof.
  split; [reflexivity|]. split; [reflexivity|]. intros fuel.
  apply (X22_cycle_of_two_never_returns [first_of_two; second_of_two] 0 1
           first_of_two second_of_two "second" "first" [] []).
  - discriminate.
  - reflexivity.
  - reflexivity.
  - reflexivity.
  - reflexivity.
  - eexists. vm_compute. reflexivity.
  - eexists. vm_compute. reflexivity.
Defined.

(** X23 at the timestamp of the specification: the member is there,
    and [GetString] does not find it. *)
Lemma X23_witness :
  scalar_value (TString "2023-01-02T03:04:05Z")
  = Some (VTime {| unix_sec := 1672628645; unix_nsec := 0; zone_offset := 0 |})
  ∧ ∃ d',
      UnmarshalJSON 0 [NewDict]
        [inl (TDelim "{"); inl (TString "t"); inl (TString "2023-01-02T03:04:05Z");
         inl (TDelim "}")]
      = Returns (([d'], []), inr ())
      ∧ GetString d' "t" = Some (EmptyString, false)
      ∧ GetBool d' "t" = Some (false, false).
Proof.
  assert (Ht : scalar_value (TString "2023-01-02T03:04:05Z")
               = Some (VTime {| unix_sec := 1672628645; unix_nsec := 0;
                                zone_offset := 0 |}))
    by (vm_compute; reflexivity).
  split; [exact Ht|].
  destruct (X23_typed_getters_after_decoding "t" _ _ Ht)
    as (d' & Hdec & HBool & HString & _).
  exists d'. split_and!; [exact Hdec|exact HString|exact HBool].
Defined.
